(** * Charm event simulator: a shallow embedding of [simulator.py]

    The simulator is a single Python class that mutates itself while it
    draws from the process-wide [random] module.  It is embedded as a
    state-and-error monad over
    - the simulator object ([Sim]), which also holds the store of the
      mutable [Relation] objects that tuples, actions and traces share;
    - the random source ([Rng]), a tape of the outcomes it will produce.

    Exceptions keep the state reached when they were raised, as in Python. *)

From Stdlib Require Import List String Ascii ZArith NArith QArith Bool Arith Lia.
From Stdlib Require Import Permutation.
Import ListNotations.

Close Scope Q_scope.
Open Scope string_scope.
Open Scope list_scope.

Set Implicit Arguments.

(* ================================================================= *)
(** ** Strings: event names are built by appending a suffix *)

(** [s.endswith(suffix)]: [s] is [suffix], or its tail ends with it. *)
Fixpoint ends_with (suffix s : string) : bool :=
  (s =? suffix)%string ||
  match s with
  | EmptyString => false
  | String _ s' => ends_with suffix s'
  end.

(* ================================================================= *)
(** ** The random source

    Every call into the [random] module consumes one outcome of the tape.
    An outcome is a natural number: [randrange(0, n)] reads it modulo [n],
    and [random()] reads it as the 53-bit numerator of a fraction of
    [2^53], which is how CPython builds the float.  An exhausted tape
    keeps answering [0]. *)

Definition Rng := list N.

Definition next_outcome (g : Rng) : N * Rng :=
  match g with
  | [] => (0%N, [])
  | x :: g' => (x, g')
  end.

Definition two53 : positive := 9007199254740992.

(** The float returned by [random.random()], as the exact rational it is. *)
Definition unit_of_outcome (x : N) : Q :=
  Qmake (Z.of_N (x mod Npos two53)) two53.

(** [a < b] on rationals, as a boolean. *)
Definition Qltb (a b : Q) : bool := negb (Qle_bool b a).

(* ================================================================= *)
(** ** Domain model *)

Record Event := mkEvent { ev_name : string }.

Inductive Source := user | this_charm | other_charm.

(** Relations are mutable objects ([is_joined] is assigned by the engine)
    that are shared by reference: a [ref] is the identity of one object,
    the store maps it to the object's current fields. *)
Definition ref := nat.

Record Relation := mkRelation {
  rel_name : string;
  is_peer : bool;
  is_joined : bool
}.

Record StorageMount := mkStorageMount { sm_name : string }.

Record Container := mkContainer { ct_name : string }.

(** [Action.subject] is untyped in the source; the engine dispatches on
    its type: [None], a [Relation], a [StorageMount], or anything else. *)
Inductive Subject :=
| SNone
| SRel (r : ref)
| SSto (m : StorageMount)
| SOther (tag : nat).

Record Action := mkAction {
  subject : Subject;
  act_name : string;
  source : Source
}.

Inductive Phase := setup | operation | teardown.

Inductive Platform := k8s | lxd.

(** The two kinds of background event, [pebble_ready] and [update_status]:
    the keys of the chance and must-occur tables. *)
Inductive Kind := pebble_ready | update_status.

Definition kind_name (k : Kind) : string :=
  match k with
  | pebble_ready => "pebble-ready"
  | update_status => "update-status"
  end.

Definition kind_eqb (a b : Kind) : bool :=
  match a, b with
  | pebble_ready, pebble_ready | update_status, update_status => true
  | _, _ => false
  end.

(** A trace holds events and actions, in order. *)
Inductive Entry :=
| E (e : Event)
| A (a : Action).

(** Generic events that are not specific to a relation or a storage mount. *)
Definition start := mkEvent "start".
Definition stop := mkEvent "stop".
Definition install := mkEvent "install".
Definition remove := mkEvent "remove".
Definition config_changed := mkEvent "config-changed".
Definition leader_elected := mkEvent "leader-elected".
Definition leader_settings_changed := mkEvent "leader-settings-changed".

(** [random.choice(seq)] and [random.randrange(0, n)] on the tape.
    [None] is the exception either raises on an empty range. *)
Definition randrange0 (n : nat) (g : Rng) : option (nat * Rng) :=
  match n with
  | O => None
  | S _ => let (x, g') := next_outcome g in Some (N.to_nat (x mod N.of_nat n), g')
  end.

Definition choice {T : Type} (seq : list T) (g : Rng) : option (T * Rng) :=
  match randrange0 (List.length seq) g with
  | None => None
  | Some (i, g') =>
      match nth_error seq i with
      | Some x => Some (x, g')
      | None => None
      end
  end.

Module Event.
Definition eqb (a b : Event) : bool := (ev_name a =? ev_name b)%string.
End Event.

Module Source.
Definition all : list Source := [user; this_charm; other_charm].

Definition eqb (a b : Source) : bool :=
  match a, b with
  | user, user | this_charm, this_charm | other_charm, other_charm => true
  | _, _ => false
  end.

(** [Source.random()]: the list of an enumeration is never empty. *)
Definition random (g : Rng) : Source * Rng :=
  match choice all g with
  | Some r => r
  | None => (user, g)
  end.
End Source.

Module Action.
(** The fixed actions that the user might perform at any time. *)
Definition change_config := mkAction SNone "config-change" user.
Definition scale_up := mkAction SNone "scale+" user.
Definition scale_down := mkAction SNone "scale-" user.

(** The source of a leadership change is drawn on each access. *)
Definition leadership_change (g : Rng) : Action * Rng :=
  let (src, g') := Source.random g in
  (mkAction SNone "leadership_change" src, g').
End Action.

Module Relation.
Definition created (r : Relation) := mkEvent (rel_name r ++ "-relation-created").
Definition broken (r : Relation) := mkEvent (rel_name r ++ "-relation-broken").
Definition changed (r : Relation) := mkEvent (rel_name r ++ "-relation-changed").
Definition joined (r : Relation) := mkEvent (rel_name r ++ "-relation-joined").
Definition departed (r : Relation) := mkEvent (rel_name r ++ "-relation-departed").

(** The dataclass equality: all three fields. *)
Definition eqb (a b : Relation) : bool :=
  (rel_name a =? rel_name b)%string
  && Bool.eqb (is_peer a) (is_peer b)
  && Bool.eqb (is_joined a) (is_joined b).

(** The act of changing a relation databag: the source is drawn among
    [this_charm] and [other_charm] on each access. *)
Definition change (r : ref) (g : Rng) : Action * Rng :=
  match choice [this_charm; other_charm] g with
  | Some (src, g') => (mkAction (SRel r) "change" src, g')
  | None => (mkAction (SRel r) "change" this_charm, g)
  end.

Definition create (r : ref) := mkAction (SRel r) "create" user.
Definition destroy (r : ref) := mkAction (SRel r) "break" user.
Definition join (r : ref) := mkAction (SRel r) "join" user.
Definition depart (r : ref) := mkAction (SRel r) "depart" user.
End Relation.

Module StorageMount.
Definition detached (m : StorageMount) := mkEvent (sm_name m ++ "-storage-detached").
Definition attached (m : StorageMount) := mkEvent (sm_name m ++ "-storage-attached").
Definition attach (m : StorageMount) := mkAction (SSto m) "attach" user.
Definition detach (m : StorageMount) := mkAction (SSto m) "detach" user.
Definition eqb (a b : StorageMount) : bool := (sm_name a =? sm_name b)%string.
End StorageMount.

Module Container.
Definition pebble_ready (c : Container) := mkEvent (ct_name c ++ "-pebble-ready").
End Container.

(* ================================================================= *)
(** ** The simulator object *)

Record Scenario := mkScenario {
  tr_setup : list Entry;
  tr_operation : list Entry;
  tr_teardown : list Entry
}.

Definition empty_scenario := mkScenario [] [] [].

(** [scenario[phase]] *)
Definition trace (sc : Scenario) (ph : Phase) : list Entry :=
  match ph with
  | setup => tr_setup sc
  | operation => tr_operation sc
  | teardown => tr_teardown sc
  end.

Definition set_trace (ph : Phase) (l : list Entry) (sc : Scenario) : Scenario :=
  match ph with
  | setup => mkScenario l (tr_operation sc) (tr_teardown sc)
  | operation => mkScenario (tr_setup sc) l (tr_teardown sc)
  | teardown => mkScenario (tr_setup sc) (tr_operation sc) l
  end.

(** The attributes of a [CharmEventSimulator], the store [objects] of the
    relation objects they refer to, and one ghost field: [closed] records
    every call of [_close_phase], so that "the hook ran" can be read off
    the state.  No definition below reads [closed]. *)
Record Sim := mkSim {
  max_operation_length : Z;
  is_leader : bool;
  scale : Z;
  containers : list Container;
  relations : list ref;
  storage_mounts : list StorageMount;
  potential_relations : list ref;
  potential_storage_mounts : list StorageMount;
  platform : Platform;
  has_pebble : bool;
  possible_actions : list Action;
  phase : option Phase;
  scenario : Scenario;
  objects : list Relation;
  closed : list Phase
}.

Definition set_is_leader (v : bool) (s : Sim) : Sim :=
  mkSim (max_operation_length s) v (scale s) (containers s) (relations s)
    (storage_mounts s) (potential_relations s) (potential_storage_mounts s)
    (platform s) (has_pebble s) (possible_actions s) (phase s) (scenario s)
    (objects s) (closed s).

Definition set_scale (v : Z) (s : Sim) : Sim :=
  mkSim (max_operation_length s) (is_leader s) v (containers s) (relations s)
    (storage_mounts s) (potential_relations s) (potential_storage_mounts s)
    (platform s) (has_pebble s) (possible_actions s) (phase s) (scenario s)
    (objects s) (closed s).

Definition set_relations (v : list ref) (s : Sim) : Sim :=
  mkSim (max_operation_length s) (is_leader s) (scale s) (containers s) v
    (storage_mounts s) (potential_relations s) (potential_storage_mounts s)
    (platform s) (has_pebble s) (possible_actions s) (phase s) (scenario s)
    (objects s) (closed s).

Definition set_storage_mounts (v : list StorageMount) (s : Sim) : Sim :=
  mkSim (max_operation_length s) (is_leader s) (scale s) (containers s)
    (relations s) v (potential_relations s) (potential_storage_mounts s)
    (platform s) (has_pebble s) (possible_actions s) (phase s) (scenario s)
    (objects s) (closed s).

Definition set_possible_actions (v : list Action) (s : Sim) : Sim :=
  mkSim (max_operation_length s) (is_leader s) (scale s) (containers s)
    (relations s) (storage_mounts s) (potential_relations s)
    (potential_storage_mounts s) (platform s) (has_pebble s) v (phase s)
    (scenario s) (objects s) (closed s).

Definition set_phase (v : option Phase) (s : Sim) : Sim :=
  mkSim (max_operation_length s) (is_leader s) (scale s) (containers s)
    (relations s) (storage_mounts s) (potential_relations s)
    (potential_storage_mounts s) (platform s) (has_pebble s)
    (possible_actions s) v (scenario s) (objects s) (closed s).

Definition set_scenario (v : Scenario) (s : Sim) : Sim :=
  mkSim (max_operation_length s) (is_leader s) (scale s) (containers s)
    (relations s) (storage_mounts s) (potential_relations s)
    (potential_storage_mounts s) (platform s) (has_pebble s)
    (possible_actions s) (phase s) v (objects s) (closed s).

Definition set_objects (v : list Relation) (s : Sim) : Sim :=
  mkSim (max_operation_length s) (is_leader s) (scale s) (containers s)
    (relations s) (storage_mounts s) (potential_relations s)
    (potential_storage_mounts s) (platform s) (has_pebble s)
    (possible_actions s) (phase s) (scenario s) v (closed s).

Definition set_closed (v : list Phase) (s : Sim) : Sim :=
  mkSim (max_operation_length s) (is_leader s) (scale s) (containers s)
    (relations s) (storage_mounts s) (potential_relations s)
    (potential_storage_mounts s) (platform s) (has_pebble s)
    (possible_actions s) (phase s) (scenario s) (objects s) v.

(* ----------------------------------------------------------------- *)
(** *** The store of relation objects *)

Definition no_relation := mkRelation "" false false.

(** The fields of the object behind a reference. *)
Definition deref (h : list Relation) (r : ref) : Relation := nth r h no_relation.

(** [obj.is_joined = v] *)
Fixpoint assign_is_joined (h : list Relation) (r : ref) (v : bool) : list Relation :=
  match h, r with
  | [], _ => []
  | x :: h', O => mkRelation (rel_name x) (is_peer x) v :: h'
  | x :: h', S r' => x :: assign_is_joined h' r' v
  end.

(* ----------------------------------------------------------------- *)
(** *** Equality of objects, and membership

    Containers test [x is y or x == y].  [==] is the dataclass equality,
    field by field; for a relation it reads the store.  Hashes are taken
    from names, which are never assigned, so two equal objects always
    hash alike and a set finds an element exactly when it holds one that
    is equal. *)

Definition rel_same (h : list Relation) (a b : ref) : bool :=
  (a =? b)%nat || Relation.eqb (deref h a) (deref h b).

Definition subject_eqb (h : list Relation) (a b : Subject) : bool :=
  match a, b with
  | SNone, SNone => true
  | SRel x, SRel y => rel_same h x y
  | SSto x, SSto y => StorageMount.eqb x y
  | SOther x, SOther y => (x =? y)%nat
  | _, _ => false
  end.

Definition action_eqb (h : list Relation) (a b : Action) : bool :=
  subject_eqb h (subject a) (subject b)
  && (act_name a =? act_name b)%string
  && Source.eqb (source a) (source b).

(** An event and an action are never equal. *)
Definition entry_eqb (h : list Relation) (a b : Entry) : bool :=
  match a, b with
  | E x, E y => Event.eqb x y
  | A x, A y => action_eqb h x y
  | _, _ => false
  end.

(** [set.add] *)
Definition set_add (h : list Relation) (a : Action) (pool : list Action) : list Action :=
  if existsb (action_eqb h a) pool then pool else pool ++ [a].

(** [set(list)] *)
Definition set_of_list (h : list Relation) (l : list Action) : list Action :=
  fold_left (fun pool a => set_add h a pool) l [].

(** [set.remove]: [None] is the [KeyError] of an absent element. *)
Fixpoint set_remove (h : list Relation) (a : Action) (pool : list Action)
  : option (list Action) :=
  match pool with
  | [] => None
  | x :: pool' =>
      if action_eqb h a x then Some pool'
      else option_map (cons x) (set_remove h a pool')
  end.

(* ----------------------------------------------------------------- *)
(** *** Exceptions and the monad *)

(** An exception is its class and the literal text of its message.  Where
    the source formats the message with the repr of the subject, of the
    name or of a filter object, the model keeps the literal part only:
    the class, the state and the random source at the [raise] are those
    of the source, the message is its fixed text. *)
Inductive exn :=
| ValueError (msg : string)
| RuntimeError (msg : string)
| KeyError (msg : string)
| IndexError (msg : string).

Inductive Res (T : Type) :=
| Ok (x : T) (s : Sim) (g : Rng)
| Err (e : exn) (s : Sim) (g : Rng).

Arguments Ok {T} x s g.
Arguments Err {T} e s g.

Definition M (T : Type) := Sim -> Rng -> Res T.

Definition ret {T} (x : T) : M T := fun s g => Ok x s g.

Definition bind {T U} (m : M T) (k : T -> M U) : M U :=
  fun s g =>
    match m s g with
    | Ok x s' g' => k x s' g'
    | Err e s' g' => Err e s' g'
    end.

Definition raise {T} (e : exn) : M T := fun s g => Err e s g.

Definition get : M Sim := fun s g => Ok s s g.

Definition modify (f : Sim -> Sim) : M unit := fun s g => Ok tt (f s) g.

Declare Scope sim_scope.
Delimit Scope sim_scope with sim.
Notation "x <- m ;; k" := (bind m (fun x => k))
  (at level 61, m at next level, right associativity) : sim_scope.
Notation "m ;; k" := (bind m (fun _ => k))
  (at level 61, right associativity) : sim_scope.
Open Scope sim_scope.

(** [random.random()] *)
Definition random_random : M Q :=
  fun s g => let (x, g') := next_outcome g in Ok (unit_of_outcome x) s g'.

(** [random.randrange(0, n)] *)
Definition random_randrange (n : nat) : M nat :=
  fun s g =>
    match randrange0 n g with
    | Some (i, g') => Ok i s g'
    | None => Err (ValueError "empty range for randrange()") s g
    end.

(** [random.choice(seq)] *)
Definition random_choice {T} (seq : list T) : M T :=
  fun s g =>
    match choice seq g with
    | Some (x, g') => Ok x s g'
    | None => Err (IndexError "Cannot choose from an empty sequence") s g
    end.

(** [lst.insert(i, item)] for [0 <= i]. *)
Definition list_insert {T} (i : nat) (item : T) (lst : list T) : list T :=
  firstn i lst ++ item :: skipn i lst.

(** Insert item at random index in list.  The index is drawn below the
    length, so the item never becomes the last element. *)
Definition random_insert (lst : list Entry) (item : Entry) : M (list Entry) :=
  i <- random_randrange (List.length lst) ;;
  ret (list_insert i item lst).

(* ================================================================= *)
(** ** [CharmEventSimulator] *)

(** The arguments of the constructor.  [cfg_objects] is the store of the
    relation objects that [cfg_relations] and [cfg_potential_relations]
    refer to; the same object may be listed several times. *)
Record Config := mkConfig {
  cfg_is_leader : bool;
  cfg_objects : list Relation;
  cfg_relations : list ref;
  cfg_containers : list Container;
  cfg_storage_mounts : list StorageMount;
  cfg_potential_relations : list ref;
  cfg_potential_storage_mounts : list StorageMount;
  cfg_max_operation_length : Z;
  cfg_scale : Z;
  cfg_platform : Platform
}.

(** Does <event> need to occur at least once in <phase>? *)
Definition _event_must_occur (ph : Phase) (k : Kind) : bool :=
  match ph, k with
  | setup, pebble_ready => true
  | setup, update_status => false
  | operation, _ => false
  | teardown, _ => false
  end.

(** Chance that <event> will occur before/after any other event in
    <phase>.  The decimal literals are read as the rationals they denote;
    no outcome of [random()] lies between such a rational and the float
    next to it, so the comparison below decides as the floats do. *)
Definition _event_chances (ph : Phase) (k : Kind) : Q :=
  match ph, k with
  | setup, pebble_ready => 2 # 10
  | setup, update_status => 1 # 10
  | operation, pebble_ready => 5 # 100
  | operation, update_status => 1 # 10
  | teardown, pebble_ready => 1 # 100
  | teardown, update_status => 5 # 100
  end.

(** [[relation.change for relation in relations]]: one draw per relation. *)
Fixpoint relation_changes (rs : list ref) (g : Rng) : list Action * Rng :=
  match rs with
  | [] => ([], g)
  | r :: rs' =>
      let (a, g1) := Relation.change r g in
      let (l, g2) := relation_changes rs' g1 in
      (a :: l, g2)
  end.

Definition _peer_relations (s : Sim) : list ref :=
  filter (fun r => is_peer (deref (objects s) r)) (relations s).

Definition _non_peer_relations (s : Sim) : list ref :=
  filter (fun r => negb (is_peer (deref (objects s) r))) (relations s).

Definition __init__ (c : Config) (g : Rng) : exn + Sim * Rng :=
  if negb (cfg_scale c >=? 1)%Z then inl (ValueError "scale must be at least 1")
  else if existsb (fun r => is_peer (deref (cfg_objects c) r)) (cfg_potential_relations c)
  then inl (ValueError "peer relations cannot be potential")
  else
    let h := cfg_objects c in
    let (chg, g1) := relation_changes (cfg_relations c) g in
    let (lead, g2) := Action.leadership_change g1 in
    let possible_actions :=
      set_of_list h
        (map StorageMount.detach (cfg_storage_mounts c)
         ++ chg
         ++ map Relation.destroy
              (filter (fun r => negb (is_peer (deref h r))) (cfg_relations c))
         ++ [Action.change_config; Action.scale_up; lead]
         ++ map Relation.create (cfg_potential_relations c)
         ++ map StorageMount.attach (cfg_potential_storage_mounts c)) in
    let possible_actions :=
      if (cfg_scale c >? 1)%Z then set_add h Action.scale_down possible_actions
      else possible_actions in
    inr (mkSim (cfg_max_operation_length c) (cfg_is_leader c) (cfg_scale c)
           (cfg_containers c) (cfg_relations c) (cfg_storage_mounts c)
           (cfg_potential_relations c) (cfg_potential_storage_mounts c)
           (cfg_platform c)
           (match cfg_platform c with k8s => true | lxd => false end)
           possible_actions None empty_scenario h [],
         g2).

Definition clear : M unit := modify (set_scenario empty_scenario).

(** [x in tuple] for a relation and for a storage mount. *)
Definition rel_in (h : list Relation) (x : ref) (t : list ref) : bool :=
  existsb (fun r => rel_same h r x) t.

Definition storage_in (x : StorageMount) (t : list StorageMount) : bool :=
  existsb (fun m => StorageMount.eqb m x) t.

Definition add_relation (relation : ref) : M unit :=
  modify (fun s => set_relations (relations s ++ [relation]) s).

Definition remove_relation (relation : ref) : M unit :=
  modify (fun s =>
    set_relations
      (filter (fun r => negb (rel_in (objects s) r [relation])) (relations s)) s).

Definition attach_storage (storage : StorageMount) : M unit :=
  modify (fun s => set_storage_mounts (storage_mounts s ++ [storage]) s).

Definition detach_storage (storage : StorageMount) : M unit :=
  modify (fun s =>
    set_storage_mounts
      (filter (fun r => negb (storage_in r [storage])) (storage_mounts s)) s).

(** [self.scenario[self.phase].extend(l)]; outside a phase the lookup of
    [scenario[None]] raises. *)
Definition extend_scenario (ph : Phase) (l : list Entry) (s : Sim) : Sim :=
  set_scenario (set_trace ph (trace (scenario s) ph ++ l) (scenario s)) s.

(* ----------------------------------------------------------------- *)
(** *** [_queue] *)

(** The body of [if chance and random.random() < chance]: one occurrence
    of the kind goes into the local sequence. *)
Definition inject (random_event : Kind) (sequence : list Entry) : M (list Entry) :=
  s <- get ;;
  match random_event, has_pebble s, containers s with
  | pebble_ready, true, (_ :: _) as containers =>
      (* determine for which container we're pebble-readying *)
      container <- random_choice containers ;;
      random_insert sequence (E (Container.pebble_ready container))
  | _, _, _ =>
      random_insert sequence (E (mkEvent (kind_name random_event)))
  end.

(** [chance and random.random() < chance]: nothing is drawn for a chance
    of zero. *)
Definition roll (chance : Q) : M bool :=
  if Qeq_bool chance 0 then ret false
  else (u <- random_random ;; ret (Qltb u chance)).

Fixpoint queue_loop (ph : Phase) (allow disallow : list Kind)
    (sequence : list Entry) : M (list Entry) :=
  match allow with
  | [] => ret sequence
  | random_event :: allow' =>
      if existsb (kind_eqb random_event) disallow
      then queue_loop ph allow' disallow sequence
      else
        hit <- roll (_event_chances ph random_event) ;;
        sequence' <- (if hit then inject random_event sequence
                      else ret sequence) ;;
        queue_loop ph allow' disallow sequence'
  end.

Definition default_allow : list Kind := [pebble_ready; update_status].

Definition _queue (event : Event) (allow disallow : option (list Kind)) : M unit :=
  let allow := match allow with None => default_allow | Some a => a end in
  let disallow := match disallow with None => [] | Some d => d end in
  s <- get ;;
  match phase s with
  | None => raise (KeyError "None")
  | Some ph =>
      sequence <- queue_loop ph allow disallow [E event] ;;
      modify (extend_scenario ph sequence)
  end.

(* ----------------------------------------------------------------- *)
(** *** [_close_phase] and [_set_phase] *)

Definition insert_in_phase (ph : Phase) (item : Entry) : M unit :=
  s <- get ;;
  l <- random_insert (trace (scenario s) ph) item ;;
  modify (fun s => set_scenario (set_trace ph l (scenario s)) s).

(** [for container in self.containers: ...] *)
Fixpoint close_pebble_ready (ph : Phase) (cs : list Container) : M unit :=
  match cs with
  | [] => ret tt
  | container :: cs' =>
      s <- get ;;
      let c_pebble_ready := E (Container.pebble_ready container) in
      (if existsb (fun x => entry_eqb (objects s) x c_pebble_ready)
            (trace (scenario s) ph)
       then ret tt
       else insert_in_phase ph c_pebble_ready) ;;
      close_pebble_ready ph cs'
  end.

(** [update_status in scenario] compares a string with events and
    actions: it is false whatever the trace holds. *)
Definition kind_in_scenario (k : Kind) (l : list Entry) : bool :=
  existsb (fun _ => false) l.

Definition _close_phase (ph : Phase) : M unit :=
  modify (fun s => set_closed (closed s ++ [ph]) s) ;;
  s <- get ;;
  (* if pebble-ready has not occurred in phase, insert it manually somewhere. *)
  (if has_pebble s && _event_must_occur ph pebble_ready
   then close_pebble_ready ph (containers s)
   else ret tt) ;;
  (* same for update-status *)
  s <- get ;;
  if _event_must_occur ph update_status
  then (if kind_in_scenario update_status (trace (scenario s) ph) then ret tt
        else insert_in_phase ph (E (mkEvent (kind_name update_status))))
  else ret tt.

(** The context manager: what follows its [yield] runs when the body of
    the [with] block returns; an exception raised in the body is thrown
    into the generator at the [yield], which does not catch it. *)
Definition _set_phase (ph : Phase) (body : M unit) : M unit :=
  s <- get ;;
  let old_phase := phase s in
  modify (set_phase (Some ph)) ;;
  body ;;
  _close_phase ph ;;
  modify (set_phase old_phase).

(* ----------------------------------------------------------------- *)
(** *** The phase bodies *)

(** [for x in xs: self._queue(ev(x))] *)
Fixpoint queue_each {T} (ev : T -> Event) (xs : list T) : M unit :=
  match xs with
  | [] => ret tt
  | x :: xs' => _queue (ev x) None None ;; queue_each ev xs'
  end.

(** [if peer_relations := self._peer_relations:] tests a [filter]
    object, which is true whether or not it will yield anything. *)
Definition filter_truth {T} (l : list T) : bool := true.

Definition _run_setup : M unit :=
  (* any storage available at install is attached *)
  s <- get ;;
  queue_each StorageMount.attached (storage_mounts s) ;;
  _queue install None None ;;
  (* any peer relation available at install is created *)
  s <- get ;;
  let peer_relations := _peer_relations s in
  (if filter_truth peer_relations then
     queue_each (fun r => Relation.created (deref (objects s) r)) peer_relations ;;
     s <- get ;;
     if is_leader s then _queue leader_elected None None
     else _queue leader_settings_changed None None
   else ret tt) ;;
  _queue config_changed None None ;;
  _queue start None None.

Definition _run_teardown : M unit :=
  (* break all relations *)
  s <- get ;;
  queue_each (fun r => Relation.broken (deref (objects s) r)) (relations s) ;;
  (* detach all storage *)
  s <- get ;;
  queue_each StorageMount.detached (storage_mounts s) ;;
  _queue stop None None ;;
  _queue remove None None.

(* ----------------------------------------------------------------- *)
(** *** [_exec] *)

Definition no_injection : option (list Kind) := Some [].

(** The branches for a [Relation] subject; the result is [consume]. *)
Definition exec_relation (subject : ref) (name : string) (consume : bool) : M bool :=
  s <- get ;;
  let h := objects s in
  if (name =? "change")%string then
    (* this can happen multiple times *)
    _queue (Relation.changed (deref h subject)) None None ;;
    ret false
  else if (name =? "create")%string then
    _queue (Relation.created (deref h subject)) None None ;;
    add_relation subject ;;
    ret consume
  else if (name =? "joined")%string then
    if negb (rel_in h subject (relations s)) then
      raise (RuntimeError "attempting to join non-existing relation")
    else if is_joined (deref h subject) then
      raise (RuntimeError "attempting to re-join relation")
    else
      (* joined and IMMEDIATELY AFTER, changed. *)
      _queue (Relation.joined (deref h subject)) no_injection None ;;
      _queue (Relation.changed (deref h subject)) no_injection None ;;
      modify (fun s => set_objects (assign_is_joined (objects s) subject true) s) ;;
      ret consume
  else if (name =? "break")%string then
    remove_relation subject ;;
    _queue (Relation.broken (deref h subject)) None None ;;
    ret consume
  else if (name =? "depart")%string then
    if negb (rel_in h subject (relations s)) then
      raise (RuntimeError "attempting to depart non-existing relation")
    else if negb (is_joined (deref h subject)) then
      raise (RuntimeError "attempting to depart non-joined relation")
    else
      modify (fun s => set_objects (assign_is_joined (objects s) subject false) s) ;;
      ret consume
  else
    raise (ValueError "Relation-action not recognized").

(** The branches for a [StorageMount] subject. *)
Definition exec_storage (subject : StorageMount) (name : string) (consume : bool)
  : M bool :=
  s <- get ;;
  if (name =? "attach")%string then
    if storage_in subject (storage_mounts s) then
      raise (RuntimeError "attempting to re-attach storage")
    else
      attach_storage subject ;;
      _queue (StorageMount.attached subject) None None ;;
      ret consume
  else if (name =? "detach")%string then
    if negb (storage_in subject (storage_mounts s)) then
      raise (RuntimeError "attempting to detach unknown storage")
    else
      detach_storage subject ;;
      _queue (StorageMount.detached subject) None None ;;
      ret consume
  else
    raise (ValueError "StorageMount-action not recognized").

(** [scale+]: fire a relation-joined for all relations that are joined. *)
Fixpoint scale_up_loop (rs : list ref) : M unit :=
  match rs with
  | [] => ret tt
  | relation :: rs' =>
      s <- get ;;
      (if negb (is_joined (deref (objects s) relation)) then ret tt
       else
         modify (fun s => set_scale (scale s + 1)%Z s) ;;
         (* we can definitely scale down now *)
         modify (fun s =>
           set_possible_actions
             (set_add (objects s) Action.scale_down (possible_actions s)) s) ;;
         (* we don't recurse on _exec because it's messy *)
         _queue (Relation.joined (deref (objects s) relation)) no_injection None ;;
         _queue (Relation.changed (deref (objects s) relation)) no_injection None) ;;
      scale_up_loop rs'
  end.

(** [scale-]: the result is [consume]. *)
Fixpoint scale_down_loop (rs : list ref) (consume : bool) : M bool :=
  match rs with
  | [] => ret consume
  | relation :: rs' =>
      s <- get ;;
      if negb (is_joined (deref (objects s) relation))
      then scale_down_loop rs' consume
      else
        (* can't scale down any further *)
        let consume := if (scale s =? 1)%Z then true else consume in
        _queue (Relation.departed (deref (objects s) relation)) None None ;;
        scale_down_loop rs' consume
  end.

(** The generic actions: four independent [if] statements. *)
Definition exec_generic (name : string) : M bool :=
  let consume := false in
  (if (name =? "config-change")%string then _queue config_changed None None
   else ret tt) ;;
  (if (name =? "scale+")%string
   then (s <- get ;; scale_up_loop (relations s))
   else ret tt) ;;
  consume <- (if (name =? "scale-")%string
              then (s <- get ;; scale_down_loop (relations s) consume)
              else ret consume) ;;
  (if (name =? "leadership_change")%string then
     s <- get ;;
     if is_leader s then
       (* stop being leader: *)
       modify (set_is_leader false) ;;
       _queue leader_settings_changed None None
     else (* become one *)
       modify (set_is_leader true) ;;
       _queue leader_elected None None
   else ret tt) ;;
  ret consume.

(** [self.scenario[self.phase].append(action)] *)
Definition record_action (action : Action) : M unit :=
  s <- get ;;
  match phase s with
  | None => raise (KeyError "None")
  | Some ph => modify (extend_scenario ph [A action])
  end.

(** [self.possible_actions.remove(action)] *)
Definition consume_action (action : Action) : M unit :=
  s <- get ;;
  match set_remove (objects s) action (possible_actions s) with
  | Some pool => modify (set_possible_actions pool)
  | None => raise (KeyError "action")
  end.

Definition _exec (action : Action) (consume : bool) : M unit :=
  record_action action ;;
  let name := act_name action in
  consume <-
    match subject action with
    | SRel subject => exec_relation subject name consume
    | SSto subject => exec_storage subject name consume
    | SNone => exec_generic name
    | SOther _ => raise (ValueError "no action known for type")
    end ;;
  if consume then consume_action action else ret tt.

(* ----------------------------------------------------------------- *)
(** *** The operation phase and [run] *)

Section Run.

(** [tuple(possible_actions)] lists a set in the order of its hash
    table.  The hashes are those of strings, which the interpreter
    salts anew in every process: the order is an input of the model. *)
Variable tuple_of : list Action -> list Action.

Definition operation_step : M unit :=
  s <- get ;;
  let possible_actions := possible_actions s in
  action <- random_choice (tuple_of possible_actions) ;;
  _exec action true.

(** [rounds] turns of a loop body. *)
Fixpoint repeat_body (rounds : nat) (body : M unit) : M unit :=
  match rounds with
  | O => ret tt
  | S k => body ;; repeat_body k body
  end.

(** [while n <= max_operation_length: body; n += 1]: the turns that
    remain are known from [n]; [while_le_unfold] below is the loop as
    the source writes it. *)
Definition while_le (max_operation_length n : Z) (body : M unit) : M unit :=
  repeat_body (Z.to_nat (max_operation_length + 1 - n)) body.

Definition _run_operation : M unit :=
  s <- get ;;
  let n := 0%Z in
  let max_operation_length := max_operation_length s in
  while_le max_operation_length n operation_step.

Definition run : M unit :=
  _set_phase setup _run_setup ;;
  _set_phase operation _run_operation ;;
  _set_phase teardown _run_teardown.

(** Construction followed by [run()], from one state of the source. *)
Definition simulate (c : Config) (g : Rng) : exn + Res unit :=
  match __init__ c g with
  | inl e => inl e
  | inr (s, g') => inr (run s g')
  end.

End Run.

(** The entries of a phase that are actions. *)
Definition is_action (x : Entry) : bool :=
  match x with A _ => true | E _ => false end.

Definition count_actions (l : list Entry) : nat :=
  List.length (filter is_action l).

(** Names only, for reading a trace. *)
Definition entry_label (x : Entry) : string :=
  match x with
  | E e => ev_name e
  | A a => ("!" ++ act_name a)%string
  end.

(* ================================================================= *)
(** ** Examples: the scenario of the module's [__main__] *)

Definition main_config : Config :=
  mkConfig true
    [mkRelation "http" false false; mkRelation "replicas" true false;
     mkRelation "mongo" false false]
    [0; 1] [mkContainer "workload"] [mkStorageMount "storage1"]
    [2] [mkStorageMount "ephemeral1"] 10 1 k8s.

(** A source whose every [random()] is close to one: nothing is injected. *)
Definition quiet : N := 9007199254740991.

Definition labels (r : exn + Res unit) (ph : Phase) : list string :=
  match r with
  | inr (Ok _ s _) | inr (Err _ s _) => map entry_label (trace (scenario s) ph)
  | inl _ => []
  end.

(** Classifiers of trace entries by the suffix of the event name. *)
Definition event_ends_with (suffix : string) (x : Entry) : bool :=
  match x with
  | E e => ends_with suffix (ev_name e)
  | A _ => false
  end.

Definition is_joined_event := event_ends_with "-relation-joined".

(** The events that [_queue] and [_close_phase] add on their own. *)
Definition is_background (x : Entry) : bool :=
  match x with
  | E e => ends_with "pebble-ready" (ev_name e) || (ev_name e =? "update-status")%string
  | A _ => false
  end.

(** A trace without its background events. *)
Definition caused (l : list Entry) : list Entry :=
  filter (fun x => negb (is_background x)) l.

(** Every joined event is directly followed by the changed event of the
    same relation name. *)
Inductive joined_paired : list Entry -> Prop :=
| jp_nil : joined_paired []
| jp_other x l :
    is_joined_event x = false -> joined_paired l -> joined_paired (x :: l)
| jp_pair r l :
    joined_paired l ->
    joined_paired (E (Relation.joined r) :: E (Relation.changed r) :: l).

(** The state in which a computation stopped, with or without an error. *)
Definition outcome {T} (r : Res T) : Sim :=
  match r with
  | Ok _ s _ => s
  | Err _ s _ => s
  end.

Definition is_index_error (e : exn) : bool :=
  match e with
  | IndexError _ => true
  | _ => false
  end.

(** The three actions that the constructor puts into the pool for good. *)
Definition has_globals (pool : list Action) : Prop :=
  In Action.change_config pool /\
  In Action.scale_up pool /\
  exists src, In (mkAction SNone "leadership_change" src) pool.

(** The constructor's defaults. *)
Definition default_config : Config :=
  mkConfig true [] [] [mkContainer "workload"] [] [] [] 10 1 k8s.

(** The defaults with a negative [max_operation_length]. *)
Definition short_config : Config :=
  mkConfig true [] [] [mkContainer "workload"] [] [] [] (-2) 1 k8s.

(** A relation that is joined from the start, and one turn of operation
    in which [scale+] is drawn. *)
Definition joined_config : Config :=
  mkConfig true [mkRelation "db" false true] [0] [mkContainer "workload"]
    [] [] [] 0 1 k8s.

Definition joined_tape : Rng :=
  [0; 0]%N ++ repeat quiet 8 ++ [0; 3]%N ++ repeat quiet 6.

(** A storage mount that is both attached from the start and listed as
    potential, and a source that draws its [attach] first. *)
Definition clash_config : Config :=
  mkConfig true [] [] [mkContainer "workload"] [mkStorageMount "data"]
    [] [mkStorageMount "data"] 10 1 k8s.

Definition clash_tape : Rng := [0]%N ++ repeat quiet 10 ++ [0; 4]%N.

(** The pool listed as it was filled. *)
Definition in_order (pool : list Action) : list Action := pool.

(** The traces of a constructed and run simulator, if it was constructed. *)
Definition traces_of (r : exn + Res unit) : option Scenario :=
  match r with
  | inl _ => None
  | inr r => Some (scenario (outcome r))
  end.

(** A simulator in its setup phase, with the default container. *)
Definition setup_state : Sim :=
  mkSim 10 true 1 [mkContainer "workload"] [] [] [] [] k8s true
    [] (Some setup) empty_scenario [] [].

(** A simulator in its operation phase whose relation [http] is joined,
    with the depart action of that relation in the pool. *)
Definition departing_state : Sim :=
  mkSim 10 true 1 [mkContainer "workload"] [0] [] [] [] k8s true
    [Action.change_config; Relation.depart 0] (Some operation)
    empty_scenario [mkRelation "http" false true] [].

(* ================================================================= *)
(** ** Vocabulary of the statements *)

Definition all_background (l : list Entry) : Prop :=
  Forall (fun x => is_background x = true) l.

(** An occurrence of a kind: the event named after the kind or, for
    pebble-ready, the pebble-ready event of one of the containers. *)
Definition kind_occurrence (k : Kind) (s : Sim) (x : Entry) : Prop :=
  x = E (mkEvent (kind_name k))
  \/ (k = pebble_ready /\
      exists c, In c (containers s) /\ x = E (Container.pebble_ready c)).

(** [l'] is [l] with background events inserted. *)
Inductive padded (l : list Entry) : list Entry -> Prop :=
| padded_same : padded l l
| padded_insert l' i x :
    padded l l' -> is_background x = true -> padded l (list_insert i x l').

(** The events that teardown causes for the relations and the storage
    mounts of a state. *)
Definition broken_events (s : Sim) : list Entry :=
  map (fun r => E (Relation.broken (deref (objects s) r))) (relations s).

Definition detached_events (s : Sim) : list Entry :=
  map (fun m => E (StorageMount.detached m)) (storage_mounts s).

(** The events that setup causes for the peer relations of a state, and
    its leadership event. *)
Definition created_events (s : Sim) : list Entry :=
  map (fun r => E (Relation.created (deref (objects s) r))) (_peer_relations s).

Definition leadership_event (s : Sim) : Event :=
  if is_leader s then leader_elected else leader_settings_changed.

(** Inside the operation phase: events only, every joined event paired. *)
Definition good_op (l : list Entry) : Prop :=
  Forall (fun x => is_action x = false) l /\ joined_paired l.

(** Inside setup and teardown: events only, none of them a joined event. *)
Definition good_quiet (l : list Entry) : Prop :=
  Forall (fun x => is_action x = false /\ is_joined_event x = false) l.

Definition not_index_error (e : exn) : Prop := is_index_error e = false.

Definition never (e : exn) : Prop := False.

Definition any {T} (x : T) : Prop := True.

(** An action that [_exec] may take out of the pool. *)
Definition consumable (a : Action) : Prop :=
  subject a <> SNone \/ act_name a = "scale-".

(** Whatever runs inside phase [ph] leaves the phase, the log of closed
    phases and [max_operation_length] alone, only adds to the pool, and
    appends to the trace of [ph] a list that is [good]. *)
Record effect (ph : Phase) (good : list Entry -> Prop) (s s' : Sim) : Prop :=
  mkEffect {
    eff_phase : phase s' = phase s;
    eff_closed : closed s' = closed s;
    eff_mol : max_operation_length s' = max_operation_length s;
    eff_pool : incl (possible_actions s) (possible_actions s');
    eff_trace : exists L,
      good L /\
      scenario s' = set_trace ph (trace (scenario s) ph ++ L) (scenario s)
  }.

(** A computation that keeps to [effect]; [V] holds of its value and
    [W] of the exception it may raise. *)
Definition spec (ph : Phase) (good : list Entry -> Prop) (W : exn -> Prop)
    {T} (V : T -> Prop) (m : M T) : Prop :=
  forall s g, phase s = Some ph ->
    match m s g with
    | Ok x s' _ => effect ph good s s' /\ V x
    | Err e s' _ => effect ph good s s' /\ W e
    end.

(** What a phase body made of the state: the fields it leaves alone, and
    the list [L] it appended to the trace of the phase. *)
Record appended (ph : Phase) (L : list Entry) (s s' : Sim) : Prop := mkAppended {
  app_phase : phase s' = phase s;
  app_closed : closed s' = closed s;
  app_mol : max_operation_length s' = max_operation_length s;
  app_globals : has_globals (possible_actions s) -> has_globals (possible_actions s');
  app_trace : scenario s' = set_trace ph (trace (scenario s) ph ++ L) (scenario s)
}.

(** [_exec] records the action, then appends events only, with every
    joined event paired; it never removes a generic action other than
    [scale-] from the pool, and never raises an [IndexError]. *)
Definition exec_post (ph : Phase) (action : Action) (s : Sim) (r : Res unit) : Prop :=
  (exists L, good_op L /\ appended ph (A action :: L) s (outcome r))
  /\ match r with
     | Ok _ _ _ => True
     | Err e _ _ => not_index_error e
     end.

(** The pool as listed is never empty when the pool holds the generic
    actions; any listing that is a permutation of the pool is so. *)
Definition lists_globals (tuple_of : list Action -> list Action) : Prop :=
  forall pool, has_globals pool -> tuple_of pool <> [].

(** After [k] turns of the loop that all returned, [k] actions have been
    recorded; a turn that raises stops the loop. *)
Definition loop_post (tuple_of : list Action -> list Action)
    (ph : Phase) (k : nat) (s : Sim) (r : Res unit) : Prop :=
  exists L,
    joined_paired L /\ appended ph L s (outcome r) /\
    match r with
    | Ok _ _ _ => count_actions L = k
    | Err e _ _ =>
        lists_globals tuple_of -> has_globals (possible_actions s) ->
        not_index_error e
    end.

(** What a whole phase made of the state, when its body returned having
    appended [L]: the phase is restored and logged as closed. *)
Record phase_done (ph : Phase) (L : list Entry) (s s' : Sim) : Prop := mkPhaseDone {
  pd_phase : phase s' = phase s;
  pd_closed : closed s' = closed s ++ [ph];
  pd_mol : max_operation_length s' = max_operation_length s;
  pd_globals : has_globals (possible_actions s) -> has_globals (possible_actions s');
  pd_trace : exists l',
    padded (trace (scenario s) ph ++ L) l' /\
    (ph <> setup -> l' = trace (scenario s) ph ++ L) /\
    scenario s' = set_trace ph l' (scenario s)
}.

Definition operation_phase_post (tuple_of : list Action -> list Action)
    (s : Sim) (r : Res unit) : Prop :=
  match r with
  | Ok _ s2 _ =>
      exists L,
        joined_paired L
        /\ count_actions L = Z.to_nat (max_operation_length s + 1)
        /\ phase_done operation L s s2
  | Err e s2 _ =>
      (exists L, appended operation L (set_phase (Some operation) s) s2)
      /\ (lists_globals tuple_of -> has_globals (possible_actions s) ->
          not_index_error e)
  end.

(** The run up to the point where teardown is entered. *)
Definition until_teardown (tuple_of : list Action -> list Action) : M unit :=
  _set_phase setup _run_setup ;;
  _set_phase operation (_run_operation tuple_of).

(** Every way [run] can end: it returns after three closed phases, or
    it stops inside the operation phase, which is then not closed. *)
Definition run_post (tuple_of : list Action -> list Action)
    (s : Sim) (g : Rng) (r : Res unit) : Prop :=
  exists L1 s1,
    good_quiet L1 /\ phase_done setup L1 s s1 /\
    match r with
    | Ok _ s' _ =>
        exists L2 s2 g2 pre mid,
          until_teardown tuple_of s g = Ok tt s2 g2
          /\ joined_paired L2
          /\ count_actions L2 = Z.to_nat (max_operation_length s + 1)
          /\ phase_done operation L2 s1 s2
          /\ phase_done teardown (pre ++ E stop :: mid ++ [E remove]) s2 s'
          /\ caused pre = broken_events s2 ++ detached_events s2
          /\ all_background mid
    | Err e s' _ =>
        (exists L2, appended operation L2 (set_phase (Some operation) s1) s')
        /\ (lists_globals tuple_of -> has_globals (possible_actions s) ->
            not_index_error e)
    end.

(** A simulator as the constructor leaves it. *)
Record fresh (c : Config) (s : Sim) : Prop := mkFresh {
  fresh_scenario : scenario s = empty_scenario;
  fresh_phase : phase s = None;
  fresh_closed : closed s = [];
  fresh_mol : max_operation_length s = cfg_max_operation_length c;
  fresh_globals : has_globals (possible_actions s)
}.

(* ================================================================= *)
(** ** Vocabulary of the frame properties *)

(** A computation that leaves the simulator as it found it, whether it
    returns or raises. *)
Definition reads_only {T} (m : M T) : Prop :=
  forall s g, outcome (m s g) = s.

(** A computation whose last state, reached by returning or by raising,
    is related to the first. *)
Definition keeps (R : Sim -> Sim -> Prop) {T} (m : M T) : Prop :=
  forall s g, R s (outcome (m s g)).

(** The attributes that are fixed by the constructor. *)
Definition same_configuration (s s' : Sim) : Prop :=
  max_operation_length s' = max_operation_length s
  /\ containers s' = containers s
  /\ potential_relations s' = potential_relations s
  /\ potential_storage_mounts s' = potential_storage_mounts s
  /\ platform s' = platform s
  /\ has_pebble s' = has_pebble s.

(** The relation objects keep their number, their names and their
    [is_peer]. *)
Definition same_relation_identities (s s' : Sim) : Prop :=
  List.length (objects s') = List.length (objects s)
  /\ forall r, rel_name (deref (objects s') r) = rel_name (deref (objects s) r)
            /\ is_peer (deref (objects s') r) = is_peer (deref (objects s) r).

(** The pool gains nothing but [scale-]. *)
Definition pool_gains_scale_down_only (s s' : Sim) : Prop :=
  forall a, In a (possible_actions s') ->
            In a (possible_actions s) \/ a = Action.scale_down.

Definition scale_not_lower (s s' : Sim) : Prop := (scale s <= scale s')%Z.

(* ================================================================= *)
(** ** Vocabulary of the pool invariants *)

(** No two elements are equal: what a Python set guarantees. *)
Inductive distinct (h : list Relation) : list Action -> Prop :=
| distinct_nil : distinct h []
| distinct_cons a l :
    (forall y, In y l -> action_eqb h a y = false) ->
    distinct h l -> distinct h (a :: l).

(** The actions that the constructor and the engine put into the pool:
    those of the factories, and a detach action only for a storage mount
    that is attached. *)
Inductive legal (s : Sim) : Action -> Prop :=
| legal_detach m :
    storage_in m (storage_mounts s) = true -> legal s (StorageMount.detach m)
| legal_attach m : legal s (StorageMount.attach m)
| legal_change r src : legal s (mkAction (SRel r) "change" src)
| legal_destroy r : legal s (Relation.destroy r)
| legal_create r : legal s (Relation.create r)
| legal_generic name src : legal s (mkAction SNone name src).

(** The state of the pool between two turns of the operation phase. *)
Record pool_ok (s : Sim) : Prop := mkPoolOk {
  pool_legal : forall a, In a (possible_actions s) -> legal s a;
  pool_distinct : distinct (objects s) (possible_actions s);
  pool_globals : has_globals (possible_actions s)
}.

(** No attach action of the pool is for a storage mount that is attached. *)
Definition attach_ok (s : Sim) : Prop :=
  forall m, In (StorageMount.attach m) (possible_actions s) ->
            storage_in m (storage_mounts s) = false.

(** The one error a run can raise. *)
Definition reattach_error : exn := RuntimeError "attempting to re-attach storage".

(** What a phase other than operation may change: the traces, the phase
    and the log of closed phases. *)
Definition same_core (s s' : Sim) : Prop :=
  possible_actions s' = possible_actions s
  /\ storage_mounts s' = storage_mounts s
  /\ relations s' = relations s
  /\ objects s' = objects s
  /\ scale s' = scale s
  /\ is_leader s' = is_leader s.

(** What a generic action may change besides the traces: leadership,
    scale, and the pool by the addition of [scale-]. *)
Definition generic_step (s s' : Sim) : Prop :=
  storage_mounts s' = storage_mounts s
  /\ relations s' = relations s
  /\ objects s' = objects s
  /\ (possible_actions s' = possible_actions s
      \/ possible_actions s'
         = set_add (objects s) Action.scale_down (possible_actions s)).

(** No potential storage mount of the configuration is attached from the
    start. *)
Definition potential_storage_is_detached (c : Config) : Prop :=
  forall m, In m (cfg_potential_storage_mounts c) ->
            storage_in m (cfg_storage_mounts c) = false.

(** One turn on an action of the pool: it returns with the pool in order,
    or raises the re-attach error, which needs an attach action for an
    attached mount; relation objects are not assigned either way. *)
Definition step_post (ph : Phase) (s : Sim) (r : Res unit) : Prop :=
  match r with
  | Ok _ s' _ =>
      phase s' = Some ph /\ pool_ok s'
      /\ (attach_ok s -> attach_ok s') /\ objects s' = objects s
  | Err e s' _ =>
      e = reattach_error /\ ~ attach_ok s /\ objects s' = objects s
  end.

(** A run on a pool in order: it returns with the pool in order, or
    raises the re-attach error from the body of the operation phase;
    relation objects are not assigned either way. *)
Definition run_pool_post (s : Sim) (r : Res unit) : Prop :=
  match r with
  | Ok _ s' _ =>
      pool_ok s' /\ (attach_ok s -> attach_ok s') /\ objects s' = objects s
  | Err e s' _ =>
      e = reattach_error /\ phase s' = Some operation
      /\ ~ attach_ok s /\ objects s' = objects s
  end.

(** The events that setup causes for the storage mounts of a state. *)
Definition attached_events (s : Sim) : list Entry :=
  map (fun m => E (StorageMount.attached m)) (storage_mounts s).

(** The events that the setup body causes, in their order. *)
Definition setup_events (s : Sim) : list Entry :=
  attached_events s
  ++ E install :: created_events s
  ++ [E (leadership_event s); E config_changed; E start].

(** The relations of a list that are joined, and the pair of events that
    [scale+] queues for each of them. *)
Definition joined_relations (h : list Relation) (rs : list ref) : list ref :=
  filter (fun r => is_joined (deref h r)) rs.

Definition joined_pairs (h : list Relation) (rs : list ref) : list Entry :=
  flat_map (fun r => [E (Relation.joined (deref h r));
                      E (Relation.changed (deref h r))])
           (joined_relations h rs).

(** A simulator in its operation phase with a potential relation [db]
    that is not created yet. *)
Definition potential_state : Sim :=
  mkSim 10 true 1 [mkContainer "workload"] [] [] [0] [] k8s true
    [Action.change_config; Relation.create 0] (Some operation)
    empty_scenario [mkRelation "db" false false] [].

(** A computation that, when it raises, has changed nothing and drawn
    nothing. *)
Definition raises_early {T} (m : M T) (s : Sim) (g : Rng) : Prop :=
  match m s g with
  | Ok _ _ _ => True
  | Err _ s' g' => s' = s /\ g' = g
  end.

(** What [_queue] synthesizes for a kind that was drawn, and the random
    source after it: for pebble-ready on a platform with pebble and with
    containers, the pebble-ready event of the container that
    [random.choice] draws from [g]; otherwise the event named after the
    kind, with nothing drawn. *)
Definition occurrence_drawn (k : Kind) (s : Sim) (g : Rng)
    (x : Entry) (g0 : Rng) : Prop :=
  match k, has_pebble s, containers s with
  | pebble_ready, true, (_ :: _) as containers =>
      exists container,
        choice containers g = Some (container, g0)
        /\ x = E (Container.pebble_ready container)
  | _, _, _ => g0 = g /\ x = E (mkEvent (kind_name k))
  end.

(** A listing that differs from [in_order] on the empty pool only. *)
Definition in_order_inhabited (pool : list Action) : list Action :=
  match pool with
  | [] => [Action.change_config]
  | _ :: _ => pool
  end.

(* ================================================================= *)
(** ** Strings *)

Lemma ends_with_spec suffix s :
  ends_with suffix s = true <-> exists p, s = (p ++ suffix)%string.
Proof.
  induction s as [|c s IH]; cbn [ends_with].
  - rewrite orb_false_r. split.
    + intros H. apply String.eqb_eq in H. subst. now exists "".
    + intros [p H]. destruct p; simpl in H.
      * subst. apply String.eqb_refl.
      * discriminate.
  - rewrite orb_true_iff, IH. split.
    + intros [H | [p H]].
      * apply String.eqb_eq in H. exists "". now rewrite H.
      * exists (String c p). simpl. now rewrite H.
    + intros [p H]. destruct p as [|c' p]; simpl in H.
      * left. rewrite <- H. apply String.eqb_refl.
      * right. injection H as _ H. now exists p.
Qed.

(** Two suffixes neither of which ends with the other never close the
    same string. *)
Lemma suffix_clash s1 s2 :
  ends_with s1 s2 = false -> ends_with s2 s1 = false ->
  forall a b, (a ++ s1)%string <> (b ++ s2)%string.
Proof.
  intros H1 H2 a. induction a as [|c a IH]; intros b Heq; simpl in Heq.
  - assert (ends_with s2 s1 = true) by (apply ends_with_spec; eauto).
    congruence.
  - destruct b as [|c' b]; simpl in Heq.
    + assert (ends_with s1 s2 = true).
      { apply ends_with_spec. exists (String c a). now rewrite <- Heq. }
      congruence.
    + injection Heq as _ Heq. exact (IH _ Heq).
Qed.

Lemma ends_with_clash suffix tail :
  ends_with suffix tail = false -> ends_with tail suffix = false ->
  forall a, ends_with suffix (a ++ tail) = false.
Proof.
  intros H1 H2 a. destruct (ends_with suffix (a ++ tail)) eqn:Hc; auto.
  apply ends_with_spec in Hc. destruct Hc as [p Hp].
  exfalso. exact (suffix_clash _ _ H2 H1 a p Hp).
Qed.

Lemma ends_with_append suffix a : ends_with suffix (a ++ suffix) = true.
Proof. apply ends_with_spec. now exists a. Qed.

Lemma append_length a b :
  String.length (a ++ b) = String.length a + String.length b.
Proof. induction a; simpl; auto. Qed.

Lemma append_assoc a b c : ((a ++ b) ++ c)%string = (a ++ (b ++ c))%string.
Proof. induction a; simpl; congruence. Qed.

Lemma append_inj_l a b s : (a ++ s)%string = (b ++ s)%string -> a = b.
Proof.
  revert b. induction a as [|c a IH]; intros [|c' b] H; simpl in H; auto.
  - apply (f_equal String.length) in H. simpl in H.
    rewrite append_length in H. lia.
  - apply (f_equal String.length) in H. simpl in H.
    rewrite append_length in H. lia.
  - injection H as -> H. f_equal. auto.
Qed.

(** Closes a goal that says a name with one suffix does not end with
    another, or is not a name with another suffix. *)
Ltac suffix_solver :=
  match goal with
  | |- ends_with _ (_ ++ _) = false => apply ends_with_clash; reflexivity
  | |- ends_with _ _ = false => reflexivity
  | |- ends_with _ (_ ++ _) = true => apply ends_with_append
  end.

Lemma joined_name_inj r r' :
  Relation.joined r = Relation.joined r' -> Relation.changed r = Relation.changed r'.
Proof.
  unfold Relation.joined, Relation.changed. intros H.
  injection H as H. apply append_inj_l in H. now rewrite H.
Qed.

Lemma joined_is_joined r : is_joined_event (E (Relation.joined r)) = true.
Proof. apply ends_with_append. Qed.

Lemma changed_not_joined r : is_joined_event (E (Relation.changed r)) = false.
Proof. cbn. suffix_solver. Qed.

Lemma background_not_joined x : is_background x = true -> is_joined_event x = false.
Proof.
  destruct x as [e|a]; cbn; auto.
  rewrite orb_true_iff. intros [H | H].
  - apply ends_with_spec in H. destruct H as [p ->]. suffix_solver.
  - apply String.eqb_eq in H. now rewrite H.
Qed.

(* ================================================================= *)
(** ** Lists and traces *)

Lemma list_insert_length {T} i (x : T) l :
  List.length (list_insert i x l) = S (List.length l).
Proof.
  unfold list_insert. rewrite <- (firstn_skipn i l) at 3.
  rewrite !length_app. simpl. lia.
Qed.

(** An insertion below the length leaves the last element last. *)
Lemma list_insert_app_last {T} i (x y : T) l :
  i <= List.length l ->
  list_insert i x (l ++ [y]) = list_insert i x l ++ [y].
Proof.
  intros Hi. unfold list_insert.
  rewrite firstn_app, skipn_app.
  replace (i - List.length l) with 0 by lia. simpl.
  rewrite app_nil_r, <- app_assoc. reflexivity.
Qed.

Lemma Forall_list_insert {T} (P : T -> Prop) i x l :
  P x -> Forall P l -> Forall P (list_insert i x l).
Proof.
  intros Hx Hl. unfold list_insert.
  rewrite <- (firstn_skipn i l) in Hl. apply Forall_app in Hl.
  destruct Hl as [H1 H2]. apply Forall_app. split; auto.
Qed.

Lemma randrange0_lt n g i g' : randrange0 n g = Some (i, g') -> i < n.
Proof.
  unfold randrange0. destruct n; [discriminate|].
  destruct (next_outcome g) as [x g1]. intros H. injection H as <- _.
  assert (Hn : (x mod N.of_nat (S n) < N.of_nat (S n))%N)
    by (apply N.mod_lt; lia).
  lia.
Qed.

Lemma randrange0_succ n g : exists i g', randrange0 (S n) g = Some (i, g').
Proof. unfold randrange0. destruct (next_outcome g). eauto. Qed.

Lemma choice_in {T} (l : list T) g x g' : choice l g = Some (x, g') -> In x l.
Proof.
  unfold choice. destruct (randrange0 (List.length l) g) as [[i g1]|]; [|discriminate].
  destruct (nth_error l i) eqn:Hn; [|discriminate].
  intros H. injection H as <- _. eapply nth_error_In; eauto.
Qed.

Lemma choice_nonempty {T} (l : list T) g :
  l <> [] -> exists x g', choice l g = Some (x, g').
Proof.
  intros Hl. unfold choice. destruct l as [|y l]; [congruence|].
  destruct (randrange0_succ (List.length l) g) as (i & g' & Hr).
  simpl List.length. rewrite Hr.
  apply randrange0_lt in Hr.
  destruct (nth_error (y :: l) i) eqn:Hn; eauto.
  apply nth_error_None in Hn. simpl in Hn. lia.
Qed.

Lemma joined_paired_app l1 l2 :
  joined_paired l1 -> joined_paired l2 -> joined_paired (l1 ++ l2).
Proof.
  induction 1; intros; simpl; auto.
  - apply jp_other; auto.
  - apply jp_pair; auto.
Qed.

Lemma joined_paired_quiet l :
  Forall (fun x => is_joined_event x = false) l -> joined_paired l.
Proof. induction 1; [apply jp_nil | apply jp_other; auto]. Qed.

(** What [joined_paired] says, position by position. *)
Lemma joined_paired_nth l :
  joined_paired l ->
  forall i r, nth_error l i = Some (E (Relation.joined r)) ->
              nth_error l (S i) = Some (E (Relation.changed r)).
Proof.
  induction 1 as [|x l Hx Hl IH|r0 l Hl IH]; intros i r Hi.
  - destruct i; discriminate.
  - destruct i as [|i]; simpl in Hi.
    + injection Hi as ->. rewrite joined_is_joined in Hx. discriminate.
    + change (nth_error l (S i) = Some (E (Relation.changed r))). auto.
  - destruct i as [|[|i]]; simpl in Hi.
    + assert (Hj : Relation.joined r0 = Relation.joined r) by congruence.
      simpl. now rewrite (joined_name_inj Hj).
    + assert (Hj : Relation.changed r0 = Relation.joined r) by congruence.
      pose proof (changed_not_joined r0) as Hc. rewrite Hj in Hc.
      rewrite joined_is_joined in Hc. discriminate.
    + change (nth_error l (S i) = Some (E (Relation.changed r))). auto.
Qed.

Lemma count_actions_app l1 l2 :
  count_actions (l1 ++ l2) = count_actions l1 + count_actions l2.
Proof. unfold count_actions. now rewrite filter_app, length_app. Qed.

Lemma count_actions_events l :
  Forall (fun x => is_action x = false) l -> count_actions l = 0.
Proof.
  unfold count_actions. induction 1 as [|x l Hx _ IH]; simpl; auto.
  now rewrite Hx.
Qed.

Lemma background_not_action x : is_background x = true -> is_action x = false.
Proof. destruct x; simpl; auto. Qed.

Lemma trace_set_trace_same ph l sc : trace (set_trace ph l sc) ph = l.
Proof. destruct ph; reflexivity. Qed.

Lemma trace_set_trace_other ph ph' l sc :
  ph <> ph' -> trace (set_trace ph l sc) ph' = trace sc ph'.
Proof. destruct ph, ph'; simpl; congruence. Qed.

Lemma set_trace_set_trace ph l l' sc :
  set_trace ph l (set_trace ph l' sc) = set_trace ph l sc.
Proof. destruct ph; reflexivity. Qed.

Lemma set_trace_trace ph sc : set_trace ph (trace sc ph) sc = sc.
Proof. destruct ph, sc; reflexivity. Qed.

Lemma sim_eta s :
  mkSim (max_operation_length s) (is_leader s) (scale s) (containers s)
    (relations s) (storage_mounts s) (potential_relations s)
    (potential_storage_mounts s) (platform s) (has_pebble s)
    (possible_actions s) (phase s) (scenario s) (objects s) (closed s) = s.
Proof. destruct s; reflexivity. Qed.

Lemma extend_scenario_nil ph s : extend_scenario ph [] s = s.
Proof.
  unfold extend_scenario, set_scenario.
  rewrite app_nil_r, set_trace_trace. apply sim_eta.
Qed.

Lemma extend_scenario_app ph l1 l2 s :
  extend_scenario ph l2 (extend_scenario ph l1 s) = extend_scenario ph (l1 ++ l2) s.
Proof.
  unfold extend_scenario, set_scenario. simpl.
  now rewrite trace_set_trace_same, set_trace_set_trace, app_assoc.
Qed.

(* ================================================================= *)
(** ** The loop of the operation phase, as the source writes it *)

Lemma while_le_unfold max_operation_length n body :
  while_le max_operation_length n body =
  if (n <=? max_operation_length)%Z
  then (body ;; while_le max_operation_length (n + 1) body)
  else ret tt.
Proof.
  unfold while_le. destruct (n <=? max_operation_length)%Z eqn:Hn.
  - apply Z.leb_le in Hn.
    replace (Z.to_nat (max_operation_length + 1 - n))
      with (S (Z.to_nat (max_operation_length + 1 - (n + 1)))) by lia.
    reflexivity.
  - apply Z.leb_gt in Hn.
    replace (Z.to_nat (max_operation_length + 1 - n)) with 0 by lia.
    reflexivity.
Qed.

(* ================================================================= *)
(** ** [_queue]: what one call appends *)

Lemma pebble_ready_background c : is_background (E (Container.pebble_ready c)) = true.
Proof.
  cbn. apply orb_true_iff. left. apply ends_with_spec.
  exists (ct_name c ++ "-")%string.
  now rewrite append_assoc.
Qed.

Lemma kind_background k : is_background (E (mkEvent (kind_name k))) = true.
Proof. destruct k; reflexivity. Qed.

(** An injected event is a background event, and it goes in front of the
    last element of the local sequence, which is the caused event. *)
Lemma inject_last k bg x s g :
  all_background bg ->
  exists e i g',
    inject k (bg ++ [x]) s g = Ok (list_insert i e bg ++ [x]) s g'
    /\ is_background e = true /\ i <= List.length bg.
Proof.
  intros Hbg.
  assert (Hins : forall e g0, is_background e = true ->
            exists e' i g',
              random_insert (bg ++ [x]) e s g0 = Ok (list_insert i e' bg ++ [x]) s g'
              /\ is_background e' = true /\ i <= List.length bg).
  { intros e g0 He. unfold random_insert, bind, random_randrange, ret.
    rewrite length_app, Nat.add_1_r.
    destruct (randrange0_succ (List.length bg) g0) as (i & g' & Hr).
    rewrite Hr. apply randrange0_lt in Hr.
    exists e, i, g'. rewrite list_insert_app_last by lia.
    repeat split; auto. lia. }
  unfold inject, bind, get.
  destruct k; [destruct (has_pebble s); [destruct (containers s) as [|c cs] eqn:Hc|]|];
    try (apply Hins; apply kind_background).
  unfold random_choice.
  destruct (choice_nonempty (l := c :: cs) g) as (c' & g1 & Hch); [discriminate|].
  rewrite Hch. apply Hins, pebble_ready_background.
Qed.

Lemma queue_loop_last ph allow disallow : forall bg x s g,
  all_background bg ->
  exists bg' g',
    queue_loop ph allow disallow (bg ++ [x]) s g = Ok (bg' ++ [x]) s g'
    /\ all_background bg'.
Proof.
  induction allow as [|k allow IH]; intros bg x s g Hbg; simpl.
  - exists bg, g. split; auto.
  - destruct (existsb (kind_eqb k) disallow); [apply IH; auto|].
    unfold bind at 1. unfold roll.
    destruct (Qeq_bool (_event_chances ph k) 0).
    + unfold ret at 1. unfold bind at 1. unfold ret at 1. apply IH; auto.
    + unfold bind at 1. unfold random_random.
      destruct (next_outcome g) as [u g1]. unfold ret at 1.
      destruct (Qltb (unit_of_outcome u) (_event_chances ph k)).
      * unfold bind at 1.
        destruct (inject_last k x s g1 Hbg) as (e & i & g2 & Hi & He & _).
        rewrite Hi. apply IH. apply Forall_list_insert; auto.
      * unfold bind at 1. unfold ret at 1. apply IH; auto.
Qed.

(** A call of [_queue] inside a phase appends the caused event, behind the
    background events it drew; it cannot fail. *)
Lemma queue_exact ev allow disallow s g ph :
  phase s = Some ph ->
  exists bg g',
    _queue ev allow disallow s g = Ok tt (extend_scenario ph (bg ++ [E ev]) s) g'
    /\ all_background bg.
Proof.
  intros Hph. unfold _queue, bind, get. rewrite Hph.
  destruct (queue_loop_last ph
              (match allow with None => default_allow | Some a => a end)
              (match disallow with None => [] | Some d => d end)
              (E ev) s g (Forall_nil _)) as (bg & g' & Hq & Hbg).
  simpl app in Hq. rewrite Hq. exists bg, g'. split; auto.
Qed.

(** With injection disabled nothing is drawn and nothing is added. *)
Lemma queue_no_injection ev disallow s g ph :
  phase s = Some ph ->
  _queue ev no_injection disallow s g = Ok tt (extend_scenario ph [E ev] s) g.
Proof. intros Hph. unfold _queue, bind, get. rewrite Hph. reflexivity. Qed.

Lemma phase_extend_scenario ph l s : phase (extend_scenario ph l s) = phase s.
Proof. reflexivity. Qed.

(* ================================================================= *)
(** ** Effects of the engine inside a phase

    Whatever runs inside phase [ph] leaves the phase, the log of closed
    phases and [max_operation_length] alone, only adds to the pool, and
    appends to the trace of [ph] a list that is [good]. *)

Section Effects.

Variable ph : Phase.
Variable good : list Entry -> Prop.
Variable W : exn -> Prop.

Hypothesis good_nil : good [].
Hypothesis good_app : forall a b, good a -> good b -> good (a ++ b).
Hypothesis good_background : forall x, is_background x = true -> good [x].

Lemma effect_refl s : effect ph good s s.
Proof.
  split; auto using incl_refl.
  exists []. split; auto. now rewrite app_nil_r, set_trace_trace.
Qed.

Lemma effect_trans s1 s2 s3 : effect ph good s1 s2 -> effect ph good s2 s3 -> effect ph good s1 s3.
Proof.
  intros [p1 c1 m1 i1 (L1 & g1 & t1)] [p2 c2 m2 i2 (L2 & g2 & t2)].
  split; try congruence.
  - eapply incl_tran; eauto.
  - exists (L1 ++ L2). split; auto.
    rewrite t2, t1, trace_set_trace_same, set_trace_set_trace, app_assoc.
    reflexivity.
Qed.

Lemma effect_extend L s : good L -> effect ph good s (extend_scenario ph L s).
Proof.
  intros HL. split; auto using incl_refl. exists L. split; auto.
Qed.

Lemma good_all_background bg : all_background bg -> good bg.
Proof.
  induction 1 as [|x l Hx _ IH]; auto.
  change (good ([x] ++ l)). auto.
Qed.

Lemma spec_ret {T} (V : T -> Prop) x : V x -> spec ph good W V (ret x).
Proof. intros Hx s g _. simpl. auto using effect_refl. Qed.

Lemma spec_raise {T} (V : T -> Prop) e : W e -> spec ph good W V (raise e).
Proof. intros He s g _. simpl. auto using effect_refl. Qed.

Lemma spec_bind {T U} (V1 : T -> Prop) (V2 : U -> Prop) m k :
  spec ph good W V1 m -> (forall x, V1 x -> spec ph good W V2 (k x)) -> spec ph good W V2 (bind m k).
Proof.
  intros Hm Hk s g Hph. unfold bind. specialize (Hm s g Hph).
  destruct (m s g) as [x s1 g1|e s1 g1]; [|exact Hm].
  destruct Hm as [He Hx].
  assert (Hph1 : phase s1 = Some ph) by (rewrite (eff_phase He); auto).
  specialize (Hk x Hx s1 g1 Hph1).
  destruct (k x s1 g1); destruct Hk; split; eauto using effect_trans.
Qed.

Lemma spec_weaken {T} (V V' : T -> Prop) m :
  (forall x, V x -> V' x) -> spec ph good W V m -> spec ph good W V' m.
Proof.
  intros HV Hm s g Hph. specialize (Hm s g Hph).
  destruct (m s g); destruct Hm; auto.
Qed.

Lemma spec_get : spec ph good W any get.
Proof. intros s g _. simpl. split; [apply effect_refl | exact I]. Qed.

Lemma spec_modify f : (forall s, effect ph good s (f s)) -> spec ph good W any (modify f).
Proof. intros Hf s g _. simpl. split; [auto | exact I]. Qed.

Lemma spec_queue ev allow disallow :
  good [E ev] -> spec ph good W any (_queue ev allow disallow).
Proof.
  intros Hev s g Hph.
  destruct (@queue_exact ev allow disallow s g ph Hph) as (bg & g' & Hq & Hbg).
  rewrite Hq. split; [|exact I].
  apply effect_extend. apply good_app; auto using good_all_background.
Qed.

(** Two calls with injection disabled append their two events side by
    side. *)
Lemma spec_queue_pair {T} (V : T -> Prop) e1 e2 d1 d2 (k : M T) :
  good [E e1; E e2] -> spec ph good W V k ->
  spec ph good W V (_queue e1 no_injection d1 ;; _queue e2 no_injection d2 ;; k).
Proof.
  intros Hg Hk s g Hph. unfold bind.
  rewrite (@queue_no_injection e1 d1 s g ph Hph).
  rewrite (@queue_no_injection e2 d2 _ g ph) by auto.
  rewrite extend_scenario_app. simpl app.
  specialize (Hk (extend_scenario ph [E e1; E e2] s) g Hph).
  pose proof (effect_extend s Hg) as He.
  destruct (k _ g); destruct Hk; split; eauto using effect_trans.
Qed.

Lemma spec_queue_pair_last e1 e2 d1 d2 :
  good [E e1; E e2] ->
  spec ph good W any (_queue e1 no_injection d1 ;; _queue e2 no_injection d2).
Proof.
  intros Hg s g Hph. unfold bind.
  rewrite (@queue_no_injection e1 d1 s g ph Hph).
  rewrite (@queue_no_injection e2 d2 _ g ph) by auto.
  rewrite extend_scenario_app. simpl app.
  split; [now apply effect_extend | exact I].
Qed.

Lemma spec_queue_each {T} (ev : T -> Event) xs :
  (forall x, good [E (ev x)]) -> spec ph good W any (queue_each ev xs).
Proof.
  intros Hev. induction xs as [|x xs IH]; simpl.
  - now apply spec_ret.
  - eapply spec_bind; [apply spec_queue; auto | auto].
Qed.

(** *** The branches of [_exec] *)

Hypothesis good_event : forall e, is_joined_event (E e) = false -> good [E e].
Hypothesis good_pair :
  forall r, good [E (Relation.joined r); E (Relation.changed r)].
Hypothesis W_raise : forall e, is_index_error e = false -> W e.

Lemma effect_fields s s' :
  phase s' = phase s -> closed s' = closed s ->
  max_operation_length s' = max_operation_length s ->
  incl (possible_actions s) (possible_actions s') ->
  scenario s' = scenario s ->
  effect ph good s s'.
Proof.
  intros Hp Hc Hm Hi Hs. split; auto.
  exists []. split; auto. now rewrite Hs, app_nil_r, set_trace_trace.
Qed.

Lemma set_add_incl h a pool : incl pool (set_add h a pool).
Proof.
  unfold set_add. destruct (existsb (action_eqb h a) pool).
  - apply incl_refl.
  - apply incl_appl, incl_refl.
Qed.

(** One step of a proof of [spec], by the shape of the computation. *)
Ltac spec_leaf :=
  first
    [ apply spec_get
    | apply spec_modify; intros; apply effect_fields;
      simpl; auto using incl_refl, set_add_incl
    | apply spec_queue; apply good_event;
      first [reflexivity | cbn; suffix_solver] ].

Ltac spec_step :=
  match goal with
  | |- spec ph good W _ (ret _) => apply spec_ret; try exact I
  | |- spec ph good W _ (raise _) => apply spec_raise; apply W_raise; reflexivity
  | |- spec ph good W _ (_queue (Relation.joined _) no_injection _ ;; _) =>
      apply spec_queue_pair; [apply good_pair |]
  | |- spec ph good W _ (_queue (Relation.joined _) no_injection _ ;; _queue _ _ _) =>
      apply spec_queue_pair_last; apply good_pair
  | |- spec ph good W _ (bind _ _) =>
      eapply spec_bind with (V1 := any); [spec_leaf | intros ? _]
  | |- spec ph good W _ (if ?b then _ else _) => destruct b
  | |- spec ph good W any _ => spec_leaf
  end.

Lemma spec_exec_relation subject name consume :
  spec ph good W any (exec_relation subject name consume).
Proof. unfold exec_relation, add_relation, remove_relation. repeat spec_step. Qed.

Lemma spec_exec_storage subject name consume :
  spec ph good W any (exec_storage subject name consume).
Proof. unfold exec_storage, attach_storage, detach_storage. repeat spec_step. Qed.

Lemma spec_scale_up_loop rs : spec ph good W any (scale_up_loop rs).
Proof.
  induction rs as [|r rs IH]; simpl.
  - spec_step.
  - eapply spec_bind; [apply spec_get | intros s _].
    eapply spec_bind with (V1 := any); [|intros; apply IH].
    repeat spec_step.
Qed.

Lemma spec_scale_down_loop rs : forall consume, spec ph good W any (scale_down_loop rs consume).
Proof.
  induction rs as [|r rs IH]; intros consume; simpl.
  - spec_step.
  - eapply spec_bind; [apply spec_get | intros s _].
    destruct (negb (is_joined (deref (objects s) r))); [apply IH|].
    eapply spec_bind; [spec_leaf | intros; apply IH].
Qed.

(** The generic actions ask to be consumed only under the name [scale-]. *)
Lemma spec_exec_generic name :
  spec ph good W (fun consume => consume = true -> name = "scale-") (exec_generic name).
Proof.
  unfold exec_generic.
  eapply spec_bind with (V1 := any).
  { destruct (name =? "config-change")%string; repeat spec_step. }
  intros _ _. eapply spec_bind with (V1 := any).
  { destruct (name =? "scale+")%string; [|spec_step].
    eapply spec_bind; [apply spec_get | intros; apply spec_scale_up_loop]. }
  intros _ _.
  eapply spec_bind with (V1 := fun consume => consume = true -> name = "scale-").
  { destruct (String.eqb_spec name "scale-") as [Hn|Hn].
    - eapply spec_bind; [apply spec_get | intros s _].
      eapply spec_weaken; [|apply spec_scale_down_loop]. auto.
    - apply spec_ret. discriminate. }
  intros consume Hc. eapply spec_bind with (V1 := any).
  { destruct (name =? "leadership_change")%string; repeat spec_step. }
  intros _ _. now apply spec_ret.
Qed.

Lemma spec_exec_branches action consume :
  spec ph good W (fun consume' => consume' = true -> consumable action)
    (match subject action with
     | SRel subject => exec_relation subject (act_name action) consume
     | SSto subject => exec_storage subject (act_name action) consume
     | SNone => exec_generic (act_name action)
     | SOther _ => raise (ValueError "no action known for type")
     end).
Proof.
  unfold consumable. destruct (subject action) eqn:Hs.
  - eapply spec_weaken; [|apply spec_exec_generic]. auto.
  - eapply spec_weaken; [|apply spec_exec_relation]. left. discriminate.
  - eapply spec_weaken; [|apply spec_exec_storage]. left. discriminate.
  - spec_step.
Qed.

End Effects.

(* ================================================================= *)
(** ** What the engine's events look like *)

Lemma good_op_nil : good_op [].
Proof. split; constructor. Qed.

Lemma good_op_app a b : good_op a -> good_op b -> good_op (a ++ b).
Proof.
  intros [Ha Ja] [Hb Jb]. split.
  - apply Forall_app; auto.
  - apply joined_paired_app; auto.
Qed.

Lemma good_op_event e : is_joined_event (E e) = false -> good_op [E e].
Proof. intros He. split; [repeat constructor | apply jp_other; auto; apply jp_nil]. Qed.

Lemma good_op_background x : is_background x = true -> good_op [x].
Proof.
  intros Hx. split.
  - repeat constructor. now apply background_not_action.
  - apply jp_other; [now apply background_not_joined | apply jp_nil].
Qed.

Lemma good_op_pair r : good_op [E (Relation.joined r); E (Relation.changed r)].
Proof. split; [repeat constructor | apply jp_pair, jp_nil]. Qed.

Lemma good_quiet_nil : good_quiet [].
Proof. constructor. Qed.

Lemma good_quiet_app a b : good_quiet a -> good_quiet b -> good_quiet (a ++ b).
Proof. intros Ha Hb. apply Forall_app; auto. Qed.

Lemma good_quiet_event e : is_joined_event (E e) = false -> good_quiet [E e].
Proof. intros He. repeat constructor; auto. Qed.

Lemma good_quiet_background x : is_background x = true -> good_quiet [x].
Proof.
  intros Hx. repeat constructor.
  - now apply background_not_action.
  - now apply background_not_joined.
Qed.

Lemma good_quiet_paired l : good_quiet l -> joined_paired l.
Proof.
  intros H. apply joined_paired_quiet.
  eapply Forall_impl; [|exact H]. simpl. tauto.
Qed.

(* ================================================================= *)
(** ** The pool *)

Lemma set_remove_keeps h a : forall pool pool' y,
  set_remove h a pool = Some pool' ->
  In y pool -> action_eqb h a y = false -> In y pool'.
Proof.
  induction pool as [|x pool IH]; intros pool' y Hr Hy Hne; simpl in *.
  - contradiction.
  - destruct (action_eqb h a x) eqn:Hax.
    + injection Hr as <-. destruct Hy as [->|Hy]; auto. congruence.
    + destruct (set_remove h a pool) as [p|] eqn:Hp; [|discriminate].
      injection Hr as <-. destruct Hy as [->|Hy]; [left; auto|right; eauto].
Qed.

(** A consumable action is equal to none of the generic actions other
    than [scale-]. *)
Lemma consumable_not_global h a y :
  consumable a -> subject y = SNone -> act_name y <> "scale-" ->
  action_eqb h a y = false.
Proof.
  intros [Hs | Hn] Hy Hny; unfold action_eqb; rewrite Hy.
  - destruct (subject a); try congruence; reflexivity.
  - rewrite Hn. destruct (String.eqb_spec "scale-" (act_name y)) as [Heq|_].
    + congruence.
    + now rewrite andb_false_r.
Qed.

Lemma has_globals_incl pool pool' :
  incl pool pool' -> has_globals pool -> has_globals pool'.
Proof. intros Hi (H1 & H2 & src & H3). repeat split; eauto. Qed.

Lemma has_globals_remove h a pool pool' :
  consumable a -> set_remove h a pool = Some pool' ->
  has_globals pool -> has_globals pool'.
Proof.
  intros Hc Hr (H1 & H2 & src & H3).
  repeat split; [| |exists src];
    (eapply set_remove_keeps; [exact Hr | assumption |
       apply consumable_not_global; [assumption | reflexivity | discriminate]]).
Qed.

(* ================================================================= *)
(** ** One executed action *)

Lemma appended_refl ph s : appended ph [] s s.
Proof. split; auto. now rewrite app_nil_r, set_trace_trace. Qed.

Lemma appended_trans ph L1 L2 s1 s2 s3 :
  appended ph L1 s1 s2 -> appended ph L2 s2 s3 -> appended ph (L1 ++ L2) s1 s3.
Proof.
  intros [p1 c1 m1 i1 t1] [p2 c2 m2 i2 t2]. split; try congruence; auto.
  rewrite t2, t1, trace_set_trace_same, set_trace_set_trace, app_assoc.
  reflexivity.
Qed.

Lemma effect_appended ph good s s' :
  effect ph good s s' -> exists L, good L /\ appended ph L s s'.
Proof.
  intros [p c m i (L & HL & t)]. exists L. split; auto.
  split; auto. now apply has_globals_incl.
Qed.

(** [_exec] records the action, then appends events only, with every
    joined event paired; it never removes a generic action other than
    [scale-] from the pool, and never raises an [IndexError]. *)
Lemma exec_outcome action consume s g ph :
  phase s = Some ph -> exec_post ph action s (_exec action consume s g).
Proof.
  intros Hph. unfold _exec. unfold bind at 1. unfold record_action at 1.
  unfold bind at 1, get at 1. rewrite Hph. unfold modify at 1.
  set (s0 := extend_scenario ph [A action] s).
  assert (H0 : appended ph [A action] s s0) by (split; auto).
  assert (Hph0 : phase s0 = Some ph) by exact Hph.
  pose proof (@spec_exec_branches ph good_op not_index_error
                good_op_nil good_op_app good_op_background good_op_event
                good_op_pair (fun e H => H) action consume s0 g Hph0) as Hb.
  unfold bind.
  match type of Hb with
  | match ?m with Ok _ _ _ => _ | Err _ _ _ => _ end =>
      destruct m as [c s1 g1|e s1 g1]
  end.
  - destruct Hb as [Heff Hc].
    apply effect_appended in Heff. destruct Heff as (L & HL & Ha).
    pose proof (appended_trans H0 Ha) as H1. simpl app in H1.
    destruct c.
    + unfold consume_action, bind, get.
      destruct (set_remove (objects s1) action (possible_actions s1)) as [pool|] eqn:Hr.
      * simpl. split; [|exact I].
        exists L. split; auto.
        destruct H1 as [p c m i t]. split; auto.
        intros Hg. simpl. eapply has_globals_remove; eauto.
      * simpl. split; [eauto | reflexivity].
    + simpl. split; [eauto | exact I].
  - destruct Hb as [Heff He].
    apply effect_appended in Heff. destruct Heff as (L & HL & Ha).
    pose proof (appended_trans H0 Ha) as H1. simpl app in H1.
    simpl. split; [eauto | exact He].
Qed.

Lemma good_op_action a L :
  good_op L -> joined_paired (A a :: L) /\ count_actions (A a :: L) = 1.
Proof.
  intros [Hev Hjp]. split.
  - apply jp_other; auto.
  - change (A a :: L) with ([A a] ++ L).
    rewrite count_actions_app, (count_actions_events Hev). reflexivity.
Qed.

(* ================================================================= *)
(** ** The operation phase *)

Section Operation.

Variable tuple_of : list Action -> list Action.

Lemma operation_step_outcome s g ph :
  phase s = Some ph -> loop_post tuple_of ph 1 s (operation_step tuple_of s g).
Proof.
  intros Hph. unfold operation_step, bind, get, random_choice.
  destruct (choice (tuple_of (possible_actions s)) g) as [[a g1]|] eqn:Hch.
  - destruct (@exec_outcome a true s g1 ph Hph) as [(L & HL & Ha) He].
    destruct (good_op_action a HL) as [Hjp Hcount].
    exists (A a :: L). split; [|split]; auto.
    destruct (_exec a true s g1); auto.
  - exists []. split; [|split]; auto using jp_nil, appended_refl.
    simpl. intros Hl Hg.
    destruct (@choice_nonempty _ (tuple_of (possible_actions s)) g (Hl _ Hg))
      as (x & g' & Hx).
    congruence.
Qed.

Lemma repeat_body_outcome ph : forall k s g,
  phase s = Some ph ->
  loop_post tuple_of ph k s (repeat_body k (operation_step tuple_of) s g).
Proof.
  induction k as [|k IH]; intros s g Hph; simpl.
  - exists []. split; [|split]; auto using jp_nil, appended_refl.
    reflexivity.
  - unfold bind.
    destruct (@operation_step_outcome s g ph Hph) as (L1 & J1 & A1 & C1).
    destruct (operation_step tuple_of s g) as [[] s1 g1|e s1 g1]; simpl in A1.
    + assert (Hph1 : phase s1 = Some ph) by (rewrite (app_phase A1); auto).
      destruct (IH s1 g1 Hph1) as (L2 & J2 & A2 & C2).
      exists (L1 ++ L2). split; [now apply joined_paired_app|].
      split; [eapply appended_trans; eauto|].
      destruct (repeat_body k (operation_step tuple_of) s1 g1).
      * rewrite count_actions_app. lia.
      * intros Hl Hg. apply C2; auto. apply (app_globals A1 Hg).
    + exists L1. split; [|split]; auto.
Qed.

(** The body of the operation phase. *)
Lemma run_operation_outcome s g :
  phase s = Some operation ->
  loop_post tuple_of operation (Z.to_nat (max_operation_length s + 1)) s
    (_run_operation tuple_of s g).
Proof.
  intros Hph. unfold _run_operation, bind, get, while_le.
  rewrite Z.sub_0_r. now apply repeat_body_outcome.
Qed.

End Operation.

(* ================================================================= *)
(** ** Closing a phase *)

Lemma padded_Forall (P : Entry -> Prop) l l' :
  (forall x, is_background x = true -> P x) ->
  padded l l' -> Forall P l -> Forall P l'.
Proof.
  intros HP Hp Hl. induction Hp; auto using Forall_list_insert.
Qed.

Lemma padded_nonempty l l' : padded l l' -> l <> [] -> l' <> [].
Proof.
  induction 1 as [|l' i x _ _ Hx]; intros Hl; auto.
  intros Hn. apply (f_equal (@List.length Entry)) in Hn.
  rewrite list_insert_length in Hn. discriminate.
Qed.

Lemma padded_trans l1 l2 l3 : padded l1 l2 -> padded l2 l3 -> padded l1 l3.
Proof. intros H12 H23. induction H23; auto using padded_insert. Qed.

Lemma set_scenario_same s : set_scenario (scenario s) s = s.
Proof. destruct s; reflexivity. Qed.

Lemma close_pebble_ready_outcome ph : forall cs s g,
  trace (scenario s) ph <> [] ->
  exists l' g',
    close_pebble_ready ph cs s g
    = Ok tt (set_scenario (set_trace ph l' (scenario s)) s) g'
    /\ padded (trace (scenario s) ph) l'.
Proof.
  induction cs as [|c cs IH]; intros s g Hne; simpl.
  - exists (trace (scenario s) ph), g.
    rewrite set_trace_trace, set_scenario_same.
    split; [reflexivity | apply padded_same].
  - unfold bind at 1, get at 1. unfold bind at 1.
    destruct (existsb _ (trace (scenario s) ph)).
    + unfold ret at 1. apply IH; auto.
    + unfold insert_in_phase, bind at 1, get at 1, bind at 1.
      unfold random_insert, bind at 1, random_randrange.
      destruct (trace (scenario s) ph) as [|x l] eqn:Ht; [congruence|].
      destruct (randrange0_succ (List.length l) g) as (i & g1 & Hr).
      simpl List.length. rewrite Hr. unfold ret at 1, modify at 1.
      set (l1 := list_insert i (E (Container.pebble_ready c)) (x :: l)).
      set (s1 := set_scenario (set_trace ph l1 (scenario s)) s).
      assert (Hp1 : padded (x :: l) l1).
      { apply padded_insert; [apply padded_same | apply pebble_ready_background]. }
      assert (Ht1 : trace (scenario s1) ph = l1) by apply trace_set_trace_same.
      assert (Hne1 : trace (scenario s1) ph <> []).
      { rewrite Ht1. eapply padded_nonempty; eauto. }
      destruct (IH s1 g1 Hne1) as (l' & g' & Hc & Hp).
      rewrite Hc. exists l', g'. split.
      * unfold s1. simpl. now rewrite set_trace_set_trace.
      * rewrite Ht1 in Hp. eapply padded_trans; eauto.
Qed.

(** The hook always logs the phase; it changes the trace in setup only,
    by inserting background events; it fails only on an empty setup
    trace. *)
Lemma close_phase_outcome ph s g :
  (ph = setup -> trace (scenario s) ph <> []) ->
  exists l' g',
    _close_phase ph s g
    = Ok tt (set_scenario (set_trace ph l' (scenario s))
               (set_closed (closed s ++ [ph]) s)) g'
    /\ padded (trace (scenario s) ph) l'
    /\ (ph <> setup -> l' = trace (scenario s) ph).
Proof.
  intros Hne. unfold _close_phase.
  unfold bind at 1, modify at 1, bind at 1, get at 1.
  remember (set_closed (closed s ++ [ph]) s) as s0 eqn:Hs0.
  assert (Hsc : scenario s0 = scenario s) by (subst s0; reflexivity).
  rewrite <- Hsc in *.
  assert (Hsame : exists l' g',
    Ok tt s0 g = Ok tt (set_scenario (set_trace ph l' (scenario s0)) s0) g'
    /\ padded (trace (scenario s0) ph) l'
    /\ (ph <> setup -> l' = trace (scenario s0) ph)).
  { exists (trace (scenario s0) ph), g.
    rewrite set_trace_trace, set_scenario_same.
    repeat split; auto using padded_same. }
  destruct ph; cbn [_event_must_occur]; rewrite ?andb_false_r, ?andb_true_r;
    try exact Hsame.
  destruct (has_pebble s0) eqn:Hp; [|exact Hsame].
  unfold bind at 1.
  destruct (@close_pebble_ready_outcome setup (containers s0) s0 g (Hne eq_refl))
    as (l' & g' & Hc & Hpad).
  rewrite Hc. exists l', g'. repeat split; auto. congruence.
Qed.

Lemma set_phase_unfold ph body s g :
  _set_phase ph body s g =
  match body (set_phase (Some ph) s) g with
  | Ok _ s1 g1 =>
      match _close_phase ph s1 g1 with
      | Ok _ s2 g2 => Ok tt (set_phase (phase s) s2) g2
      | Err e s2 g2 => Err e s2 g2
      end
  | Err e s1 g1 => Err e s1 g1
  end.
Proof.
  unfold _set_phase, bind, get, modify. reflexivity.
Qed.

(** A phase whose body returns is closed by the hook. *)
Lemma set_phase_returns ph body s g s1 g1 L :
  body (set_phase (Some ph) s) g = Ok tt s1 g1 ->
  appended ph L (set_phase (Some ph) s) s1 ->
  (ph = setup -> L <> []) ->
  exists s' g', _set_phase ph body s g = Ok tt s' g' /\ phase_done ph L s s'.
Proof.
  intros Hb [p c m i t] HL. rewrite set_phase_unfold, Hb.
  simpl in p, c, m, i, t.
  assert (Hne : ph = setup -> trace (scenario s1) ph <> []).
  { intros ->. rewrite t, trace_set_trace_same.
    intros Hn. apply app_eq_nil in Hn. destruct Hn as [_ Hn]. now apply HL. }
  destruct (@close_phase_outcome ph s1 g1 Hne) as (l' & g' & Hc & Hpad & Heq).
  rewrite Hc. do 2 eexists. split; [reflexivity|].
  rewrite t, trace_set_trace_same in Hpad, Heq.
  split; simpl; auto.
  - now rewrite c.
  - exists l'. repeat split; auto.
    now rewrite t, set_trace_set_trace.
Qed.

(** A phase whose body raises is left as it is: the hook does not run,
    the phase stays current. *)
Lemma set_phase_raises ph body s g e s1 g1 :
  body (set_phase (Some ph) s) g = Err e s1 g1 ->
  _set_phase ph body s g = Err e s1 g1.
Proof. intros Hb. now rewrite set_phase_unfold, Hb. Qed.

(* ================================================================= *)
(** ** The bodies of setup and teardown *)

Lemma bind_ok {T U} (m : M T) (k : T -> M U) s g x s' g' :
  m s g = Ok x s' g' -> bind m k s g = k x s' g'.
Proof. intros H. unfold bind. now rewrite H. Qed.

Lemma bind_get {U} (k : Sim -> M U) s g : bind get k s g = k s s g.
Proof. reflexivity. Qed.

Section Quiet.

Variable ph : Phase.

Lemma quiet_queue ev allow disallow :
  is_joined_event (E ev) = false ->
  spec ph good_quiet never any (_queue ev allow disallow).
Proof.
  intros H. apply spec_queue;
    auto using good_quiet_nil, good_quiet_app, good_quiet_background,
               good_quiet_event.
Qed.

Lemma quiet_queue_each {T} (ev : T -> Event) xs :
  (forall x, is_joined_event (E (ev x)) = false) ->
  spec ph good_quiet never any (queue_each ev xs).
Proof.
  intros H. apply spec_queue_each;
    auto using good_quiet_nil, good_quiet_app, good_quiet_background,
               good_quiet_event.
Qed.

Lemma quiet_bind {T U} (V : U -> Prop) (m : M T) (k : T -> M U) :
  spec ph good_quiet never any m ->
  (forall x, spec ph good_quiet never V (k x)) ->
  spec ph good_quiet never V (bind m k).
Proof.
  intros Hm Hk. eapply spec_bind; eauto using good_quiet_app.
Qed.

(** A computation that may raise nothing returns. *)
Lemma quiet_total {T} (V : T -> Prop) (m : M T) s g :
  spec ph good_quiet never V m -> phase s = Some ph ->
  exists x s' g' L,
    m s g = Ok x s' g' /\ good_quiet L /\ appended ph L s s'.
Proof.
  intros Hm Hph. specialize (Hm s g Hph).
  destruct (m s g) as [x s' g'|e s' g'].
  - destruct Hm as [He _]. apply effect_appended in He.
    destruct He as (L & HL & Ha). exists x, s', g', L. auto.
  - destruct Hm as [_ []].
Qed.

End Quiet.

Ltac quiet_side := first [reflexivity | cbn; suffix_solver].

(** The setup body returns, having queued at least [install]. *)
Lemma run_setup_outcome s g ph :
  phase s = Some ph ->
  exists L s' g',
    _run_setup s g = Ok tt s' g' /\ good_quiet L /\ L <> [] /\ appended ph L s s'.
Proof.
  intros Hph. unfold _run_setup. rewrite bind_get.
  destruct (@quiet_total ph unit any
              (queue_each StorageMount.attached (storage_mounts s)) s g)
    as ([] & s1 & g1 & L1 & H1 & G1 & A1); auto.
  { apply quiet_queue_each. intros x. quiet_side. }
  rewrite (bind_ok _ _ _ _ H1).
  assert (Hph1 : phase s1 = Some ph) by (rewrite (app_phase A1); auto).
  destruct (@queue_exact install None None s1 g1 ph Hph1) as (bg & g2 & H2 & B2).
  rewrite (bind_ok _ _ _ _ H2).
  set (s2 := extend_scenario ph (bg ++ [E install]) s1) in *.
  assert (A2 : appended ph (bg ++ [E install]) s1 s2) by (split; auto).
  match goal with
  | |- exists L s' g', ?m s2 g2 = _ /\ _ =>
      destruct (@quiet_total ph unit any m s2 g2)
        as ([] & s3 & g3 & L3 & H3 & G3 & A3); auto
  end.
  { apply quiet_bind; [apply spec_get, good_quiet_nil | intros s0].
    apply quiet_bind.
    - unfold filter_truth.
      apply quiet_bind; [apply quiet_queue_each; intros; quiet_side | intros _].
      apply quiet_bind; [apply spec_get, good_quiet_nil | intros s4].
      destruct (is_leader s4); apply quiet_queue; quiet_side.
    - intros _. apply quiet_bind; [|intros _]; apply quiet_queue; quiet_side. }
  exists (L1 ++ (bg ++ [E install]) ++ L3), s3, g3.
  split; [exact H3|]. split; [|split].
  - apply good_quiet_app; [exact G1|]. apply good_quiet_app; [|exact G3].
    apply good_quiet_app; [|apply good_quiet_event; quiet_side].
    apply good_all_background;
      auto using good_quiet_nil, good_quiet_app, good_quiet_background.
  - intros Hn. apply app_eq_nil in Hn. destruct Hn as [_ Hn].
    apply app_eq_nil in Hn. destruct Hn as [Hn _].
    apply app_eq_nil in Hn. destruct Hn as [_ Hn]. discriminate.
  - eapply appended_trans; [exact A1|]. eapply appended_trans; eauto.
Qed.

Lemma caused_app l1 l2 : caused (l1 ++ l2) = caused l1 ++ caused l2.
Proof. apply filter_app. Qed.

Lemma caused_background l : all_background l -> caused l = [].
Proof.
  unfold caused. induction 1 as [|x l Hx _ IH]; simpl; auto. now rewrite Hx.
Qed.

Lemma caused_Forall (P : Entry -> Prop) l :
  (forall x, is_background x = true -> P x) ->
  Forall P (caused l) -> Forall P l.
Proof.
  intros HP. unfold caused. induction l as [|x l IH]; simpl; auto.
  destruct (is_background x) eqn:Hx; simpl; intros H.
  - constructor; auto.
  - inversion H; subst. constructor; auto.
Qed.

(** A loop of [_queue] calls appends its events in order, each behind the
    background events drawn for it. *)
Lemma queue_each_exact {T} (ev : T -> Event) ph : forall xs s g,
  phase s = Some ph ->
  (forall x, is_background (E (ev x)) = false) ->
  exists L g',
    queue_each ev xs s g = Ok tt (extend_scenario ph L s) g'
    /\ caused L = map (fun x => E (ev x)) xs.
Proof.
  induction xs as [|x xs IH]; intros s g Hph Hev; simpl.
  - exists [], g. now rewrite extend_scenario_nil.
  - destruct (@queue_exact (ev x) None None s g ph Hph) as (bg & g1 & H1 & B1).
    rewrite (bind_ok _ _ _ _ H1).
    destruct (IH (extend_scenario ph (bg ++ [E (ev x)]) s) g1 Hph Hev)
      as (L & g2 & H2 & C2).
    rewrite H2, extend_scenario_app. do 2 eexists. split; [reflexivity|].
    rewrite !caused_app, (caused_background B1), C2.
    unfold caused. cbn [filter app]. now rewrite Hev.
Qed.

Lemma not_background_by_suffix e suffix :
  ends_with suffix (ev_name e) = true ->
  (forall a, ends_with "pebble-ready" (a ++ suffix) = false) ->
  (forall a, (a ++ suffix)%string <> "update-status") ->
  is_background (E e) = false.
Proof.
  intros Hs H1 H2. apply ends_with_spec in Hs. destruct Hs as [p Hp].
  simpl. rewrite Hp, H1. simpl.
  destruct (String.eqb_spec (p ++ suffix) "update-status") as [Heq|]; auto.
  now apply H2 in Heq.
Qed.

Lemma broken_not_background r : is_background (E (Relation.broken r)) = false.
Proof.
  apply not_background_by_suffix with (suffix := "-relation-broken").
  - apply ends_with_append.
  - intros a. suffix_solver.
  - intros a. apply (@suffix_clash "-relation-broken" "update-status" eq_refl eq_refl a "").
Qed.

Lemma detached_not_background m : is_background (E (StorageMount.detached m)) = false.
Proof.
  apply not_background_by_suffix with (suffix := "-storage-detached").
  - apply ends_with_append.
  - intros a. suffix_solver.
  - intros a. apply (@suffix_clash "-storage-detached" "update-status" eq_refl eq_refl a "").
Qed.

(** The teardown body returns; what it appends is the broken and detached
    events, then [stop], then [remove], with background events in front
    of each of them. *)
Lemma run_teardown_exact s g ph :
  phase s = Some ph ->
  exists pre mid g',
    _run_teardown s g
    = Ok tt (extend_scenario ph (pre ++ E stop :: mid ++ [E remove]) s) g'
    /\ caused pre = broken_events s ++ detached_events s
    /\ all_background mid.
Proof.
  intros Hph. unfold _run_teardown. rewrite bind_get.
  destruct (@queue_each_exact _ (fun r => Relation.broken (deref (objects s) r))
              ph (relations s) s g Hph (fun r => broken_not_background _))
    as (L1 & g1 & H1 & C1).
  rewrite (bind_ok _ _ _ _ H1), bind_get.
  destruct (@queue_each_exact _ StorageMount.detached ph
              (storage_mounts (extend_scenario ph L1 s))
              (extend_scenario ph L1 s) g1 Hph detached_not_background)
    as (L2 & g2 & H2 & C2).
  rewrite (bind_ok _ _ _ _ H2), extend_scenario_app.
  destruct (@queue_exact stop None None (extend_scenario ph (L1 ++ L2) s) g2 ph Hph)
    as (bg3 & g3 & H3 & B3).
  rewrite (bind_ok _ _ _ _ H3), extend_scenario_app.
  destruct (@queue_exact remove None None
              (extend_scenario ph ((L1 ++ L2) ++ bg3 ++ [E stop]) s) g3 ph Hph)
    as (bg4 & g4 & H4 & B4).
  rewrite H4, extend_scenario_app.
  exists (L1 ++ L2 ++ bg3), bg4, g4. split; [|split]; auto.
  - f_equal. f_equal. rewrite <- !app_assoc. reflexivity.
  - rewrite !caused_app, C1, C2, (caused_background B3), app_nil_r. reflexivity.
Qed.

(* ================================================================= *)
(** ** The three phases of [run] *)

Lemma setup_phase_outcome s g :
  exists L s1 g1,
    _set_phase setup _run_setup s g = Ok tt s1 g1
    /\ good_quiet L /\ phase_done setup L s s1.
Proof.
  destruct (@run_setup_outcome (set_phase (Some setup) s) g setup eq_refl)
    as (L & s1 & g1 & H & G & Hne & Ha).
  destruct (@set_phase_returns setup _run_setup s g s1 g1 L H Ha (fun _ => Hne))
    as (s' & g' & Hs & Hd).
  exists L, s', g'. auto.
Qed.

Lemma teardown_phase_outcome s g :
  exists pre mid s3 g3,
    _set_phase teardown _run_teardown s g = Ok tt s3 g3
    /\ phase_done teardown (pre ++ E stop :: mid ++ [E remove]) s s3
    /\ caused pre = broken_events s ++ detached_events s
    /\ all_background mid.
Proof.
  destruct (@run_teardown_exact (set_phase (Some teardown) s) g teardown eq_refl)
    as (pre & mid & g1 & H & C & B).
  assert (Ha : appended teardown (pre ++ E stop :: mid ++ [E remove])
                 (set_phase (Some teardown) s)
                 (extend_scenario teardown (pre ++ E stop :: mid ++ [E remove])
                    (set_phase (Some teardown) s))) by (split; auto).
  destruct (@set_phase_returns teardown _run_teardown s g _ g1 _ H Ha)
    as (s' & g' & Hs & Hd); [discriminate|].
  exists pre, mid, s', g'. auto.
Qed.

Section RunOutcome.

Variable tuple_of : list Action -> list Action.

Lemma operation_phase_outcome s g :
  operation_phase_post tuple_of s (_set_phase operation (_run_operation tuple_of) s g).
Proof.
  destruct (@run_operation_outcome tuple_of (set_phase (Some operation) s) g eq_refl)
    as (L & J & Ha & C).
  destruct (_run_operation tuple_of (set_phase (Some operation) s) g)
    as [[] s1 g1|e s1 g1] eqn:Hb; simpl in Ha.
  - destruct (@set_phase_returns operation _ s g s1 g1 L Hb Ha)
      as (s' & g' & Hs & Hd); [discriminate|].
    rewrite Hs. exists L. auto.
  - rewrite (set_phase_raises _ _ _ _ Hb). split; eauto.
Qed.

Lemma run_until_teardown s g :
  run tuple_of s g =
  match until_teardown tuple_of s g with
  | Ok _ s2 g2 => _set_phase teardown _run_teardown s2 g2
  | Err e s2 g2 => Err e s2 g2
  end.
Proof.
  unfold run, until_teardown, bind.
  destruct (_set_phase setup _run_setup s g); reflexivity.
Qed.

Lemma run_outcome s g : run_post tuple_of s g (run tuple_of s g).
Proof.
  rewrite run_until_teardown. unfold run_post, until_teardown.
  destruct (setup_phase_outcome s g) as (L1 & s1 & g1 & H1 & G1 & D1).
  exists L1, s1. split; auto. split; auto.
  rewrite (bind_ok _ _ _ _ H1).
  pose proof (operation_phase_outcome s1 g1) as H2.
  destruct (_set_phase operation (_run_operation tuple_of) s1 g1)
    as [[] s2 g2|e s2 g2]; simpl in H2.
  - destruct H2 as (L2 & J2 & C2 & D2).
    destruct (teardown_phase_outcome s2 g2)
      as (pre & mid & s3 & g3 & H3 & D3 & C3 & B3).
    rewrite H3. exists L2, s2, g2, pre, mid.
    rewrite <- (pd_mol D1). auto 10.
  - destruct H2 as [HL He]. split; auto.
    intros Hl Hg. apply He; auto. apply (pd_globals D1 Hg).
Qed.

End RunOutcome.

(* ================================================================= *)
(** ** The constructor *)

Lemma set_add_keeps h a pool x : In x pool -> In x (set_add h a pool).
Proof.
  unfold set_add. destruct (existsb (action_eqb h a) pool); auto.
  intros. apply in_or_app. auto.
Qed.

Lemma action_eqb_sound_none h a b :
  subject a = SNone -> action_eqb h a b = true -> a = b.
Proof.
  destruct a as [sa na ca], b as [sb nb cb]. unfold action_eqb. simpl.
  intros ->. rewrite !andb_true_iff. intros [[Hs Hn] Hc].
  destruct sb; try discriminate. apply String.eqb_eq in Hn. subst.
  destruct ca, cb; try discriminate; reflexivity.
Qed.

(** Adding a generic action to a set puts it in, or finds it there. *)
Lemma set_add_in_none h a pool : subject a = SNone -> In a (set_add h a pool).
Proof.
  intros Hs. unfold set_add.
  destruct (existsb (action_eqb h a) pool) eqn:He.
  - apply existsb_exists in He. destruct He as (x & Hx & Heq).
    now rewrite (action_eqb_sound_none _ _ _ Hs Heq).
  - apply in_or_app. right. now left.
Qed.

Lemma set_of_list_in_none h a : forall l acc,
  subject a = SNone -> In a l \/ In a acc ->
  In a (fold_left (fun pool x => set_add h x pool) l acc).
Proof.
  induction l as [|x l IH]; intros acc Hs [Hl | Ha]; simpl in *; auto.
  - contradiction.
  - destruct Hl as [-> | Hl].
    + apply IH; auto. right. now apply set_add_in_none.
    + apply IH; auto.
  - apply IH; auto. right. now apply set_add_keeps.
Qed.

Lemma init_fresh c g s g' : __init__ c g = inr (s, g') -> fresh c s.
Proof.
  unfold __init__.
  destruct (negb (cfg_scale c >=? 1)%Z); [discriminate|].
  destruct (existsb _ (cfg_potential_relations c)); [discriminate|].
  destruct (relation_changes (cfg_relations c) g) as [chg g1].
  unfold Action.leadership_change.
  destruct (Source.random g1) as [src g2].
  intros H. injection H as <- _. split; simpl; auto.
  match goal with
  | |- has_globals (if _ then set_add _ _ (set_of_list _ ?l) else _) =>
      set (actions := l)
  end.
  assert (Hg : forall a, subject a = SNone ->
            In a [Action.change_config; Action.scale_up;
                  mkAction SNone "leadership_change" src] ->
            In a (set_of_list (cfg_objects c) actions)).
  { intros a Hs Ha. apply set_of_list_in_none; auto. left. unfold actions.
    apply in_or_app. right. apply in_or_app. right. apply in_or_app. right.
    destruct Ha as [<-|[<-|[<-|[]]]]; simpl; auto. }
  apply has_globals_incl with (pool := set_of_list (cfg_objects c) actions).
  - destruct (cfg_scale c >? 1)%Z; [|apply incl_refl].
    intros x Hx. now apply set_add_keeps.
  - repeat split; [| |exists src]; apply Hg; simpl; auto.
Qed.

(* ================================================================= *)
(** ** The traces of a run that returned *)

(** The three traces of a run that returned: the setup events with the
    events of the closing hook among them, the operation events, and the
    teardown events. *)
Lemma run_returns_traces tuple_of s g s' g' :
  run tuple_of s g = Ok tt s' g' ->
  exists L1 l1 L2 s2 g2 pre mid,
    good_quiet L1
    /\ padded (trace (scenario s) setup ++ L1) l1
    /\ joined_paired L2
    /\ count_actions L2 = Z.to_nat (max_operation_length s + 1)
    /\ until_teardown tuple_of s g = Ok tt s2 g2
    /\ caused pre = broken_events s2 ++ detached_events s2
    /\ all_background mid
    /\ scenario s' =
       mkScenario l1
         (trace (scenario s) operation ++ L2)
         (trace (scenario s) teardown ++ pre ++ E stop :: mid ++ [E remove]).
Proof.
  intros Hrun. pose proof (run_outcome tuple_of s g) as H.
  rewrite Hrun in H.
  destruct H as (L1 & s1 & G1 & D1 & L2 & s2 & g2 & pre & mid &
                 Hu & J2 & C2 & D2 & D3 & Cp & Bm).
  destruct (pd_trace D1) as (l1 & P1 & _ & T1).
  destruct (pd_trace D2) as (l2 & _ & E2 & T2).
  destruct (pd_trace D3) as (l3 & _ & E3 & T3).
  exists L1, l1, L2, s2, g2, pre, mid.
  repeat (split; [assumption|]).
  rewrite T3, E3, T2, E2, T1 by discriminate. reflexivity.
Qed.

Lemma good_quiet_padded l l' : good_quiet l -> padded l l' -> good_quiet l'.
Proof.
  intros Hl Hp. eapply padded_Forall; eauto.
  intros x Hx. split; [now apply background_not_action | now apply background_not_joined].
Qed.

Lemma stop_remove_quiet pre mid s :
  caused pre = broken_events s ++ detached_events s ->
  all_background mid ->
  good_quiet (pre ++ E stop :: mid ++ [E remove]).
Proof.
  intros Hc Hm.
  assert (Hbg : forall x, is_background x = true ->
                  is_action x = false /\ is_joined_event x = false).
  { intros x Hx. split; [now apply background_not_action | now apply background_not_joined]. }
  apply Forall_app. split.
  - apply caused_Forall; auto. rewrite Hc. apply Forall_app. split.
    + unfold broken_events. apply Forall_map, Forall_forall. intros r _.
      split; [reflexivity | cbn; suffix_solver].
    + unfold detached_events. apply Forall_map, Forall_forall. intros m _.
      split; [reflexivity | cbn; suffix_solver].
  - constructor; [split; reflexivity|]. apply Forall_app. split.
    + eapply Forall_impl; [|exact Hm]. auto.
    + repeat constructor.
Qed.

(** In every trace of a run that returned from empty traces, every
    joined event is paired. *)
Lemma run_returns_paired tuple_of s g s' g' :
  scenario s = empty_scenario ->
  run tuple_of s g = Ok tt s' g' ->
  forall ph, joined_paired (trace (scenario s') ph).
Proof.
  intros He Hrun.
  destruct (run_returns_traces _ _ _ Hrun)
    as (L1 & l1 & L2 & s2 & g2 & pre & mid & G1 & P1 & J2 & _ & _ & Cp & Bm & Hs).
  rewrite He in P1. simpl in P1.
  rewrite Hs, He. simpl. intros [| |]; simpl.
  - apply good_quiet_paired. eapply good_quiet_padded; eauto.
  - exact J2.
  - apply good_quiet_paired. eapply stop_remove_quiet; eauto.
Qed.

(* ================================================================= *)
(** ** The operation phase records one action per turn *)

Lemma simulate_returns tuple_of c g s g' :
  simulate tuple_of c g = inr (Ok tt s g') ->
  exists s0 g0, __init__ c g = inr (s0, g0) /\ run tuple_of s0 g0 = Ok tt s g'.
Proof.
  unfold simulate. destruct (__init__ c g) as [e|[s0 g0]]; [discriminate|].
  intros H. injection H as H. eauto.
Qed.

(** C5 (amended).  When [run()] returns, the operation trace holds exactly
    [max_operation_length + 1] actions if that number is not negative,
    and none otherwise: the loop [while n <= max_operation_length] does
    not start for a negative bound.  Events do not count. *)
Theorem operation_trace_action_count tuple_of c g s g' :
  simulate tuple_of c g = inr (Ok tt s g') ->
  Z.of_nat (count_actions (trace (scenario s) operation))
  = Z.max 0 (cfg_max_operation_length c + 1).
Proof.
  intros H. apply simulate_returns in H. destruct H as (s0 & g0 & Hi & Hrun).
  apply init_fresh in Hi. destruct Hi as [Hs _ _ Hm _].
  destruct (run_returns_traces _ _ _ Hrun)
    as (L1 & l1 & L2 & s2 & g2 & pre & mid & _ & _ & _ & Hc & _ & _ & _ & Ht).
  rewrite Ht, Hs. simpl. rewrite Hc, Hm. lia.
Qed.

(** The [__main__] scenario with a source that injects nothing: eleven
    actions for [max_operation_length = 10]. *)
Lemma operation_trace_action_count_witness :
  exists s g',
    simulate in_order main_config (repeat quiet 100) = inr (Ok tt s g')
    /\ Z.of_nat (count_actions (trace (scenario s) operation))
       = Z.max 0 (cfg_max_operation_length main_config + 1).
Proof.
  destruct (simulate in_order main_config (repeat quiet 100))
    as [e|[[] s g'|e s g']] eqn:H.
  - vm_compute in H. discriminate H.
  - exists s, g'. split; [reflexivity|].
    exact (@operation_trace_action_count in_order main_config (repeat quiet 100)
             s g' H).
  - vm_compute in H. discriminate H.
Defined.

(** C5 as stated fails for [max_operation_length = -2]: the run returns
    with no action in the operation trace, not with [-1] of them. *)
Lemma operation_trace_action_count_negative :
  exists s g',
    simulate in_order short_config (repeat quiet 30) = inr (Ok tt s g')
    /\ Z.of_nat (count_actions (trace (scenario s) operation))
       <> (cfg_max_operation_length short_config + 1)%Z.
Proof.
  destruct (simulate in_order short_config (repeat quiet 30))
    as [e|[[] s g'|e s g']] eqn:H.
  - vm_compute in H. discriminate H.
  - exists s, g'. split; [reflexivity|]. simpl. lia.
  - vm_compute in H. discriminate H.
Qed.

(* ================================================================= *)
(** ** Joined is followed by changed *)

(** C6.  In every trace of a run that returned, in every phase, the entry
    right after the joined event of a relation is the changed event of
    that relation. *)
Theorem joined_immediately_changed tuple_of c g s g' ph i r :
  simulate tuple_of c g = inr (Ok tt s g') ->
  nth_error (trace (scenario s) ph) i = Some (E (Relation.joined r)) ->
  nth_error (trace (scenario s) ph) (S i) = Some (E (Relation.changed r)).
Proof.
  intros H Hi. apply simulate_returns in H. destruct H as (s0 & g0 & Hf & Hrun).
  apply init_fresh in Hf.
  apply joined_paired_nth; auto.
  eapply run_returns_paired; eauto. apply (fresh_scenario Hf).
Qed.

(** A joined relation and a drawn [scale+]: the operation trace is the
    action, [db-relation-joined], [db-relation-changed]. *)
Lemma joined_immediately_changed_witness :
  exists s g',
    simulate in_order joined_config joined_tape = inr (Ok tt s g')
    /\ nth_error (trace (scenario s) operation) 1
       = Some (E (Relation.joined (mkRelation "db" false true)))
    /\ nth_error (trace (scenario s) operation) 2
       = Some (E (Relation.changed (mkRelation "db" false true))).
Proof.
  destruct (simulate in_order joined_config joined_tape)
    as [e|[[] s g'|e s g']] eqn:H.
  - vm_compute in H. discriminate H.
  - assert (Hj : nth_error (trace (scenario s) operation) 1
                 = Some (E (Relation.joined (mkRelation "db" false true)))).
    { vm_compute in H. injection H as <- _. reflexivity. }
    exists s, g'. split; [reflexivity|]. split; [exact Hj|].
    exact (@joined_immediately_changed in_order joined_config joined_tape s g'
             operation 1 _ H Hj).
  - vm_compute in H. discriminate H.
Defined.

(* ================================================================= *)
(** ** The teardown trace *)











(* ================================================================= *)
(** ** The pool keeps its generic actions *)

Lemma exec_keeps_globals action consume s g :
  has_globals (possible_actions s) ->
  has_globals (possible_actions (outcome (_exec action consume s g))).
Proof.
  intros Hg. destruct (phase s) as [ph|] eqn:Hph.
  - destruct (@exec_outcome action consume s g ph Hph) as [(L & _ & Ha) _].
    exact (app_globals Ha Hg).
  - unfold _exec. unfold bind at 1. unfold record_action, bind, get.
    rewrite Hph. exact Hg.
Qed.

Lemma permutation_lists_globals tuple_of :
  (forall pool, Permutation (tuple_of pool) pool) -> lists_globals tuple_of.
Proof.
  intros Hp pool (H1 & _) Hn. specialize (Hp pool). rewrite Hn in Hp.
  apply Permutation_nil in Hp. subst. contradiction.
Qed.

(** C10.  The constructor puts config-change, scale-up and a
    leadership-change into the pool; no executed action takes them out,
    whether it returns or raises; so the draw of every turn of the
    operation phase finds the pool inhabited and returns one of its
    actions, and a whole run holds them to its end and never raises the
    [IndexError] of an empty draw. *)
Theorem pool_keeps_generic_actions tuple_of c g s0 g0 :
  (forall pool, Permutation (tuple_of pool) pool) ->
  __init__ c g = inr (s0, g0) ->
  has_globals (possible_actions s0)
  /\ (forall action consume s g1,
        has_globals (possible_actions s) ->
        has_globals (possible_actions (outcome (_exec action consume s g1))))
  /\ (forall s g1,
        has_globals (possible_actions s) ->
        exists action g2,
          random_choice (tuple_of (possible_actions s)) s g1 = Ok action s g2
          /\ In action (possible_actions s))
  /\ has_globals (possible_actions (outcome (run tuple_of s0 g0)))
  /\ (forall e s g1, run tuple_of s0 g0 = Err e s g1 -> is_index_error e = false).
Proof.
  intros Hperm Hi. apply init_fresh in Hi. destruct Hi as [_ _ _ _ Hg].
  pose proof (permutation_lists_globals _ Hperm) as Hl.
  split; [exact Hg|]. split; [intros; now apply exec_keeps_globals|].
  split; [|split].
  - intros s g1 Hs. unfold random_choice.
    destruct (@choice_nonempty _ (tuple_of (possible_actions s)) g1 (Hl _ Hs))
      as (a & g2 & Hc).
    rewrite Hc. exists a, g2. split; auto.
    apply choice_in in Hc. eapply Permutation_in; eauto.
  - pose proof (run_outcome tuple_of s0 g0) as H.
    destruct H as (L1 & s1 & _ & D1 & H).
    destruct (run tuple_of s0 g0) as [[] s g1|e s g1]; simpl.
    + destruct H as (L2 & s2 & g2 & pre & mid & _ & _ & _ & D2 & D3 & _).
      apply (pd_globals D3), (pd_globals D2), (pd_globals D1), Hg.
    + destruct H as [(L2 & Ha) _].
      apply (app_globals Ha). simpl. apply (pd_globals D1), Hg.
  - intros e s g1 Hrun. pose proof (run_outcome tuple_of s0 g0) as H.
    rewrite Hrun in H. destruct H as (L1 & s1 & _ & _ & _ & He).
    apply He; auto.
Qed.

(** The [__main__] scenario with the pool listed as it was filled. *)
Lemma pool_keeps_generic_actions_witness :
  exists s0 g0,
    (forall pool, Permutation (in_order pool) pool)
    /\ __init__ main_config (repeat quiet 100) = inr (s0, g0)
    /\ has_globals (possible_actions s0)
    /\ has_globals (possible_actions (outcome (run in_order s0 g0))).
Proof.
  destruct (__init__ main_config (repeat quiet 100)) as [e|[s0 g0]] eqn:Hi.
  - vm_compute in Hi. discriminate Hi.
  - exists s0, g0.
    pose proof (@pool_keeps_generic_actions in_order main_config
                  (repeat quiet 100) s0 g0
                  (fun pool => Permutation_refl pool) Hi) as H.
    split; [exact (fun pool => Permutation_refl pool)|].
    split; [reflexivity|].
    split; [exact (proj1 H)|].
    exact (proj1 (proj2 (proj2 (proj2 H)))).
Defined.

(* ================================================================= *)
(** ** Leaving a phase *)

(** The two ways [run()] ends.  It returns, and then the hook has closed
    setup, operation and teardown, in this order, and the phase is what it
    was; or it raises from the body of the operation phase, and then the
    hook has closed setup only, and operation is still the current
    phase: the hook runs when a phase body returns, not when it raises. *)
Lemma close_hook_runs_when_body_returns tuple_of s g :
  match run tuple_of s g with
  | Ok _ s' _ =>
      closed s' = closed s ++ [setup; operation; teardown]
      /\ phase s' = phase s
  | Err _ s' _ =>
      closed s' = closed s ++ [setup]
      /\ phase s' = Some operation
  end.
Proof.
  pose proof (run_outcome tuple_of s g) as H.
  destruct H as (L1 & s1 & _ & D1 & H).
  destruct (run tuple_of s g) as [[] s' g'|e s' g'].
  - destruct H as (L2 & s2 & g2 & pre & mid & _ & _ & _ & D2 & D3 & _).
    split.
    + rewrite (pd_closed D3), (pd_closed D2), (pd_closed D1), <- !app_assoc.
      reflexivity.
    + rewrite (pd_phase D3), (pd_phase D2), (pd_phase D1). reflexivity.
  - destruct H as [(L2 & Ha) _]. split.
    + rewrite (app_closed Ha). simpl. apply (pd_closed D1).
    + rewrite (app_phase Ha). reflexivity.
Qed.

(** C4.  [_set_phase] is a context manager, but its generator has no
    [try]/[finally] around the [yield]: what follows the [yield] is
    skipped when the body of the [with] block raises.  When a storage
    mount is both attached and potential and its [attach] is drawn, the
    operation phase was entered, its body raised, and the hook did not
    run for it; the phase is still current. *)
Theorem close_hook_skipped_on_error :
  exists e s g',
    simulate in_order clash_config clash_tape = inr (Err e s g')
    /\ phase s = Some operation
    /\ ~ In operation (closed s).
Proof.
  destruct (simulate in_order clash_config clash_tape)
    as [e|[[] s g'|e s g']] eqn:H.
  - vm_compute in H. discriminate H.
  - vm_compute in H. discriminate H.
  - exists e, s, g'. split; [reflexivity|].
    vm_compute in H. injection H as <- <- _.
    split; [reflexivity|]. simpl. intros [H|[]]. discriminate H.
Qed.

(* ================================================================= *)
(** ** Injection into the local sequence *)

Lemma roll_hit chance s g :
  (0 < chance)%Q ->
  (unit_of_outcome (fst (next_outcome g)) < chance)%Q ->
  roll chance s g = Ok true s (snd (next_outcome g)).
Proof.
  intros Hpos Hlt. unfold roll.
  destruct (Qeq_bool chance 0) eqn:Hz.
  - apply Qeq_bool_iff in Hz. rewrite Hz in Hpos.
    exfalso. exact (Qlt_irrefl _ Hpos).
  - unfold bind, random_random, ret.
    destruct (next_outcome g) as [u g1]. simpl in *.
    unfold Qltb. destruct (Qle_bool chance (unit_of_outcome u)) eqn:Hle; auto.
    apply Qle_bool_iff in Hle. exfalso. exact (Qlt_not_le _ _ Hlt Hle).
Qed.

Lemma inject_drawn k sequence s g :
  sequence <> [] ->
  exists x g0 i g1,
    occurrence_drawn k s g x g0
    /\ randrange0 (List.length sequence) g0 = Some (i, g1)
    /\ g1 = snd (next_outcome g0)
    /\ inject k sequence s g = Ok (list_insert i x sequence) s g1.
Proof.
  intros Hne.
  assert (Hins : forall x g0,
            exists i g1,
              randrange0 (List.length sequence) g0 = Some (i, g1)
              /\ g1 = snd (next_outcome g0)
              /\ random_insert sequence x s g0 = Ok (list_insert i x sequence) s g1).
  { intros x g0. unfold random_insert, bind, random_randrange, ret.
    destruct sequence as [|y l]; [congruence|].
    cbn [List.length randrange0]. destruct (next_outcome g0) as [u g1].
    eexists. exists g1. repeat split. }
  unfold inject, bind, get, occurrence_drawn.
  destruct k; [destruct (has_pebble s); [destruct (containers s) as [|c cs] eqn:Hc|]|];
    try match goal with
        | |- exists x g0 i g1, (g0 = g /\ x = ?X) /\ _ =>
            destruct (Hins X g) as (i & g1 & Hr & Hg & Hi);
            exists X, g, i, g1; repeat split; assumption
        end.
  unfold random_choice.
  destruct (@choice_nonempty _ (c :: cs) g) as (c' & g0 & Hch); [discriminate|].
  rewrite Hch.
  destruct (Hins (E (Container.pebble_ready c')) g0) as (i & g1 & Hr & Hg & Hi).
  exists (E (Container.pebble_ready c')), g0, i, g1. eauto 10.
Qed.

(** C8.  In a call of [_queue] inside a phase: when the loop comes to a
    kind [k] that is not disallowed, whose chance in the phase is positive
    and above the number drawn for it from [g], then one occurrence [x]
    of the kind is synthesized with the random source left at [g0], the
    index [i] is drawn from [g0] below the length of the local sequence
    built so far, [x] is inserted into that sequence at [i], and the loop
    goes on with the kinds that remain.  If [k] is the last kind, the loop
    ends with that sequence.  A call for [k] alone appends the occurrence
    and, behind it, the caused event to the trace of the phase: the
    occurrence lands in the sequence of this call, behind everything the
    phase trace held.  Whatever is allowed, the sequence the loop ends
    with holds the caused event as its last element behind the
    occurrences injected, and it is this sequence that the call appends
    to the trace of the phase. *)
Theorem queue_injects_into_local_sequence
    ph s g event allow disallow k rest banned sequence :
  phase s = Some ph ->
  sequence <> [] ->
  existsb (kind_eqb k) banned = false ->
  (0 < _event_chances ph k)%Q ->
  (unit_of_outcome (fst (next_outcome g)) < _event_chances ph k)%Q ->
  (exists x g0 i g1,
     occurrence_drawn k s (snd (next_outcome g)) x g0
     /\ kind_occurrence k s x
     /\ randrange0 (List.length sequence) g0 = Some (i, g1)
     /\ i < List.length sequence
     /\ List.length (list_insert i x sequence) = S (List.length sequence)
     /\ queue_loop ph (k :: rest) banned sequence s g
        = queue_loop ph rest banned (list_insert i x sequence) s g1
     /\ queue_loop ph [k] banned sequence s g
        = Ok (list_insert i x sequence) s g1
     /\ _queue event (Some [k]) (Some banned) s g
        = Ok tt (extend_scenario ph [x; E event] s) g1)
  /\ (exists bg g',
        queue_loop ph
          (match allow with None => default_allow | Some a => a end)
          (match disallow with None => [] | Some d => d end)
          [E event] s g = Ok (bg ++ [E event]) s g'
        /\ all_background bg
        /\ _queue event allow disallow s g
           = Ok tt (extend_scenario ph (bg ++ [E event]) s) g').
Proof.
  intros Hph Hne Hban Hpos Hlt. split.
  - destruct (@inject_drawn k sequence s (snd (next_outcome g)) Hne)
      as (x & g0 & i & g1 & Hx & Hr & Hg & Hi).
    assert (Hstep : forall rest' seq' i',
              randrange0 (List.length seq') g0 = Some (i', g1) ->
              inject k seq' s (snd (next_outcome g))
              = Ok (list_insert i' x seq') s g1 ->
              queue_loop ph (k :: rest') banned seq' s g
              = queue_loop ph rest' banned (list_insert i' x seq') s g1).
    { intros rest' seq' i' _ Hi'. simpl. rewrite Hban. unfold bind at 1.
      rewrite (roll_hit s g Hpos Hlt). unfold bind at 1. now rewrite Hi'. }
    assert (Hocc : kind_occurrence k s x).
    { unfold occurrence_drawn in Hx. unfold kind_occurrence.
      destruct k; [destruct (has_pebble s);
                   [destruct (containers s) as [|c cs] eqn:Hc|]|];
        try (destruct Hx as [_ ->]; now left).
      destruct Hx as (c' & Hch & ->). right. split; auto.
      exists c'. split; auto. now apply choice_in in Hch. }
    exists x, g0, i, g1.
    split; [exact Hx|]. split; [exact Hocc|]. split; [exact Hr|].
    split; [now apply randrange0_lt in Hr|].
    split; [apply list_insert_length|].
    split; [now apply Hstep|]. split; [now rewrite (Hstep [] sequence i)|].
    (* the call for [k] alone *)
    destruct (@inject_drawn k [E event] s (snd (next_outcome g)))
      as (x' & g0' & i' & g1' & Hx' & Hr' & Hg' & Hi'); [discriminate|].
    assert (Hsame : x' = x /\ g0' = g0).
    { unfold occurrence_drawn in Hx, Hx'.
      destruct k; [destruct (has_pebble s);
                   [destruct (containers s) as [|c cs]|]|];
        try (destruct Hx as [-> ->], Hx' as [-> ->]; now split).
      destruct Hx as (c1 & Hc1 & ->), Hx' as (c2 & Hc2 & ->).
      rewrite Hc1 in Hc2. injection Hc2 as <- <-. now split. }
    destruct Hsame as [-> ->].
    rewrite Hg' in Hr', Hi'. rewrite <- Hg in Hr', Hi'. clear Hg'.
    assert (Hz : i' = 0).
    { apply randrange0_lt in Hr'. simpl in Hr'. lia. }
    rewrite Hz in Hr', Hi'.
    unfold _queue, bind, get. rewrite Hph.
    rewrite (Hstep [] [E event] 0 Hr' Hi'). reflexivity.
  - destruct (@queue_loop_last ph
                (match allow with None => default_allow | Some a => a end)
                (match disallow with None => [] | Some d => d end)
                [] (E event) s g (Forall_nil _)) as (bg & g' & Hq & Hbg).
    simpl app in Hq. exists bg, g'. split; [exact Hq|]. split; [exact Hbg|].
    unfold _queue, bind, get. rewrite Hph, Hq. reflexivity.
Qed.

(** In setup, a first draw of zero is below the chance of pebble-ready:
    the pebble-ready event of the container goes in front of [install]. *)
Lemma queue_injects_into_local_sequence_witness :
  exists x g0 i g1,
    occurrence_drawn pebble_ready setup_state [0; 0; 7]%N x g0
    /\ randrange0 1 g0 = Some (i, g1)
    /\ queue_loop setup [pebble_ready; update_status] [] [E install]
         setup_state [0; 0; 0; 7]%N
       = queue_loop setup [update_status] [] (list_insert i x [E install])
           setup_state g1
    /\ _queue install (Some [pebble_ready]) (Some []) setup_state [0; 0; 0; 7]%N
       = Ok tt (extend_scenario setup [x; E install] setup_state) g1.
Proof.
  destruct (@queue_injects_into_local_sequence setup setup_state [0; 0; 0; 7]%N
              install None None pebble_ready [update_status] [] [E install]
              eq_refl ltac:(discriminate) eq_refl eq_refl eq_refl)
    as [(x & g0 & i & g1 & Hx & _ & Hr & _ & _ & Hq & _ & Hc) _].
  exists x, g0, i, g1. auto.
Defined.

(* ================================================================= *)
(** ** Same seed, same traces *)

Lemma operation_step_keeps_globals tuple_of s g :
  has_globals (possible_actions s) ->
  has_globals (possible_actions (outcome (operation_step tuple_of s g))).
Proof.
  intros Hg. unfold operation_step, bind, get, random_choice.
  destruct (choice (tuple_of (possible_actions s)) g) as [[a g1]|]; auto.
  now apply exec_keeps_globals.
Qed.

Lemma repeat_body_agree t1 t2 :
  (forall pool, has_globals pool -> t1 pool = t2 pool) ->
  forall k s g,
    has_globals (possible_actions s) ->
    repeat_body k (operation_step t1) s g = repeat_body k (operation_step t2) s g.
Proof.
  intros H. induction k as [|k IH]; intros s g Hg; simpl; auto.
  unfold bind.
  assert (Hs : operation_step t1 s g = operation_step t2 s g).
  { unfold operation_step, bind, get. now rewrite (H _ Hg). }
  rewrite Hs.
  pose proof (@operation_step_keeps_globals t2 s g Hg) as Hk.
  destruct (operation_step t2 s g) as [[] s1 g1|e s1 g1]; auto.
Qed.

(** A run lists pools that hold the three generic actions, and no
    other pool. *)
Lemma run_agree t1 t2 s g :
  (forall pool, has_globals pool -> t1 pool = t2 pool) ->
  has_globals (possible_actions s) ->
  run t1 s g = run t2 s g.
Proof.
  intros H Hg.
  destruct (setup_phase_outcome s g) as (L1 & s1 & g1 & H1 & _ & D1).
  unfold run. rewrite !(bind_ok _ _ _ _ H1).
  assert (Hop : _run_operation t1 (set_phase (Some operation) s1) g1
                = _run_operation t2 (set_phase (Some operation) s1) g1).
  { unfold _run_operation, bind, get, while_le.
    apply repeat_body_agree; auto. apply (pd_globals D1 Hg). }
  unfold bind. rewrite !set_phase_unfold, Hop. reflexivity.
Qed.

(** The setup trace is the business of the setup phase alone. *)
Lemma phase_done_other ph ph' L s s' :
  phase_done ph L s s' -> ph <> ph' ->
  trace (scenario s') ph' = trace (scenario s) ph'.
Proof.
  intros D Hne. destruct (pd_trace D) as (l' & _ & _ & ->).
  now apply trace_set_trace_other.
Qed.

Lemma appended_other ph ph' L s s' :
  appended ph L s s' -> ph <> ph' ->
  trace (scenario s') ph' = trace (scenario s) ph'.
Proof.
  intros D Hne. rewrite (app_trace D). now apply trace_set_trace_other.
Qed.

(** The setup trace is settled before the pool is listed. *)
Lemma run_setup_trace tuple_of s g :
  exists s1 g1,
    _set_phase setup _run_setup s g = Ok tt s1 g1
    /\ trace (scenario (outcome (run tuple_of s g))) setup
       = trace (scenario s1) setup.
Proof.
  destruct (setup_phase_outcome s g) as (L1 & s1 & g1 & H1 & _ & _).
  exists s1, g1. split; [exact H1|].
  unfold run. rewrite (bind_ok _ _ _ _ H1).
  pose proof (operation_phase_outcome tuple_of s1 g1) as H2.
  unfold bind.
  destruct (_set_phase operation (_run_operation tuple_of) s1 g1)
    as [[] s2 g2|e s2 g2]; simpl in H2; cbn [outcome].
  - destruct H2 as (L2 & _ & _ & D2).
    destruct (teardown_phase_outcome s2 g2) as (pre & mid & s3 & g3 & H3 & D3 & _).
    rewrite H3. cbn [outcome].
    rewrite (phase_done_other D3), (phase_done_other D2) by discriminate.
    reflexivity.
  - destruct H2 as [(L2 & Ha) _].
    now rewrite (appended_other Ha) by discriminate.
Qed.

(** C9 (amended).  Two simulators constructed from the same configuration
    and the same state of the random source are constructed alike and
    have the same setup trace when they have run, in whatever orders
    their pools are listed: setup lists no pool.  They end alike
    altogether, with the same traces in every phase, the same state and
    the same random source, when the two listings agree on the pools that
    hold the three generic actions: a run lists no other pool. *)
Theorem same_seed_same_order_same_traces t1 t2 c g :
  match simulate t1 c g, simulate t2 c g with
  | inr r1, inr r2 =>
      trace (scenario (outcome r1)) setup = trace (scenario (outcome r2)) setup
  | inl e1, inl e2 => e1 = e2
  | _, _ => False
  end
  /\ ((forall pool, has_globals pool -> t1 pool = t2 pool) ->
      simulate t1 c g = simulate t2 c g).
Proof.
  unfold simulate.
  destruct (__init__ c g) as [e|[s0 g0]] eqn:Hi; [split; reflexivity|].
  split.
  - destruct (run_setup_trace t1 s0 g0) as (s1 & g1 & H1 & E1).
    destruct (run_setup_trace t2 s0 g0) as (s1' & g1' & H1' & E2).
    rewrite E1, E2. congruence.
  - intros H. f_equal. apply run_agree; auto.
    apply (fresh_globals (init_fresh _ _ Hi)).
Qed.

(** The [__main__] scenario with the pool listed as it was filled and
    with a listing that differs from it on the empty pool. *)
Lemma same_seed_same_order_same_traces_witness :
  (forall pool, has_globals pool -> in_order pool = in_order_inhabited pool)
  /\ in_order [] <> in_order_inhabited []
  /\ simulate in_order main_config (repeat quiet 100)
     = simulate in_order_inhabited main_config (repeat quiet 100).
Proof.
  assert (H : forall pool, has_globals pool ->
                           in_order pool = in_order_inhabited pool).
  { intros [|a pool] Hg; [destruct Hg as [[] _] | reflexivity]. }
  split; [exact H|]. split; [discriminate|].
  exact (proj2 (@same_seed_same_order_same_traces in_order in_order_inhabited
                  main_config (repeat quiet 100)) H).
Defined.

(** C9 as stated fails: with the same configuration and the same state of
    the random source, the pool listed in another order gives other
    traces.  Both orders are permutations of the pool. *)
Lemma same_seed_other_order_other_traces :
  (forall pool, Permutation (in_order pool) pool)
  /\ (forall pool : list Action, Permutation (rev pool) pool)
  /\ traces_of (simulate in_order default_config [])
     <> traces_of (simulate (@rev Action) default_config []).
Proof.
  split; [intros; apply Permutation_refl|].
  split; [intros; symmetry; apply Permutation_rev|].
  intros H. vm_compute in H. discriminate H.
Qed.

(* ================================================================= *)
(** ** Where the code departs from its own intent *)

Lemma attached_not_background m : is_background (E (StorageMount.attached m)) = false.
Proof.
  apply not_background_by_suffix with (suffix := "-storage-attached").
  - apply ends_with_append.
  - intros a. suffix_solver.
  - intros a. apply (@suffix_clash "-storage-attached" "update-status" eq_refl eq_refl a "").
Qed.

Lemma created_not_background r : is_background (E (Relation.created r)) = false.
Proof.
  apply not_background_by_suffix with (suffix := "-relation-created").
  - apply ends_with_append.
  - intros a. suffix_solver.
  - intros a. apply (@suffix_clash "-relation-created" "update-status" eq_refl eq_refl a "").
Qed.

(** What the setup body appends: [install], then the created events of
    the peer relations, then the leadership event, whether or not there
    is a peer relation. *)
Lemma run_setup_exact s g ph :
  phase s = Some ph ->
  exists pre mid post g',
    _run_setup s g
    = Ok tt (extend_scenario ph
               (pre ++ E install :: mid ++ E (leadership_event s) :: post) s) g'
    /\ caused mid = created_events s.
Proof.
  intros Hph. unfold _run_setup. rewrite bind_get.
  destruct (@queue_each_exact _ StorageMount.attached ph (storage_mounts s) s g
              Hph attached_not_background) as (L1 & g1 & H1 & _).
  rewrite (bind_ok _ _ _ _ H1).
  destruct (@queue_exact install None None (extend_scenario ph L1 s) g1 ph Hph)
    as (bg2 & g2 & H2 & _).
  rewrite (bind_ok _ _ _ _ H2), extend_scenario_app, bind_get.
  set (s2 := extend_scenario ph (L1 ++ bg2 ++ [E install]) s).
  unfold filter_truth. unfold bind at 1. unfold bind at 1.
  destruct (@queue_each_exact _ (fun r => Relation.created (deref (objects s2) r))
              ph (_peer_relations s2) s2 g2 Hph (fun r => created_not_background _))
    as (L3 & g3 & H3 & C3).
  rewrite H3. unfold s2 at 1. rewrite extend_scenario_app, bind_get.
  set (s3 := extend_scenario ph ((L1 ++ bg2 ++ [E install]) ++ L3) s).
  assert (H4 : exists bg4 g4,
            (if is_leader s3 then _queue leader_elected None None
             else _queue leader_settings_changed None None) s3 g3
            = Ok tt (extend_scenario ph (bg4 ++ [E (leadership_event s)]) s3) g4
            /\ all_background bg4).
  { unfold leadership_event. change (is_leader s3) with (is_leader s).
    destruct (is_leader s);
      [destruct (@queue_exact leader_elected None None s3 g3 ph Hph)
         as (bg4 & g4 & H4 & B4)
      |destruct (@queue_exact leader_settings_changed None None s3 g3 ph Hph)
         as (bg4 & g4 & H4 & B4)]; eauto. }
  destruct H4 as (bg4 & g4 & H4 & B4). rewrite H4.
  unfold s3 at 1. rewrite extend_scenario_app.
  match goal with
  | |- exists _ _ _ _, bind _ _ ?s5 _ = _ /\ _ =>
      destruct (@queue_exact config_changed None None s5 g4 ph Hph)
        as (bg5 & g5 & H5 & _)
  end.
  rewrite (bind_ok _ _ _ _ H5), extend_scenario_app.
  match goal with
  | |- exists _ _ _ _, _queue _ _ _ ?s6 _ = _ /\ _ =>
      destruct (@queue_exact start None None s6 g5 ph Hph)
        as (bg6 & g6 & H6 & B6)
  end.
  rewrite H6, extend_scenario_app.
  exists (L1 ++ bg2), (L3 ++ bg4),
         ((bg5 ++ [E config_changed]) ++ bg6 ++ [E start]), g6.
  split.
  - rewrite <- !app_assoc. simpl. rewrite <- ?app_assoc. reflexivity.
  - rewrite caused_app, C3, (caused_background B4), app_nil_r. reflexivity.
Qed.

(** C1.  The guard [if peer_relations := self._peer_relations:] is meant
    to skip the leadership event of a unit without peer relations, but a
    [filter] object is always true.  In every state and for every outcome
    of the random source, the setup body queues the leadership event
    behind [install] and the created events of the peer relations, also
    when there are none.  With the constructor's defaults there is no
    relation at all, and the setup trace has [leader-elected] between
    [install] and [config-changed]. *)
Theorem setup_queues_leadership_without_peers :
  (forall s g,
     match phase s with
     | Some ph =>
         exists pre mid post g',
           _run_setup s g
           = Ok tt (extend_scenario ph
                      (pre ++ E install :: mid ++ E (leadership_event s) :: post)
                      s) g'
           /\ caused mid = created_events s
     | None => True
     end)
  /\ (exists s0 g0,
        __init__ default_config (repeat quiet 100) = inr (s0, g0)
        /\ _peer_relations s0 = [])
  /\ labels (simulate in_order default_config (repeat quiet 100)) setup
     = ["install"; "leader-elected"; "config-changed";
        "workload-pebble-ready"; "start"].
Proof.
  split; [|split; [|vm_compute; reflexivity]].
  - intros s g. destruct (phase s) as [ph|] eqn:Hph; [|exact I].
    now apply run_setup_exact.
  - destruct (__init__ default_config (repeat quiet 100)) as [e|[s0 g0]] eqn:Hi.
    + vm_compute in Hi. discriminate Hi.
    + exists s0, g0. split; [reflexivity|].
      vm_compute in Hi. injection Hi as <- _. reflexivity.
Qed.

(** C2.  [Relation.join] names its action [join], the engine looks for
    [joined]: executing the action of the factory records it and then
    raises the error of an unrecognized name, whatever the state of the
    relation.  No event is queued, [is_joined] is not assigned, the
    action is not consumed. *)
Theorem exec_join_is_not_recognized r consume s g :
  _exec (Relation.join r) consume s g =
  match phase s with
  | Some ph =>
      Err (ValueError "Relation-action not recognized")
        (extend_scenario ph [A (Relation.join r)] s) g
  | None => Err (KeyError "None") s g
  end.
Proof.
  unfold _exec. unfold bind at 1. unfold record_action, bind, get.
  destruct (phase s); reflexivity.
Qed.

(** C3.  The branch for [depart] assigns [is_joined] and queues nothing:
    whatever the state, executing a depart action adds the action alone
    to the trace of the phase.  Where it succeeds, as from
    [departing_state], the relation is no longer joined and the action is
    consumed, but no departed event was queued. *)
Theorem exec_depart_queues_no_event :
  (forall r consume s g,
     match phase s with
     | Some ph =>
         trace (scenario (outcome (_exec (Relation.depart r) consume s g))) ph
         = trace (scenario s) ph ++ [A (Relation.depart r)]
     | None => True
     end)
  /\ _exec (Relation.depart 0) true departing_state []
     = Ok tt
         (mkSim 10 true 1 [mkContainer "workload"] [0] [] [] [] k8s true
            [Action.change_config] (Some operation)
            (mkScenario [] [A (Relation.depart 0)] [])
            [mkRelation "http" false false] [])
         [].
Proof.
  split; [|vm_compute; reflexivity].
  intros r consume s g. destruct (phase s) as [ph|] eqn:Hph; [|exact I].
  unfold _exec. unfold bind at 1. unfold record_action, bind, get.
  rewrite Hph. unfold modify at 1.
  set (s0 := extend_scenario ph [A (Relation.depart r)] s).
  assert (Ht : trace (scenario s0) ph = trace (scenario s) ph ++ [A (Relation.depart r)])
    by apply trace_set_trace_same.
  cbn [subject act_name Relation.depart]. unfold exec_relation, bind, get.
  cbn [String.eqb Ascii.eqb Bool.eqb].
  destruct (negb (rel_in (objects s0) r (relations s0))); [exact Ht|].
  destruct (negb (is_joined (deref (objects s0) r))); [exact Ht|].
  cbn. destruct consume; [|exact Ht].
  unfold consume_action, bind, get. cbn.
  match goal with
  | |- context [set_remove ?h ?a ?p] => destruct (set_remove h a p)
  end; exact Ht.
Qed.

(* ================================================================= *)
(** ** Frame properties: what no step of the simulator changes *)

Lemma reads_only_ret {T} (x : T) : reads_only (ret x).
Proof. intros s g. reflexivity. Qed.

Lemma reads_only_raise {T} e : reads_only (@raise T e).
Proof. intros s g. reflexivity. Qed.

Lemma reads_only_get : reads_only get.
Proof. intros s g. reflexivity. Qed.

Lemma reads_only_bind {T U} (m : M T) (k : T -> M U) :
  reads_only m -> (forall x, reads_only (k x)) -> reads_only (bind m k).
Proof.
  intros Hm Hk s g. unfold bind. specialize (Hm s g).
  destruct (m s g) as [x s1 g1|e s1 g1]; simpl in Hm; subst; auto.
  apply Hk.
Qed.

Lemma reads_only_random_random : reads_only random_random.
Proof. intros s g. unfold random_random. now destruct (next_outcome g). Qed.

Lemma reads_only_random_randrange n : reads_only (random_randrange n).
Proof.
  intros s g. unfold random_randrange. now destruct (randrange0 n g) as [[i g']|].
Qed.

Lemma reads_only_random_choice {T} (l : list T) : reads_only (random_choice l).
Proof.
  intros s g. unfold random_choice. now destruct (choice l g) as [[x g']|].
Qed.

Lemma reads_only_random_insert lst item : reads_only (random_insert lst item).
Proof.
  unfold random_insert. apply reads_only_bind.
  - apply reads_only_random_randrange.
  - intros i. apply reads_only_ret.
Qed.

Lemma reads_only_inject k sequence : reads_only (inject k sequence).
Proof.
  unfold inject. apply reads_only_bind; [apply reads_only_get|]. intros s.
  destruct k; [destruct (has_pebble s); [destruct (containers s)|]|];
    try apply reads_only_random_insert.
  apply reads_only_bind; [apply reads_only_random_choice|].
  intros container. apply reads_only_random_insert.
Qed.

Lemma reads_only_roll chance : reads_only (roll chance).
Proof.
  unfold roll. destruct (Qeq_bool chance 0); [apply reads_only_ret|].
  apply reads_only_bind; [apply reads_only_random_random|].
  intros u. apply reads_only_ret.
Qed.

Lemma reads_only_queue_loop ph allow disallow :
  forall sequence, reads_only (queue_loop ph allow disallow sequence).
Proof.
  induction allow as [|k allow IH]; intros sequence; simpl.
  - apply reads_only_ret.
  - destruct (existsb (kind_eqb k) disallow); [apply IH|].
    apply reads_only_bind; [apply reads_only_roll|]. intros hit.
    apply reads_only_bind; [|intros; apply IH].
    destruct hit; [apply reads_only_inject | apply reads_only_ret].
Qed.

Section Keeps.

Variable R : Sim -> Sim -> Prop.

Hypothesis R_refl : forall s, R s s.
Hypothesis R_trans : forall s1 s2 s3, R s1 s2 -> R s2 s3 -> R s1 s3.
Hypothesis R_scenario : forall v s, R s (set_scenario v s).
Hypothesis R_is_leader : forall v s, R s (set_is_leader v s).
Hypothesis R_scale : forall s, R s (set_scale (scale s + 1) s).
Hypothesis R_relations_add : forall r s, R s (set_relations (relations s ++ [r]) s).
Hypothesis R_relations_filter :
  forall f s, R s (set_relations (filter f (relations s)) s).
Hypothesis R_storage_add :
  forall m s, R s (set_storage_mounts (storage_mounts s ++ [m]) s).
Hypothesis R_storage_filter :
  forall f s, R s (set_storage_mounts (filter f (storage_mounts s)) s).
Hypothesis R_pool_add :
  forall s, R s (set_possible_actions
                   (set_add (objects s) Action.scale_down (possible_actions s)) s).
Hypothesis R_pool_remove :
  forall a pool s,
    set_remove (objects s) a (possible_actions s) = Some pool ->
    R s (set_possible_actions pool s).
Hypothesis R_objects :
  forall r v s, R s (set_objects (assign_is_joined (objects s) r v) s).

Lemma keeps_reads_only {T} (m : M T) : reads_only m -> keeps R m.
Proof. intros H s g. rewrite H. apply R_refl. Qed.

Lemma keeps_bind {T U} (m : M T) (k : T -> M U) :
  keeps R m -> (forall x, keeps R (k x)) -> keeps R (bind m k).
Proof.
  intros Hm Hk s g. unfold bind. specialize (Hm s g).
  destruct (m s g) as [x s1 g1|e s1 g1]; simpl in Hm; auto.
  eapply R_trans; [exact Hm | apply Hk].
Qed.

Lemma keeps_modify f : (forall s, R s (f s)) -> keeps R (modify f).
Proof. intros H s g. apply H. Qed.

Lemma keeps_queue event allow disallow : keeps R (_queue event allow disallow).
Proof.
  unfold _queue. apply keeps_bind; [apply keeps_reads_only, reads_only_get|].
  intros s. destruct (phase s) as [ph|].
  - apply keeps_bind; [apply keeps_reads_only, reads_only_queue_loop|].
    intros sequence. apply keeps_modify. intros s1. apply R_scenario.
  - apply keeps_reads_only, reads_only_raise.
Qed.

Lemma keeps_queue_each {T} (ev : T -> Event) xs : keeps R (queue_each ev xs).
Proof.
  induction xs as [|x xs IH]; simpl.
  - apply keeps_reads_only, reads_only_ret.
  - apply keeps_bind; [apply keeps_queue | auto].
Qed.

(** One step of a proof of [keeps], by the shape of the computation. *)
Ltac keeps_step :=
  match goal with
  | |- keeps _ (ret _) => apply keeps_reads_only, reads_only_ret
  | |- keeps _ (raise _) => apply keeps_reads_only, reads_only_raise
  | |- keeps _ get => apply keeps_reads_only, reads_only_get
  | |- keeps _ (_queue _ _ _) => apply keeps_queue
  | |- keeps _ (queue_each _ _) => apply keeps_queue_each
  | |- keeps _ (modify _) =>
      apply keeps_modify; intros;
      first [ apply R_scenario | apply R_is_leader | apply R_scale
            | apply R_relations_add | apply R_relations_filter
            | apply R_storage_add | apply R_storage_filter
            | apply R_pool_add | apply R_objects ]
  | |- keeps _ (bind _ _) => apply keeps_bind; [|intros]
  | |- keeps _ (if ?b then _ else _) => destruct b
  | |- keeps _ (match ?x with Some _ => _ | None => _ end) => destruct x
  end.

Lemma keeps_exec_relation subject name consume :
  keeps R (exec_relation subject name consume).
Proof.
  unfold exec_relation, add_relation, remove_relation. repeat keeps_step.
Qed.

Lemma keeps_exec_storage subject name consume :
  keeps R (exec_storage subject name consume).
Proof.
  unfold exec_storage, attach_storage, detach_storage. repeat keeps_step.
Qed.

Lemma keeps_scale_up_loop rs : keeps R (scale_up_loop rs).
Proof.
  induction rs as [|r rs IH]; simpl; [keeps_step|].
  apply keeps_bind; [keeps_step | intros s].
  apply keeps_bind; [|intros; apply IH].
  repeat keeps_step.
Qed.

Lemma keeps_scale_down_loop rs : forall consume, keeps R (scale_down_loop rs consume).
Proof.
  induction rs as [|r rs IH]; intros consume; simpl; [keeps_step|].
  apply keeps_bind; [keeps_step | intros s].
  destruct (negb (is_joined (deref (objects s) r))); [apply IH|].
  apply keeps_bind; [keeps_step | intros; apply IH].
Qed.

Lemma keeps_exec_generic name : keeps R (exec_generic name).
Proof.
  unfold exec_generic.
  apply keeps_bind; [destruct (name =? "config-change")%string; keeps_step|].
  intros _. apply keeps_bind.
  { destruct (name =? "scale+")%string; [|keeps_step].
    apply keeps_bind; [keeps_step | intros; apply keeps_scale_up_loop]. }
  intros _. apply keeps_bind.
  { destruct (name =? "scale-")%string; [|keeps_step].
    apply keeps_bind; [keeps_step | intros; apply keeps_scale_down_loop]. }
  intros consume. apply keeps_bind; [|intros; keeps_step].
  destruct (name =? "leadership_change")%string; repeat keeps_step.
Qed.

Lemma keeps_exec action consume : keeps R (_exec action consume).
Proof.
  unfold _exec. apply keeps_bind.
  { unfold record_action. repeat keeps_step. }
  intros _. apply keeps_bind.
  { destruct (subject action).
    - apply keeps_exec_generic.
    - apply keeps_exec_relation.
    - apply keeps_exec_storage.
    - keeps_step. }
  intros [|]; [|keeps_step].
  unfold consume_action. intros s g. unfold bind, get.
  destruct (set_remove (objects s) action (possible_actions s)) eqn:Hr; simpl.
  - eapply R_pool_remove; eauto.
  - apply R_refl.
Qed.

(** *** The phases *)

Hypothesis R_phase : forall v s, R s (set_phase v s).
Hypothesis R_closed : forall v s, R s (set_closed v s).

Lemma keeps_insert_in_phase ph item : keeps R (insert_in_phase ph item).
Proof.
  unfold insert_in_phase. apply keeps_bind; [keeps_step | intros s].
  apply keeps_bind; [apply keeps_reads_only, reads_only_random_insert | intros l].
  apply keeps_modify. intros. apply R_scenario.
Qed.

Lemma keeps_close_pebble_ready ph cs : keeps R (close_pebble_ready ph cs).
Proof.
  induction cs as [|c cs IH]; simpl; [keeps_step|].
  apply keeps_bind; [keeps_step | intros s].
  apply keeps_bind; [|intros; apply IH].
  match goal with |- keeps _ (if ?b then _ else _) => destruct b end;
    [keeps_step | apply keeps_insert_in_phase].
Qed.

Lemma keeps_close_phase ph : keeps R (_close_phase ph).
Proof.
  unfold _close_phase.
  apply keeps_bind; [apply keeps_modify; intros; apply R_closed | intros _].
  apply keeps_bind; [keeps_step | intros s].
  apply keeps_bind.
  { destruct (has_pebble s && _event_must_occur ph pebble_ready);
      [apply keeps_close_pebble_ready | keeps_step]. }
  intros _. apply keeps_bind; [keeps_step | intros s1].
  destruct (_event_must_occur ph update_status); [|keeps_step].
  destruct (kind_in_scenario update_status (trace (scenario s1) ph));
    [keeps_step | apply keeps_insert_in_phase].
Qed.

Lemma keeps_set_phase ph body : keeps R body -> keeps R (_set_phase ph body).
Proof.
  intros Hb. unfold _set_phase.
  apply keeps_bind; [keeps_step | intros s].
  apply keeps_bind; [apply keeps_modify; intros; apply R_phase | intros _].
  apply keeps_bind; [exact Hb | intros _].
  apply keeps_bind; [apply keeps_close_phase | intros _].
  apply keeps_modify; intros; apply R_phase.
Qed.

Lemma keeps_run_setup : keeps R _run_setup.
Proof. unfold _run_setup. repeat keeps_step. Qed.

Lemma keeps_run_teardown : keeps R _run_teardown.
Proof. unfold _run_teardown. repeat keeps_step. Qed.

Lemma keeps_repeat_body body : keeps R body -> forall k, keeps R (repeat_body k body).
Proof.
  intros Hb. induction k as [|k IH]; simpl; [keeps_step|].
  apply keeps_bind; auto.
Qed.

Lemma keeps_run_operation tuple_of : keeps R (_run_operation tuple_of).
Proof.
  unfold _run_operation. apply keeps_bind; [keeps_step | intros s].
  unfold while_le. apply keeps_repeat_body.
  unfold operation_step. apply keeps_bind; [keeps_step | intros s1].
  apply keeps_bind; [apply keeps_reads_only, reads_only_random_choice | intros a].
  apply keeps_exec.
Qed.

Lemma keeps_run tuple_of : keeps R (run tuple_of).
Proof.
  unfold run.
  apply keeps_bind; [apply keeps_set_phase, keeps_run_setup | intros _].
  apply keeps_bind; [apply keeps_set_phase, keeps_run_operation | intros _].
  apply keeps_set_phase, keeps_run_teardown.
Qed.

End Keeps.

(* ================================================================= *)
(** ** What the engine and a run leave alone *)

Lemma assign_is_joined_length h : forall r v,
  List.length (assign_is_joined h r v) = List.length h.
Proof.
  induction h as [|x h IH]; intros [|r] v; simpl; auto.
Qed.

Lemma assign_is_joined_identity h : forall r v r',
  rel_name (deref (assign_is_joined h r v) r') = rel_name (deref h r')
  /\ is_peer (deref (assign_is_joined h r v) r') = is_peer (deref h r').
Proof.
  unfold deref. induction h as [|x h IH]; intros [|r] v [|r']; simpl; auto.
Qed.

Lemma set_remove_incl h a : forall pool pool',
  set_remove h a pool = Some pool' -> incl pool' pool.
Proof.
  induction pool as [|x pool IH]; intros pool' H; simpl in H; [discriminate|].
  destruct (action_eqb h a x).
  - injection H as <-. apply incl_tl, incl_refl.
  - destruct (set_remove h a pool) as [p|]; [|discriminate].
    injection H as <-. intros y [<-|Hy]; [now left|right]. now apply (IH p).
Qed.

Lemma set_add_cases h a pool x :
  In x (set_add h a pool) -> In x pool \/ x = a.
Proof.
  unfold set_add. destruct (existsb (action_eqb h a) pool); auto.
  intros H. apply in_app_or in H. destruct H as [H|[<-|[]]]; auto.
Qed.

(** X1.  No executed action and no run lowers [scale]: the engine only
    ever adds to it, whatever the action and whether it returns or
    raises. *)
Theorem scale_never_decreases tuple_of :
  (forall action consume s g,
     (scale s <= scale (outcome (_exec action consume s g)))%Z)
  /\ (forall s g, (scale s <= scale (outcome (run tuple_of s g)))%Z).
Proof.
  split; intros.
  - apply (@keeps_exec scale_not_lower); unfold scale_not_lower;
      intros; simpl; lia.
  - apply (@keeps_run scale_not_lower); unfold scale_not_lower;
      intros; simpl; lia.
Qed.

(** X2.  No executed action and no run changes what the constructor
    fixed: [max_operation_length], the containers, the potential
    relations and storage mounts, the platform and [has_pebble]. *)
Theorem configuration_is_fixed tuple_of :
  (forall action consume s g,
     same_configuration s (outcome (_exec action consume s g)))
  /\ (forall s g, same_configuration s (outcome (run tuple_of s g))).
Proof.
  assert (Ht : forall s1 s2 s3, same_configuration s1 s2 ->
                 same_configuration s2 s3 -> same_configuration s1 s3).
  { unfold same_configuration.
    intros s1 s2 s3 (a1 & a2 & a3 & a4 & a5 & a6) (b1 & b2 & b3 & b4 & b5 & b6).
    repeat split; congruence. }
  split; intros.
  - apply (@keeps_exec same_configuration); auto;
      unfold same_configuration; intros; simpl; auto 10.
  - apply (@keeps_run same_configuration); auto;
      unfold same_configuration; intros; simpl; auto 10.
Qed.

(** X3.  No executed action and no run changes which relation objects
    exist, their names or their [is_peer]: only [is_joined] is ever
    assigned. *)
Theorem relation_identities_are_fixed tuple_of :
  (forall action consume s g,
     same_relation_identities s (outcome (_exec action consume s g)))
  /\ (forall s g, same_relation_identities s (outcome (run tuple_of s g))).
Proof.
  assert (Hr : forall s, same_relation_identities s s).
  { intros s. split; auto. }
  assert (Ht : forall s1 s2 s3, same_relation_identities s1 s2 ->
                 same_relation_identities s2 s3 -> same_relation_identities s1 s3).
  { unfold same_relation_identities. intros s1 s2 s3 [l1 n1] [l2 n2].
    split; [congruence|]. intros r.
    destruct (n1 r) as [a1 b1]. destruct (n2 r) as [a2 b2].
    split; congruence. }
  assert (Ho : forall r v s,
            same_relation_identities s
              (set_objects (assign_is_joined (objects s) r v) s)).
  { intros r v s. split; simpl.
    - apply assign_is_joined_length.
    - intros r'. apply assign_is_joined_identity. }
  split; intros.
  - apply (@keeps_exec same_relation_identities); auto;
      intros; split; simpl; auto.
  - apply (@keeps_run same_relation_identities); auto;
      intros; split; simpl; auto.
Qed.

(** X4.  The pool gains nothing but [scale-]: whatever is in the pool
    after an executed action or after a run was in it before, or is the
    scale-down action.  In particular no attach, detach, join or depart
    action is ever added for what was created or attached on the way. *)
Theorem pool_gains_only_scale_down tuple_of :
  (forall action consume s g,
     pool_gains_scale_down_only s (outcome (_exec action consume s g)))
  /\ (forall s g, pool_gains_scale_down_only s (outcome (run tuple_of s g))).
Proof.
  assert (Hr : forall s, pool_gains_scale_down_only s s).
  { intros s a Ha. now left. }
  assert (Ht : forall s1 s2 s3, pool_gains_scale_down_only s1 s2 ->
                 pool_gains_scale_down_only s2 s3 ->
                 pool_gains_scale_down_only s1 s3).
  { intros s1 s2 s3 H12 H23 a Ha. destruct (H23 a Ha) as [H|H]; auto. }
  assert (Ha : forall s, pool_gains_scale_down_only s
                 (set_possible_actions
                    (set_add (objects s) Action.scale_down (possible_actions s)) s)).
  { intros s a H. simpl in H. now apply set_add_cases in H. }
  assert (Hd : forall a pool s,
            set_remove (objects s) a (possible_actions s) = Some pool ->
            pool_gains_scale_down_only s (set_possible_actions pool s)).
  { intros a pool s H x Hx. simpl in Hx. left.
    eapply set_remove_incl; eauto. }
  split; intros.
  - apply (@keeps_exec pool_gains_scale_down_only); auto;
      intros; intros x Hx; now left.
  - apply (@keeps_run pool_gains_scale_down_only); auto;
      intros; intros x Hx; now left.
Qed.

(* ================================================================= *)
(** ** The pool as a set *)

Lemma source_eqb_eq a b : Source.eqb a b = true <-> a = b.
Proof. destruct a, b; simpl; split; intros H; try discriminate; auto. Qed.

Lemma relation_eqb_eq a b : Relation.eqb a b = true <-> a = b.
Proof.
  destruct a as [n1 p1 j1], b as [n2 p2 j2]. unfold Relation.eqb. simpl.
  rewrite !andb_true_iff, String.eqb_eq, !Bool.eqb_true_iff.
  split; [intros [[-> ->] ->]; auto | intros H; injection H; auto].
Qed.

Lemma rel_same_refl h r : rel_same h r r = true.
Proof. unfold rel_same. now rewrite Nat.eqb_refl. Qed.

Lemma rel_same_sym h a b : rel_same h a b = rel_same h b a.
Proof.
  unfold rel_same. rewrite (Nat.eqb_sym a b). f_equal.
  destruct (Relation.eqb (deref h a) (deref h b)) eqn:H1,
           (Relation.eqb (deref h b) (deref h a)) eqn:H2; auto.
  - apply relation_eqb_eq in H1. rewrite H1 in H2.
    assert (Relation.eqb (deref h b) (deref h b) = true)
      by now apply relation_eqb_eq.
    congruence.
  - apply relation_eqb_eq in H2. rewrite H2 in H1.
    assert (Relation.eqb (deref h a) (deref h a) = true)
      by now apply relation_eqb_eq.
    congruence.
Qed.

Lemma subject_eqb_refl h a : subject_eqb h a a = true.
Proof.
  destruct a; simpl; auto using rel_same_refl, Nat.eqb_refl.
  apply String.eqb_refl.
Qed.

Lemma subject_eqb_sym h a b : subject_eqb h a b = subject_eqb h b a.
Proof.
  destruct a, b; simpl; auto using rel_same_sym, Nat.eqb_sym.
  unfold StorageMount.eqb. apply String.eqb_sym.
Qed.

Lemma source_eqb_sym a b : Source.eqb a b = Source.eqb b a.
Proof. destruct a, b; reflexivity. Qed.

Lemma action_eqb_refl h a : action_eqb h a a = true.
Proof.
  unfold action_eqb. rewrite subject_eqb_refl, String.eqb_refl. simpl.
  now apply source_eqb_eq.
Qed.

Lemma action_eqb_sym h a b : action_eqb h a b = action_eqb h b a.
Proof.
  unfold action_eqb.
  now rewrite subject_eqb_sym, String.eqb_sym, source_eqb_sym.
Qed.

Lemma existsb_false_forall {T} (f : T -> bool) l :
  existsb f l = false -> forall y, In y l -> f y = false.
Proof.
  intros H y Hy. destruct (f y) eqn:Hf; auto.
  assert (existsb f l = true) by (apply existsb_exists; eauto). congruence.
Qed.

Lemma distinct_app_one h l a :
  distinct h l -> (forall y, In y l -> action_eqb h a y = false) ->
  distinct h (l ++ [a]).
Proof.
  induction 1 as [|x l Hx Hl IH]; intros Ha; simpl.
  - constructor; [intros y []|constructor].
  - constructor.
    + intros y Hy. apply in_app_or in Hy. destruct Hy as [Hy|[<-|[]]]; auto.
      rewrite action_eqb_sym. apply Ha. now left.
    + apply IH. intros y Hy. apply Ha. now right.
Qed.

Lemma distinct_set_add h a pool : distinct h pool -> distinct h (set_add h a pool).
Proof.
  intros Hd. unfold set_add.
  destruct (existsb (action_eqb h a) pool) eqn:He; auto.
  apply distinct_app_one; auto. now apply existsb_false_forall.
Qed.

Lemma distinct_fold h l : forall acc,
  distinct h acc -> distinct h (fold_left (fun pool a => set_add h a pool) l acc).
Proof.
  induction l as [|x l IH]; intros acc Hd; simpl; auto using distinct_set_add.
Qed.

Lemma set_of_list_incl h l : forall acc x,
  In x (fold_left (fun pool a => set_add h a pool) l acc) -> In x l \/ In x acc.
Proof.
  induction l as [|y l IH]; intros acc x Hx; simpl in *; auto.
  apply IH in Hx. destruct Hx as [Hx|Hx]; auto.
  apply set_add_cases in Hx. destruct Hx as [Hx| ->]; auto.
Qed.

(** Removing an element of a set succeeds, and leaves a set that holds
    nothing equal to it. *)
Lemma set_remove_distinct h a : forall pool,
  distinct h pool -> In a pool ->
  exists pool',
    set_remove h a pool = Some pool'
    /\ distinct h pool'
    /\ incl pool' pool
    /\ (forall y, In y pool' -> action_eqb h a y = false).
Proof.
  induction pool as [|x pool IH]; intros Hd Ha; [contradiction|].
  inversion Hd as [|x' l' Hx Hl]; subst. simpl.
  destruct (action_eqb h a x) eqn:Hax.
  - exists pool. split; auto. split; auto. split; [apply incl_tl, incl_refl|].
    intros y Hy. destruct Ha as [->|Ha]; auto.
    rewrite action_eqb_sym in Hax. rewrite (Hx a Ha) in Hax. discriminate.
  - destruct Ha as [->|Ha]; [rewrite action_eqb_refl in Hax; discriminate|].
    destruct (IH Hl Ha) as (p & Hr & Hdp & Hi & Hn).
    rewrite Hr. simpl. exists (x :: p). split; auto. split; [|split].
    + constructor; auto.
    + intros y [<-|Hy]; [now left | right; auto].
    + intros y [<-|Hy]; auto.
Qed.

(* ================================================================= *)
(** ** The branches of [_exec] on the actions of the pool *)

Lemma exec_unfold action consume s g ph :
  phase s = Some ph ->
  _exec action consume s g =
  bind
    (match subject action with
     | SRel subject => exec_relation subject (act_name action) consume
     | SSto subject => exec_storage subject (act_name action) consume
     | SNone => exec_generic (act_name action)
     | SOther _ => raise (ValueError "no action known for type")
     end)
    (fun consume => if consume then consume_action action else ret tt)
    (extend_scenario ph [A action] s) g.
Proof.
  intros Hph. unfold _exec. unfold bind at 1. unfold record_action, bind at 1, get.
  rewrite Hph. reflexivity.
Qed.

Lemma storage_in_refl m l : In m l -> storage_in m l = true.
Proof.
  intros H. apply existsb_exists. exists m. split; auto.
  apply String.eqb_refl.
Qed.

Lemma storage_in_app m l1 l2 :
  storage_in m (l1 ++ l2) = storage_in m l1 || storage_in m l2.
Proof. apply existsb_app. Qed.

Lemma storage_in_filter_false m f l :
  storage_in m l = false -> storage_in m (filter f l) = false.
Proof.
  intros H. apply not_true_is_false. intros Hf.
  apply existsb_exists in Hf. destruct Hf as (x & Hx & Hxe).
  apply filter_In in Hx. destruct Hx as [Hx _].
  assert (storage_in m l = true) by (apply existsb_exists; eauto).
  congruence.
Qed.

Lemma detach_filter m l :
  filter (fun r => negb (storage_in r [m])) l
  = filter (fun r => negb (StorageMount.eqb m r)) l.
Proof.
  apply filter_ext. intros r. unfold storage_in. simpl.
  now rewrite orb_false_r.
Qed.

(** Detaching [m] leaves attached whatever is not equal to [m]. *)
Lemma storage_in_detached m m' l :
  StorageMount.eqb m m' = false ->
  storage_in m' (filter (fun r => negb (storage_in r [m])) l) = storage_in m' l.
Proof.
  intros Hne. rewrite detach_filter. unfold storage_in.
  induction l as [|x l IH]; simpl; auto.
  destruct (StorageMount.eqb m x) eqn:Hmx; simpl.
  - rewrite IH. destruct (StorageMount.eqb x m') eqn:Hxm; auto.
    unfold StorageMount.eqb in *.
    apply String.eqb_eq in Hmx, Hxm. rewrite Hmx, Hxm in Hne.
    rewrite String.eqb_refl in Hne. discriminate.
  - now rewrite IH.
Qed.

(** Detaching [m] leaves nothing equal to [m] attached. *)
Lemma storage_in_detached_self m l :
  storage_in m (filter (fun r => negb (storage_in r [m])) l) = false.
Proof.
  rewrite detach_filter. unfold storage_in.
  induction l as [|x l IH]; simpl; auto.
  destruct (StorageMount.eqb m x) eqn:Hmx; simpl; auto.
  rewrite IH, orb_false_r. unfold StorageMount.eqb in *.
  now rewrite String.eqb_sym.
Qed.

Lemma branch_detach m consume s g ph :
  phase s = Some ph ->
  storage_in m (storage_mounts s) = true ->
  exists bg g',
    exec_storage m "detach" consume s g
    = Ok consume
        (extend_scenario ph (bg ++ [E (StorageMount.detached m)])
           (set_storage_mounts
              (filter (fun r => negb (storage_in r [m])) (storage_mounts s)) s))
        g'
    /\ all_background bg.
Proof.
  intros Hph Hin. unfold exec_storage. rewrite bind_get.
  cbn [String.eqb Ascii.eqb Bool.eqb]. rewrite Hin. cbn [negb].
  unfold detach_storage. unfold bind at 1. unfold modify at 1.
  match goal with
  | |- exists _ _, bind _ _ ?s1 _ = _ /\ _ =>
      destruct (@queue_exact (StorageMount.detached m) None None s1 g ph Hph)
        as (bg & g' & Hq & Hbg)
  end.
  rewrite (bind_ok _ _ _ _ Hq). exists bg, g'. split; auto.
Qed.

Lemma branch_attach m consume s g ph :
  phase s = Some ph ->
  storage_in m (storage_mounts s) = false ->
  exists bg g',
    exec_storage m "attach" consume s g
    = Ok consume
        (extend_scenario ph (bg ++ [E (StorageMount.attached m)])
           (set_storage_mounts (storage_mounts s ++ [m]) s))
        g'
    /\ all_background bg.
Proof.
  intros Hph Hin. unfold exec_storage. rewrite bind_get.
  cbn [String.eqb Ascii.eqb Bool.eqb]. rewrite Hin.
  unfold attach_storage. unfold bind at 1. unfold modify at 1.
  match goal with
  | |- exists _ _, bind _ _ ?s1 _ = _ /\ _ =>
      destruct (@queue_exact (StorageMount.attached m) None None s1 g ph Hph)
        as (bg & g' & Hq & Hbg)
  end.
  rewrite (bind_ok _ _ _ _ Hq). exists bg, g'. split; auto.
Qed.

Lemma branch_attach_again m consume s g :
  storage_in m (storage_mounts s) = true ->
  exec_storage m "attach" consume s g = Err reattach_error s g.
Proof.
  intros Hin. unfold exec_storage. rewrite bind_get.
  cbn [String.eqb Ascii.eqb Bool.eqb]. rewrite Hin. reflexivity.
Qed.

Lemma branch_detach_unknown m consume s g :
  storage_in m (storage_mounts s) = false ->
  exec_storage m "detach" consume s g
  = Err (RuntimeError "attempting to detach unknown storage") s g.
Proof.
  intros Hin. unfold exec_storage. rewrite bind_get.
  cbn [String.eqb Ascii.eqb Bool.eqb]. rewrite Hin. reflexivity.
Qed.

Lemma branch_change r consume s g ph :
  phase s = Some ph ->
  exists bg g',
    exec_relation r "change" consume s g
    = Ok false
        (extend_scenario ph (bg ++ [E (Relation.changed (deref (objects s) r))]) s)
        g'
    /\ all_background bg.
Proof.
  intros Hph. unfold exec_relation. rewrite bind_get.
  cbn [String.eqb Ascii.eqb Bool.eqb].
  destruct (@queue_exact (Relation.changed (deref (objects s) r)) None None s g ph Hph)
    as (bg & g' & Hq & Hbg).
  rewrite (bind_ok _ _ _ _ Hq). exists bg, g'. split; auto.
Qed.

Lemma branch_create r consume s g ph :
  phase s = Some ph ->
  exists bg g',
    exec_relation r "create" consume s g
    = Ok consume
        (set_relations (relations s ++ [r])
           (extend_scenario ph
              (bg ++ [E (Relation.created (deref (objects s) r))]) s))
        g'
    /\ all_background bg.
Proof.
  intros Hph. unfold exec_relation. rewrite bind_get.
  cbn [String.eqb Ascii.eqb Bool.eqb].
  destruct (@queue_exact (Relation.created (deref (objects s) r)) None None s g ph Hph)
    as (bg & g' & Hq & Hbg).
  rewrite (bind_ok _ _ _ _ Hq). exists bg, g'. split; auto.
Qed.

Lemma branch_destroy r consume s g ph :
  phase s = Some ph ->
  exists bg g',
    exec_relation r "break" consume s g
    = Ok consume
        (extend_scenario ph (bg ++ [E (Relation.broken (deref (objects s) r))])
           (set_relations
              (filter (fun x => negb (rel_in (objects s) x [r])) (relations s)) s))
        g'
    /\ all_background bg.
Proof.
  intros Hph. unfold exec_relation. rewrite bind_get.
  cbn [String.eqb Ascii.eqb Bool.eqb].
  unfold remove_relation. unfold bind at 1. unfold modify at 1.
  match goal with
  | |- exists _ _, bind _ _ ?s1 _ = _ /\ _ =>
      destruct (@queue_exact (Relation.broken (deref (objects s) r)) None None
                  s1 g ph Hph) as (bg & g' & Hq & Hbg)
  end.
  rewrite (bind_ok _ _ _ _ Hq). exists bg, g'. split; auto.
Qed.

Lemma set_add_idem h a pool : set_add h a (set_add h a pool) = set_add h a pool.
Proof.
  unfold set_add. destruct (existsb (action_eqb h a) pool) eqn:He.
  - now rewrite He.
  - rewrite existsb_app. simpl.
    now rewrite action_eqb_refl, orb_true_r.
Qed.

Lemma generic_step_refl s : generic_step s s.
Proof. repeat split; auto. Qed.

Lemma generic_step_trans s1 s2 s3 :
  generic_step s1 s2 -> generic_step s2 s3 -> generic_step s1 s3.
Proof.
  intros (a1 & a2 & a3 & a4) (b1 & b2 & b3 & b4).
  repeat split; try congruence.
  rewrite a3 in b4. destruct a4 as [a4|a4], b4 as [b4|b4]; rewrite b4, a4; auto.
  right. apply set_add_idem.
Qed.

(** A generic action never raises; besides the traces it changes
    leadership, scale and the pool, by [scale-]. *)
Lemma branch_generic name s g ph :
  phase s = Some ph ->
  exists consume s' g',
    exec_generic name s g = Ok consume s' g'
    /\ phase s' = Some ph
    /\ generic_step s s'
    /\ (consume = true -> name = "scale-").
Proof.
  intros Hph.
  pose proof (@spec_exec_generic ph good_op never good_op_nil good_op_app
                good_op_background good_op_event good_op_pair name s g Hph) as Hs.
  pose proof (@keeps_exec_generic generic_step generic_step_refl
                generic_step_trans
                (fun v s => generic_step_refl _)
                (fun v s => generic_step_refl _)
                (fun s => generic_step_refl _)) as Hk.
  assert (Hadd : forall s0, generic_step s0
            (set_possible_actions
               (set_add (objects s0) Action.scale_down (possible_actions s0)) s0)).
  { intros s0. repeat split; auto. }
  specialize (Hk Hadd name s g).
  destruct (exec_generic name s g) as [c s' g'|e s' g']; simpl in Hk.
  - destruct Hs as [He Hc]. exists c, s', g'. split; auto.
    split; [rewrite (eff_phase He); auto | auto].
  - destruct Hs as [_ []].
Qed.

(* ================================================================= *)
(** ** One turn of the operation phase keeps the pool in order *)

Lemma legal_transfer s s' y :
  (forall m, y = StorageMount.detach m ->
             storage_in m (storage_mounts s) = true ->
             storage_in m (storage_mounts s') = true) ->
  legal s y -> legal s' y.
Proof.
  intros Hd Hl. destruct Hl; try constructor. apply (Hd m eq_refl). assumption.
Qed.

Lemma consume_in_pool a s g :
  distinct (objects s) (possible_actions s) -> In a (possible_actions s) ->
  exists pool',
    consume_action a s g = Ok tt (set_possible_actions pool' s) g
    /\ set_remove (objects s) a (possible_actions s) = Some pool'
    /\ distinct (objects s) pool'
    /\ incl pool' (possible_actions s)
    /\ (forall y, In y pool' -> action_eqb (objects s) a y = false).
Proof.
  intros Hd Ha.
  destruct (@set_remove_distinct (objects s) a (possible_actions s) Hd Ha)
    as (pool' & Hr & H1 & H2 & H3).
  exists pool'. unfold consume_action, bind, get. rewrite Hr. auto.
Qed.

Lemma attach_eqb h m m' :
  action_eqb h (StorageMount.attach m) (StorageMount.attach m')
  = StorageMount.eqb m m'.
Proof. unfold action_eqb. simpl. now rewrite !andb_true_r. Qed.

Lemma detach_eqb h m m' :
  action_eqb h (StorageMount.detach m) (StorageMount.detach m')
  = StorageMount.eqb m m'.
Proof. unfold action_eqb. simpl. now rewrite !andb_true_r. Qed.

Lemma consumable_storage m name src : consumable (mkAction (SSto m) name src).
Proof. left. discriminate. Qed.

Lemma consumable_relation r name src : consumable (mkAction (SRel r) name src).
Proof. left. discriminate. Qed.

Lemma exec_pool_step action s g ph :
  phase s = Some ph -> pool_ok s -> In action (possible_actions s) ->
  step_post ph s (_exec action true s g).
Proof.
  intros Hph [Hlegal Hdist Hglob] Ha.
  rewrite (@exec_unfold action true s g ph Hph).
  set (s0 := extend_scenario ph [A action] s).
  assert (Hph0 : phase s0 = Some ph) by exact Hph.
  destruct (Hlegal action Ha) as [m Hm|m|r src|r|r|name src];
    cbn [subject act_name StorageMount.detach StorageMount.attach
         Relation.destroy Relation.create].
  - (* detach *)
    destruct (@branch_detach m true s0 g ph Hph0 Hm) as (bg & g1 & Hb & _).
    rewrite (bind_ok _ _ _ _ Hb).
    match goal with |- step_post _ _ (consume_action _ ?x _) => set (s1 := x) end.
    destruct (@consume_in_pool (StorageMount.detach m) s1 g1 Hdist Ha)
      as (pool' & Hc & Hr & Hd' & Hi & Hn).
    rewrite Hc. simpl. split; [exact Hph|]. split; [|split; [|reflexivity]].
    + split; simpl.
      * intros y Hy. apply legal_transfer with (s := s); auto.
        intros m' -> Hm'.
        change (storage_in m'
                  (filter (fun r => negb (storage_in r [m])) (storage_mounts s))
                = true).
        rewrite storage_in_detached; auto.
        rewrite <- (detach_eqb (objects s)). now apply Hn.
      * exact Hd'.
      * eapply has_globals_remove; eauto using consumable_storage.
    + intros Hok m' Hm'. simpl. apply storage_in_filter_false.
      apply Hok. now apply Hi.
  - (* attach *)
    destruct (storage_in m (storage_mounts s)) eqn:Hm.
    + unfold bind. rewrite (@branch_attach_again m true s0 g Hm).
      simpl. split; [reflexivity|]. split; [|reflexivity].
      intros Hok. rewrite (Hok m Ha) in Hm. discriminate.
    + destruct (@branch_attach m true s0 g ph Hph0 Hm) as (bg & g1 & Hb & _).
      rewrite (bind_ok _ _ _ _ Hb).
      match goal with |- step_post _ _ (consume_action _ ?x _) => set (s1 := x) end.
      destruct (@consume_in_pool (StorageMount.attach m) s1 g1 Hdist Ha)
        as (pool' & Hc & Hr & Hd' & Hi & Hn).
      rewrite Hc. simpl. split; [exact Hph|]. split; [|split; [|reflexivity]].
      * split; simpl.
        -- intros y Hy. apply legal_transfer with (s := s); auto.
           intros m' -> Hm'. simpl. rewrite storage_in_app, Hm'. reflexivity.
        -- exact Hd'.
        -- eapply has_globals_remove; eauto using consumable_storage.
      * intros Hok m' Hm'. simpl. rewrite storage_in_app.
        rewrite (Hok m' (Hi _ Hm')). simpl. unfold storage_in. simpl.
        rewrite orb_false_r. rewrite <- (attach_eqb (objects s)). now apply Hn.
  - (* change *)
    destruct (@branch_change r true s0 g ph Hph0) as (bg & g1 & Hb & _).
    rewrite (bind_ok _ _ _ _ Hb). simpl.
    split; [exact Hph|]. split; [|split; [auto|reflexivity]].
    split; simpl; auto.
    intros y Hy. apply legal_transfer with (s := s); auto.
  - (* break *)
    destruct (@branch_destroy r true s0 g ph Hph0) as (bg & g1 & Hb & _).
    rewrite (bind_ok _ _ _ _ Hb).
    match goal with |- step_post _ _ (consume_action _ ?x _) => set (s1 := x) end.
    destruct (@consume_in_pool (Relation.destroy r) s1 g1 Hdist Ha)
      as (pool' & Hc & Hr & Hd' & Hi & Hn).
    rewrite Hc. simpl. split; [exact Hph|]. split; [|split; [|reflexivity]].
    + split; simpl.
      * intros y Hy. apply legal_transfer with (s := s); auto.
      * exact Hd'.
      * eapply has_globals_remove; eauto using consumable_relation.
    + intros Hok m' Hm'. simpl. apply Hok. now apply Hi.
  - (* create *)
    destruct (@branch_create r true s0 g ph Hph0) as (bg & g1 & Hb & _).
    rewrite (bind_ok _ _ _ _ Hb).
    match goal with |- step_post _ _ (consume_action _ ?x _) => set (s1 := x) end.
    destruct (@consume_in_pool (Relation.create r) s1 g1 Hdist Ha)
      as (pool' & Hc & Hr & Hd' & Hi & Hn).
    rewrite Hc. simpl. split; [exact Hph|]. split; [|split; [|reflexivity]].
    + split; simpl.
      * intros y Hy. apply legal_transfer with (s := s); auto.
      * exact Hd'.
      * eapply has_globals_remove; eauto using consumable_relation.
    + intros Hok m' Hm'. simpl. apply Hok. now apply Hi.
  - (* generic *)
    destruct (@branch_generic name s0 g ph Hph0)
      as (c & s1 & g1 & Hb & Hph1 & (Hst & Hrel & Hobj & Hpool) & Hname).
    rewrite (bind_ok _ _ _ _ Hb).
    assert (Hok1 : pool_ok s1).
    { split.
      - intros y Hy. apply legal_transfer with (s := s).
        + intros m' _ Hm'. now rewrite Hst.
        + destruct Hpool as [Hp|Hp]; rewrite Hp in Hy.
          * now apply Hlegal.
          * apply set_add_cases in Hy. destruct Hy as [Hy| ->];
              [now apply Hlegal | constructor].
      - rewrite Hobj. destruct Hpool as [Hp|Hp]; rewrite Hp; auto.
        now apply distinct_set_add.
      - destruct Hpool as [Hp|Hp]; rewrite Hp; auto.
        eapply has_globals_incl; [|exact Hglob].
        intros y Hy. now apply set_add_keeps. }
    assert (Hat1 : attach_ok s -> attach_ok s1).
    { intros Hok m' Hm'. rewrite Hst. apply Hok.
      destruct Hpool as [Hp|Hp]; rewrite Hp in Hm'; auto.
      apply set_add_cases in Hm'. destruct Hm' as [Hm'|Hm']; auto. discriminate. }
    assert (Ha1 : In (mkAction SNone name src) (possible_actions s1)).
    { destruct Hpool as [Hp|Hp]; rewrite Hp; auto. now apply set_add_keeps. }
    destruct c.
    + destruct Hok1 as [Hl1 Hd1 Hg1].
      destruct (@consume_in_pool (mkAction SNone name src) s1 g1 Hd1 Ha1)
        as (pool' & Hc & Hr & Hd' & Hi & Hn).
      rewrite Hc. simpl. split; [exact Hph1|].
      split; [|split; [|exact Hobj]].
      * split; simpl.
        -- intros y Hy. apply legal_transfer with (s := s1); auto.
        -- exact Hd'.
        -- eapply has_globals_remove; eauto.
           right. simpl. now apply Hname.
      * intros Hok m' Hm'. simpl. apply (Hat1 Hok). now apply Hi.
    + simpl. auto.
Qed.

(* ================================================================= *)
(** ** The pool of a constructed simulator *)

Lemma relation_changes_shape : forall rs g l g' a,
  relation_changes rs g = (l, g') -> In a l ->
  exists r src, a = mkAction (SRel r) "change" src.
Proof.
  induction rs as [|r rs IH]; intros g l g' a H Ha; simpl in H.
  - injection H as <- _. contradiction.
  - destruct (Relation.change r g) as [x g1] eqn:Hx.
    destruct (relation_changes rs g1) as [l' g2] eqn:Hl.
    injection H as <- _. destruct Ha as [<-|Ha]; [|eauto].
    unfold Relation.change in Hx.
    destruct (choice [this_charm; other_charm] g) as [[src g0]|];
      injection Hx as <- _; eauto.
Qed.

Lemma init_pool c g s g' :
  __init__ c g = inr (s, g') ->
  pool_ok s
  /\ objects s = cfg_objects c
  /\ (potential_storage_is_detached c -> attach_ok s).
Proof.
  intros Hi. pose proof (init_fresh _ _ Hi) as [_ _ _ _ Hg].
  revert Hi Hg. unfold __init__.
  destruct (negb (cfg_scale c >=? 1)%Z); [discriminate|].
  destruct (existsb _ (cfg_potential_relations c)); [discriminate|].
  destruct (relation_changes (cfg_relations c) g) as [chg g1] eqn:Hchg.
  unfold Action.leadership_change.
  destruct (Source.random g1) as [src g2].
  intros H. injection H as <- _. simpl.
  match goal with
  | |- has_globals (if _ then set_add _ _ (set_of_list _ ?l) else _) -> _ =>
      set (actions := l)
  end.
  intros Hg.
  assert (Hin : forall a,
            In a (if (cfg_scale c >? 1)%Z
                  then set_add (cfg_objects c) Action.scale_down
                         (set_of_list (cfg_objects c) actions)
                  else set_of_list (cfg_objects c) actions) ->
            In a actions \/ a = Action.scale_down).
  { intros a Ha. destruct (cfg_scale c >? 1)%Z.
    - apply set_add_cases in Ha. destruct Ha as [Ha|Ha]; auto.
      apply set_of_list_incl in Ha. destruct Ha as [Ha|[]]; auto.
    - apply set_of_list_incl in Ha. destruct Ha as [Ha|[]]; auto. }
  split; [split; simpl|split; [reflexivity|]]; auto.
  - intros a Ha. apply Hin in Ha. destruct Ha as [Ha| ->]; [|constructor].
    unfold actions in Ha.
    apply in_app_or in Ha; destruct Ha as [Ha|Ha];
      [|apply in_app_or in Ha; destruct Ha as [Ha|Ha];
        [|apply in_app_or in Ha; destruct Ha as [Ha|Ha];
          [|destruct Ha as [Ha|[Ha|[Ha|Ha]]];
            [| | |apply in_app_or in Ha; destruct Ha as [Ha|Ha]]]]].
    + apply in_map_iff in Ha. destruct Ha as (m & <- & Hm).
      constructor. now apply storage_in_refl.
    + destruct (relation_changes_shape _ _ _ Hchg Ha) as (r & sr & ->). constructor.
    + apply in_map_iff in Ha. destruct Ha as (r & <- & _). constructor.
    + subst a. constructor.
    + subst a. constructor.
    + subst a. constructor.
    + apply in_map_iff in Ha. destruct Ha as (r & <- & _). constructor.
    + apply in_map_iff in Ha. destruct Ha as (m & <- & _). constructor.
  - destruct (cfg_scale c >? 1)%Z.
    + apply distinct_set_add. apply distinct_fold. constructor.
    + apply distinct_fold. constructor.
  - intros Hp m Hm. simpl in *. apply Hp.
    apply Hin in Hm. destruct Hm as [Hm|Hm]; [|discriminate].
    unfold actions in Hm.
    apply in_app_or in Hm; destruct Hm as [Hm|Hm];
      [|apply in_app_or in Hm; destruct Hm as [Hm|Hm];
        [|apply in_app_or in Hm; destruct Hm as [Hm|Hm];
          [|destruct Hm as [Hm|[Hm|[Hm|Hm]]];
            [| | |apply in_app_or in Hm; destruct Hm as [Hm|Hm]]]]].
    + apply in_map_iff in Hm. destruct Hm as (m' & Heq & _). discriminate.
    + destruct (relation_changes_shape _ _ _ Hchg Hm) as (r & sr & Heq). discriminate.
    + apply in_map_iff in Hm. destruct Hm as (r & Heq & _). discriminate.
    + discriminate.
    + discriminate.
    + discriminate.
    + apply in_map_iff in Hm. destruct Hm as (r & Heq & _). discriminate.
    + apply in_map_iff in Hm. destruct Hm as (m' & Heq & Hm').
      injection Heq as ->. exact Hm'.
Qed.

(* ================================================================= *)
(** ** The pool through the phases of a run *)

Lemma same_core_refl s : same_core s s.
Proof. repeat split. Qed.

Lemma same_core_trans s1 s2 s3 :
  same_core s1 s2 -> same_core s2 s3 -> same_core s1 s3.
Proof.
  intros (a1 & a2 & a3 & a4 & a5 & a6) (b1 & b2 & b3 & b4 & b5 & b6).
  repeat split; congruence.
Qed.

Lemma pool_ok_core s s' : same_core s s' -> pool_ok s -> pool_ok s'.
Proof.
  intros (Hp & Hs & _ & Ho & _) [Hl Hd Hg]. split.
  - rewrite Hp. intros a Ha. apply legal_transfer with (s := s); auto.
    intros m _ Hm. now rewrite Hs.
  - now rewrite Hp, Ho.
  - now rewrite Hp.
Qed.

Lemma attach_ok_core s s' : same_core s s' -> attach_ok s -> attach_ok s'.
Proof.
  intros (Hp & Hs & _) Hok m Hm. rewrite Hs. apply Hok. now rewrite <- Hp.
Qed.

Lemma attach_ok_core_back s s' : same_core s s' -> attach_ok s' -> attach_ok s.
Proof.
  intros (Hp & Hs & _) Hok m Hm. rewrite <- Hs. apply Hok. now rewrite Hp.
Qed.

(** Setup and teardown touch the traces, the phase and the log only. *)
Lemma keeps_core_phase ph body :
  keeps same_core body -> keeps same_core (_set_phase ph body).
Proof.
  intros Hb. apply keeps_set_phase; auto using same_core_refl;
    try exact same_core_trans; intros; repeat split.
Qed.

Lemma keeps_core_setup : keeps same_core _run_setup.
Proof.
  apply keeps_run_setup; auto using same_core_refl;
    try exact same_core_trans; intros; repeat split.
Qed.

Lemma keeps_core_teardown : keeps same_core _run_teardown.
Proof.
  apply keeps_run_teardown; auto using same_core_refl;
    try exact same_core_trans; intros; repeat split.
Qed.

Section PoolLoop.

Variable tuple_of : list Action -> list Action.
Hypothesis tuple_lists : forall pool, Permutation (tuple_of pool) pool.

Lemma operation_step_pool s g ph :
  phase s = Some ph -> pool_ok s ->
  step_post ph s (operation_step tuple_of s g).
Proof.
  intros Hph Hok. unfold operation_step. rewrite bind_get.
  unfold bind, random_choice.
  assert (Hne : tuple_of (possible_actions s) <> []).
  { apply (permutation_lists_globals _ tuple_lists), (pool_globals Hok). }
  destruct (@choice_nonempty _ (tuple_of (possible_actions s)) g Hne)
    as (a & g1 & Hc).
  rewrite Hc. apply exec_pool_step; auto.
  apply choice_in in Hc. eapply Permutation_in; eauto.
Qed.

Lemma repeat_body_pool ph : forall k s g,
  phase s = Some ph -> pool_ok s ->
  step_post ph s (repeat_body k (operation_step tuple_of) s g).
Proof.
  induction k as [|k IH]; intros s g Hph Hok; simpl.
  - auto.
  - unfold bind. pose proof (operation_step_pool g Hph Hok) as H1.
    destruct (operation_step tuple_of s g) as [[] s1 g1|e s1 g1]; simpl in H1;
      [|exact H1].
    destruct H1 as (Hph1 & Hok1 & Hat1 & Hobj1).
    pose proof (IH s1 g1 Hph1 Hok1) as H2.
    destruct (repeat_body k (operation_step tuple_of) s1 g1)
      as [[] s2 g2|e s2 g2]; simpl in H2 |- *.
    + destruct H2 as (Hph2 & Hok2 & Hat2 & Hobj2).
      split; [exact Hph2|]. split; [exact Hok2|]. split; [auto|congruence].
    + destruct H2 as (He & Hat2 & Hobj2).
      split; [exact He|]. split; [|congruence].
      intros H. apply Hat2, Hat1, H.
Qed.

Lemma operation_phase_pool s g :
  pool_ok s ->
  run_pool_post s (_set_phase operation (_run_operation tuple_of) s g).
Proof.
  intros Hok.
  set (s0 := set_phase (Some operation) s).
  assert (Hc0 : same_core s s0) by (repeat split).
  pose proof (@run_operation_outcome tuple_of s0 g eq_refl) as (L & J & Ha & C).
  assert (Hp : step_post operation s0 (_run_operation tuple_of s0 g)).
  { unfold _run_operation. rewrite bind_get. unfold while_le.
    apply repeat_body_pool; [reflexivity | now apply (pool_ok_core Hc0)]. }
  destruct (_run_operation tuple_of s0 g) as [[] s1 g1|e s1 g1] eqn:Hb;
    simpl in Ha, Hp.
  - destruct (@set_phase_returns operation _ s g s1 g1 L Hb Ha)
      as (s' & g' & Hs & Hd); [discriminate|].
    rewrite Hs. simpl.
    destruct Hp as (Hph1 & Hok1 & Hat1 & Hobj1).
    rewrite set_phase_unfold in Hs. fold s0 in Hs. rewrite Hb in Hs.
    destruct (_close_phase operation s1 g1) as [[] s2 g2|e s2 g2] eqn:Hcl;
      [|discriminate].
    injection Hs as <- <-.
    pose proof (@keeps_close_phase same_core same_core_refl same_core_trans)
      as Hkc.
    assert (Hc2 : same_core s1 s2).
    { specialize (Hkc (fun v s => ltac:(repeat split))
                      (fun v s => ltac:(repeat split)) operation s1 g1).
      now rewrite Hcl in Hkc. }
    assert (Hc3 : same_core s1 (set_phase (phase s) s2)).
    { eapply same_core_trans; [exact Hc2 | repeat split]. }
    split; [now apply (pool_ok_core Hc3)|]. split.
    + intros Hat. apply (attach_ok_core Hc3), Hat1, (attach_ok_core Hc0), Hat.
    + destruct Hc3 as (_ & _ & _ & Ho & _). rewrite Ho. exact Hobj1.
  - rewrite (set_phase_raises _ _ _ _ Hb). simpl.
    destruct Hp as (He & Hat & Hobj). split; [exact He|]. split; [|split].
    + now rewrite (app_phase Ha).
    + intros H. apply Hat, (attach_ok_core Hc0), H.
    + exact Hobj.
Qed.

End PoolLoop.

Lemma run_pool tuple_of s g :
  (forall pool, Permutation (tuple_of pool) pool) ->
  pool_ok s -> run_pool_post s (run tuple_of s g).
Proof.
  intros Hperm Hok. unfold run.
  destruct (setup_phase_outcome s g) as (L1 & s1 & g1 & H1 & _ & _).
  rewrite (bind_ok _ _ _ _ H1).
  pose proof (keeps_core_phase setup keeps_core_setup s g) as Hc1.
  rewrite H1 in Hc1. simpl in Hc1.
  pose proof (@operation_phase_pool tuple_of Hperm s1 g1 (pool_ok_core Hc1 Hok)) as H2.
  unfold bind.
  destruct (_set_phase operation (_run_operation tuple_of) s1 g1)
    as [[] s2 g2|e s2 g2]; simpl in H2 |- *.
  - destruct H2 as (Hok2 & Hat2 & Hobj2).
    destruct (teardown_phase_outcome s2 g2) as (pre & mid & s3 & g3 & H3 & _).
    pose proof (keeps_core_phase teardown keeps_core_teardown s2 g2) as Hc3.
    rewrite H3 in Hc3 |- *. simpl in Hc3 |- *.
    split; [now apply (pool_ok_core Hc3)|]. split.
    + intros Hat. apply (attach_ok_core Hc3), Hat2, (attach_ok_core Hc1), Hat.
    + destruct Hc1 as (_ & _ & _ & Ho1 & _), Hc3 as (_ & _ & _ & Ho3 & _).
      congruence.
  - destruct H2 as (He & Hph & Hat & Hobj).
    split; [exact He|]. split; [exact Hph|]. split.
    + intros H. apply Hat, (attach_ok_core Hc1), H.
    + destruct Hc1 as (_ & _ & _ & Ho1 & _). congruence.
Qed.

Lemma some_true_or_all_false {T} (f : T -> bool) (l : list T) :
  ~ (forall x, In x l -> f x = false) -> exists x, In x l /\ f x = true.
Proof.
  intros H. destruct (existsb f l) eqn:He.
  - apply existsb_exists in He. exact He.
  - exfalso. apply H. intros x Hx.
    destruct (f x) eqn:Hf; auto.
    assert (existsb f l = true) by (apply existsb_exists; eauto). congruence.
Qed.

(* ================================================================= *)
(** ** How a run of a constructed simulator ends *)

(** X6.  When no potential storage mount of the configuration is equal
    to a storage mount that is attached from the start, and the pool is
    listed with exactly its elements, [run()] on the constructed
    simulator returns: no draw finds the pool empty, no action of the
    pool is unknown to the engine, no [remove] misses its element, no
    storage mount is attached twice or detached when absent. *)
Theorem run_returns_without_attached_potential tuple_of c g s g1 :
  (forall pool, Permutation (tuple_of pool) pool) ->
  __init__ c g = inr (s, g1) ->
  potential_storage_is_detached c ->
  exists s' g', run tuple_of s g1 = Ok tt s' g'.
Proof.
  intros Hperm Hi Hpot.
  destruct (init_pool _ _ Hi) as (Hok & _ & Hat).
  pose proof (@run_pool tuple_of s g1 Hperm Hok) as H.
  destruct (run tuple_of s g1) as [[] s' g'|e s' g']; simpl in H; eauto.
  destruct H as (_ & _ & Hn & _). exfalso. apply Hn, Hat, Hpot.
Qed.

(** The [__main__] scenario with a quiet source. *)
Lemma run_returns_without_attached_potential_witness :
  exists s g1,
    (forall pool, Permutation (in_order pool) pool)
    /\ __init__ main_config (repeat quiet 100) = inr (s, g1)
    /\ potential_storage_is_detached main_config
    /\ exists s' g', run in_order s g1 = Ok tt s' g'.
Proof.
  destruct (__init__ main_config (repeat quiet 100)) as [e|[s g1]] eqn:Hi.
  - vm_compute in Hi. discriminate Hi.
  - exists s, g1.
    assert (Hpot : potential_storage_is_detached main_config).
    { intros m [<-|[]]. reflexivity. }
    split; [exact (fun pool => Permutation_refl pool)|].
    split; [reflexivity|]. split; [exact Hpot|].
    exact (@run_returns_without_attached_potential in_order main_config
             (repeat quiet 100) s g1 (fun pool => Permutation_refl pool) Hi Hpot).
Defined.

(** X7.  The one exception that [run()] on a constructed simulator can
    raise is the [RuntimeError] of attaching a storage mount again, whose
    message starts with the text of that [raise] statement; it is raised
    from the body of the operation phase, and only when the configuration
    lists as potential a storage mount equal to one that is attached from
    the start. *)
Theorem run_raises_only_reattach tuple_of c g s g1 e s' g' :
  (forall pool, Permutation (tuple_of pool) pool) ->
  __init__ c g = inr (s, g1) ->
  run tuple_of s g1 = Err e s' g' ->
  (exists msg,
     e = RuntimeError msg
     /\ String.prefix "attempting to re-attach storage" msg = true)
  /\ phase s' = Some operation
  /\ exists m, In m (cfg_potential_storage_mounts c)
               /\ storage_in m (cfg_storage_mounts c) = true.
Proof.
  intros Hperm Hi Hr.
  destruct (init_pool _ _ Hi) as (Hok & _ & Hat).
  pose proof (@run_pool tuple_of s g1 Hperm Hok) as H. rewrite Hr in H.
  destruct H as (He & Hph & Hn & _).
  split; [rewrite He; eexists; split; reflexivity|]. split; [exact Hph|].
  apply some_true_or_all_false with
    (f := fun m => storage_in m (cfg_storage_mounts c)).
  intros Hall. apply Hn, Hat. exact Hall.
Qed.

(** A storage mount that is attached and potential, with its [attach]
    drawn at the first turn. *)
Lemma run_raises_only_reattach_witness :
  exists s g1 e s' g',
    (forall pool, Permutation (in_order pool) pool)
    /\ __init__ clash_config clash_tape = inr (s, g1)
    /\ run in_order s g1 = Err e s' g'
    /\ (exists msg,
          e = RuntimeError msg
          /\ String.prefix "attempting to re-attach storage" msg = true)
    /\ phase s' = Some operation
    /\ exists m, In m (cfg_potential_storage_mounts clash_config)
                 /\ storage_in m (cfg_storage_mounts clash_config) = true.
Proof.
  destruct (__init__ clash_config clash_tape) as [e|[s g1]] eqn:Hi.
  - vm_compute in Hi. discriminate Hi.
  - destruct (run in_order s g1) as [[] s' g'|e s' g'] eqn:Hr.
    + exfalso. pose proof Hi as Hi'. vm_compute in Hi'.
      injection Hi' as <- <-. vm_compute in Hr. discriminate Hr.
    + exists s, g1, e, s', g'.
      split; [exact (fun pool => Permutation_refl pool)|].
      split; [reflexivity|]. split; [exact Hr|].
      exact (@run_raises_only_reattach in_order clash_config clash_tape
               s g1 e s' g' (fun pool => Permutation_refl pool) Hi Hr).
Defined.

(** X8.  A run assigns no relation object: when [run()] on a constructed
    simulator ends, by returning or by raising, every relation has the
    name, the [is_peer] and the [is_joined] that the configuration gave
    it.  No action of the pool reaches the branches of the engine that
    set [is_joined]. *)
Theorem run_assigns_no_relation tuple_of c g s g1 :
  (forall pool, Permutation (tuple_of pool) pool) ->
  __init__ c g = inr (s, g1) ->
  objects (outcome (run tuple_of s g1)) = cfg_objects c.
Proof.
  intros Hperm Hi.
  destruct (init_pool _ _ Hi) as (Hok & Hobj & _).
  pose proof (@run_pool tuple_of s g1 Hperm Hok) as H.
  destruct (run tuple_of s g1) as [[] s' g'|e s' g']; simpl in H |- *.
  - destruct H as (_ & _ & Ho). congruence.
  - destruct H as (_ & _ & _ & Ho). congruence.
Qed.

(** The relation that is joined from the start stays joined, though
    [scale+] is drawn. *)
Lemma run_assigns_no_relation_witness :
  exists s g1,
    (forall pool, Permutation (in_order pool) pool)
    /\ __init__ joined_config joined_tape = inr (s, g1)
    /\ objects (outcome (run in_order s g1)) = cfg_objects joined_config.
Proof.
  destruct (__init__ joined_config joined_tape) as [e|[s g1]] eqn:Hi.
  - vm_compute in Hi. discriminate Hi.
  - exists s, g1.
    split; [exact (fun pool => Permutation_refl pool)|].
    split; [reflexivity|].
    exact (@run_assigns_no_relation in_order joined_config joined_tape s g1
             (fun pool => Permutation_refl pool) Hi).
Defined.

(* ================================================================= *)
(** ** [random_insert] *)

Lemma random_insert_index lst item s g :
  match random_insert lst item s g with
  | Ok l s' _ => s' = s /\ exists i, l = list_insert i item lst
  | Err _ _ _ => True
  end.
Proof.
  unfold random_insert, bind, random_randrange, ret.
  destruct (randrange0 (List.length lst) g) as [[i g1]|]; eauto.
Qed.

(** X9.  [random_insert] changes nothing but the list.  On a list that
    is not empty it puts the item in front of an element of the list: the
    other elements keep their order, and the item never comes last.  On
    the empty list it raises the [ValueError] of [randrange(0, 0)] and
    inserts nothing. *)
Theorem random_insert_never_last lst item s g :
  match random_insert lst item s g with
  | Ok l s' _ =>
      s' = s
      /\ exists pre x post,
           lst = pre ++ x :: post /\ l = pre ++ item :: x :: post
  | Err e s' g' =>
      lst = [] /\ (exists msg, e = ValueError msg) /\ s' = s /\ g' = g
  end.
Proof.
  unfold random_insert, bind, random_randrange, ret.
  destruct (randrange0 (List.length lst) g) as [[i g1]|] eqn:Hr.
  - split; [reflexivity|].
    apply randrange0_lt in Hr. unfold list_insert.
    destruct (skipn i lst) as [|x post] eqn:Hs.
    + exfalso. pose proof (f_equal (@List.length Entry) Hs) as Hl.
      rewrite length_skipn in Hl. simpl in Hl. lia.
    + exists (firstn i lst), x, post. split; [|reflexivity].
      rewrite <- Hs. symmetry. apply firstn_skipn.
  - unfold randrange0 in Hr. destruct lst as [|y lst]; simpl in Hr.
    + repeat split. eauto.
    + destruct (next_outcome g). discriminate.
Qed.

(* ================================================================= *)
(** ** What the closing hook adds to the setup trace *)

Lemma in_list_insert {T} i (x y : T) l :
  In y (list_insert i x l) <-> y = x \/ In y l.
Proof.
  unfold list_insert. rewrite in_app_iff. simpl.
  rewrite <- (firstn_skipn i l) at 3. rewrite in_app_iff.
  intuition congruence.
Qed.

Lemma entry_eqb_event h x e : entry_eqb h x (E e) = true -> x = E e.
Proof.
  destruct x as [e'|a]; simpl; [|discriminate].
  unfold Event.eqb. intros H. apply String.eqb_eq in H.
  destruct e', e. simpl in H. now subst.
Qed.

Lemma close_pebble_ready_adds ph : forall cs s g s' g',
  close_pebble_ready ph cs s g = Ok tt s' g' ->
  (forall x, In x (trace (scenario s) ph) -> In x (trace (scenario s') ph))
  /\ (forall c, In c cs -> In (E (Container.pebble_ready c)) (trace (scenario s') ph)).
Proof.
  induction cs as [|c cs IH]; intros s g s' g' H; simpl in H.
  - injection H as <- _. split; [auto | intros c []].
  - unfold bind at 1, get at 1 in H. unfold bind at 1 in H.
    destruct (existsb (fun x => entry_eqb (objects s) x (E (Container.pebble_ready c)))
                (trace (scenario s) ph)) eqn:Hex.
    + unfold ret at 1 in H. destruct (IH _ _ _ _ H) as [Hk Hc].
      split; [exact Hk|]. intros c' [<-|Hc']; [|auto].
      apply existsb_exists in Hex. destruct Hex as (x & Hx & Heq).
      apply entry_eqb_event in Heq. subst x. auto.
    + unfold insert_in_phase, bind at 1, get at 1, bind at 1 in H.
      pose proof (random_insert_index (trace (scenario s) ph)
                    (E (Container.pebble_ready c)) s g) as Hi.
      destruct (random_insert (trace (scenario s) ph)
                  (E (Container.pebble_ready c)) s g) as [l s1 g1|e s1 g1];
        [|discriminate].
      destruct Hi as (-> & i & ->).
      unfold modify at 1 in H.
      destruct (IH _ _ _ _ H) as [Hk Hc].
      simpl in Hk. rewrite trace_set_trace_same in Hk.
      split.
      * intros x Hx. apply Hk, in_list_insert. auto.
      * intros c' [<-|Hc']; [|auto]. apply Hk, in_list_insert. auto.
Qed.

Lemma close_phase_setup_adds s g s' g' :
  _close_phase setup s g = Ok tt s' g' ->
  has_pebble s = true ->
  forall c, In c (containers s) ->
            In (E (Container.pebble_ready c)) (trace (scenario s') setup).
Proof.
  unfold _close_phase.
  unfold bind at 1, modify at 1, bind at 1, get at 1.
  cbn [_event_must_occur has_pebble set_closed]. intros H Hp. rewrite Hp in H.
  cbn [andb] in H. unfold bind at 1 in H.
  destruct (close_pebble_ready setup
              (containers (set_closed (closed s ++ [setup]) s))
              (set_closed (closed s ++ [setup]) s) g)
    as [[] s1 g1|e s1 g1] eqn:Hc; [|discriminate].
  injection H as <- _.
  apply close_pebble_ready_adds in Hc. exact (proj2 Hc).
Qed.

Lemma setup_phase_pebble s g s1 g1 :
  _set_phase setup _run_setup s g = Ok tt s1 g1 ->
  has_pebble s = true ->
  forall c, In c (containers s) ->
            In (E (Container.pebble_ready c)) (trace (scenario s1) setup).
Proof.
  rewrite set_phase_unfold. intros H Hp c Hc.
  destruct (@run_setup_exact (set_phase (Some setup) s) g setup eq_refl)
    as (pre & mid & post & g0 & Hb & _).
  rewrite Hb in H.
  match type of H with
  | match _close_phase setup ?x ?y with _ => _ end = _ =>
      destruct (_close_phase setup x y) as [[] s2 g2|e s2 g2] eqn:Hcl;
        [|discriminate]
  end.
  injection H as <- _.
  apply (@close_phase_setup_adds _ _ _ _ Hcl); assumption.
Qed.

(** X10.  On k8s the setup trace of a run holds the pebble-ready event
    of every container of the configuration: what [_queue] did not inject
    by chance, the hook that closes the setup phase inserts.  This holds
    when [run()] returns and when it raises, which it does after setup
    only. *)
Theorem setup_trace_has_pebble_ready tuple_of c g r container :
  simulate tuple_of c g = inr r ->
  cfg_platform c = k8s ->
  In container (cfg_containers c) ->
  In (E (Container.pebble_ready container)) (trace (scenario (outcome r)) setup).
Proof.
  unfold simulate. destruct (__init__ c g) as [e|[s0 g0]] eqn:Hi; [discriminate|].
  intros H Hk Hc. injection H as <-.
  assert (Hs0 : has_pebble s0 = true /\ containers s0 = cfg_containers c).
  { revert Hi. unfold __init__.
    destruct (negb (cfg_scale c >=? 1)%Z); [discriminate|].
    destruct (existsb _ (cfg_potential_relations c)); [discriminate|].
    destruct (relation_changes (cfg_relations c) g) as [chg g1].
    destruct (Action.leadership_change g1) as [lead g2].
    intros H. injection H as <- _. simpl. now rewrite Hk. }
  destruct Hs0 as [Hp Hcs]. rewrite <- Hcs in Hc.
  unfold run.
  destruct (setup_phase_outcome s0 g0) as (L1 & s1 & g1 & H1 & _ & _).
  rewrite (bind_ok _ _ _ _ H1).
  pose proof (@setup_phase_pebble _ _ _ _ H1 Hp container Hc) as Hin.
  pose proof (operation_phase_outcome tuple_of s1 g1) as H2.
  unfold bind.
  destruct (_set_phase operation (_run_operation tuple_of) s1 g1)
    as [[] s2 g2|e s2 g2]; simpl in H2; cbn [outcome].
  - destruct H2 as (L2 & _ & _ & D2).
    destruct (teardown_phase_outcome s2 g2) as (pre & mid & s3 & g3 & H3 & D3 & _).
    rewrite H3. cbn [outcome].
    rewrite (phase_done_other D3), (phase_done_other D2) by discriminate.
    exact Hin.
  - destruct H2 as [(L2 & Ha) _].
    rewrite (appended_other Ha) by discriminate. exact Hin.
Qed.

(** The [__main__] scenario with a quiet source: the hook inserts the
    event. *)
Lemma setup_trace_has_pebble_ready_witness :
  exists r,
    simulate in_order main_config (repeat quiet 100) = inr r
    /\ cfg_platform main_config = k8s
    /\ In (mkContainer "workload") (cfg_containers main_config)
    /\ In (E (Container.pebble_ready (mkContainer "workload")))
         (trace (scenario (outcome r)) setup).
Proof.
  destruct (simulate in_order main_config (repeat quiet 100)) as [e|r] eqn:H.
  - vm_compute in H. discriminate H.
  - exists r. split; [reflexivity|]. split; [reflexivity|].
    split; [left; reflexivity|].
    exact (@setup_trace_has_pebble_ready in_order main_config
             (repeat quiet 100) r (mkContainer "workload") H eq_refl
             (or_introl eq_refl)).
Defined.

(** X11.  The closing hook on a phase whose trace is empty.  It raises
    the [ValueError] of [random_insert] on an empty list exactly when the
    phase is setup, the platform has pebble and there is a container: the
    pebble-ready event of the first container has nowhere to go.  In every
    other case it returns and leaves the traces and the random source as
    they were. *)
Theorem close_phase_on_empty_trace ph s g :
  trace (scenario s) ph = [] ->
  match _close_phase ph s g with
  | Ok _ s' g' =>
      (ph <> setup \/ has_pebble s = false \/ containers s = [])
      /\ scenario s' = scenario s /\ g' = g
  | Err e s' g' =>
      ph = setup /\ has_pebble s = true /\ containers s <> []
      /\ (exists msg, e = ValueError msg)
      /\ scenario s' = scenario s /\ g' = g
  end.
Proof.
  intros Ht. unfold _close_phase.
  unfold bind at 1, modify at 1, bind at 1, get at 1.
  cbn [has_pebble containers set_closed].
  destruct ph; cbn [_event_must_occur]; rewrite ?andb_false_r, ?andb_true_r;
    try (simpl; repeat split; left; discriminate).
  destruct (has_pebble s) eqn:Hp; [|simpl; repeat split; auto].
  destruct (containers s) as [|c cs] eqn:Hc; [simpl; repeat split; auto|].
  cbn [close_pebble_ready]. unfold bind at 1, bind at 1, get at 1, bind at 1.
  cbn [scenario set_closed]. rewrite Ht. cbn [existsb].
  unfold insert_in_phase, bind at 1, get at 1, bind at 1.
  cbn [scenario set_closed]. rewrite Ht.
  unfold random_insert, bind, random_randrange. simpl.
  repeat split; eauto. discriminate.
Qed.

(** A k8s simulator with one container, in setup, nothing queued yet: the
    hook raises. *)
Lemma close_phase_on_empty_trace_witness :
  trace (scenario setup_state) setup = []
  /\ match _close_phase setup setup_state [] with
     | Ok _ s' g' =>
         (setup <> setup \/ has_pebble setup_state = false
          \/ containers setup_state = [])
         /\ scenario s' = scenario setup_state /\ g' = []
     | Err e s' g' =>
         setup = setup /\ has_pebble setup_state = true
         /\ containers setup_state <> []
         /\ (exists msg, e = ValueError msg)
         /\ scenario s' = scenario setup_state /\ g' = []
     end.
Proof.
  split; [reflexivity|].
  exact (@close_phase_on_empty_trace setup setup_state [] eq_refl).
Defined.

(* ================================================================= *)
(** ** The events of the setup phase *)

Lemma run_setup_caused s g ph :
  phase s = Some ph ->
  exists L g',
    _run_setup s g = Ok tt (extend_scenario ph L s) g'
    /\ caused L = setup_events s.
Proof.
  intros Hph. unfold _run_setup. rewrite bind_get.
  destruct (@queue_each_exact _ StorageMount.attached ph (storage_mounts s) s g
              Hph attached_not_background) as (L1 & g1 & H1 & C1).
  rewrite (bind_ok _ _ _ _ H1).
  destruct (@queue_exact install None None (extend_scenario ph L1 s) g1 ph Hph)
    as (bg2 & g2 & H2 & B2).
  rewrite (bind_ok _ _ _ _ H2), extend_scenario_app, bind_get.
  set (s2 := extend_scenario ph (L1 ++ bg2 ++ [E install]) s).
  unfold filter_truth. unfold bind at 1. unfold bind at 1.
  destruct (@queue_each_exact _ (fun r => Relation.created (deref (objects s2) r))
              ph (_peer_relations s2) s2 g2 Hph (fun r => created_not_background _))
    as (L3 & g3 & H3 & C3).
  rewrite H3. unfold s2 at 1. rewrite extend_scenario_app, bind_get.
  set (s3 := extend_scenario ph ((L1 ++ bg2 ++ [E install]) ++ L3) s).
  assert (H4 : exists bg4 g4,
            (if is_leader s3 then _queue leader_elected None None
             else _queue leader_settings_changed None None) s3 g3
            = Ok tt (extend_scenario ph (bg4 ++ [E (leadership_event s)]) s3) g4
            /\ all_background bg4).
  { unfold leadership_event. change (is_leader s3) with (is_leader s).
    destruct (is_leader s);
      [destruct (@queue_exact leader_elected None None s3 g3 ph Hph)
         as (bg4 & g4 & H4 & B4)
      |destruct (@queue_exact leader_settings_changed None None s3 g3 ph Hph)
         as (bg4 & g4 & H4 & B4)]; eauto. }
  destruct H4 as (bg4 & g4 & H4 & B4). rewrite H4.
  unfold s3 at 1. rewrite extend_scenario_app.
  match goal with
  | |- exists _ _, bind _ _ ?s5 _ = _ /\ _ =>
      destruct (@queue_exact config_changed None None s5 g4 ph Hph)
        as (bg5 & g5 & H5 & B5)
  end.
  rewrite (bind_ok _ _ _ _ H5), extend_scenario_app.
  match goal with
  | |- exists _ _, _queue _ _ _ ?s6 _ = _ /\ _ =>
      destruct (@queue_exact start None None s6 g5 ph Hph)
        as (bg6 & g6 & H6 & B6)
  end.
  rewrite H6, extend_scenario_app.
  eexists. exists g6. split; [reflexivity|].
  rewrite !caused_app, C1, C3, (caused_background B2), (caused_background B4),
    (caused_background B5), (caused_background B6).
  unfold setup_events, attached_events, created_events, leadership_event.
  change (_peer_relations s2) with (_peer_relations s).
  change (objects s2) with (objects s).
  destruct (is_leader s); simpl; rewrite <- ?app_assoc; reflexivity.
Qed.

Lemma caused_padded l l' : padded l l' -> caused l' = caused l.
Proof.
  induction 1 as [|l' i x _ IH Hx]; auto.
  unfold list_insert. rewrite caused_app. simpl. rewrite Hx. simpl.
  now rewrite <- caused_app, firstn_skipn.
Qed.

Lemma setup_phase_caused s g :
  exists s1 g1,
    _set_phase setup _run_setup s g = Ok tt s1 g1
    /\ caused (trace (scenario s1) setup)
       = caused (trace (scenario s) setup) ++ setup_events s.
Proof.
  destruct (@run_setup_caused (set_phase (Some setup) s) g setup eq_refl)
    as (L & g0 & Hb & HL).
  assert (Ha : appended setup L (set_phase (Some setup) s)
                 (extend_scenario setup L (set_phase (Some setup) s)))
    by (split; auto).
  assert (Hne : setup = setup -> L <> []).
  { intros _ ->. unfold setup_events in HL. simpl in HL.
    destruct (attached_events (set_phase (Some setup) s)); discriminate. }
  destruct (@set_phase_returns setup _run_setup s g _ g0 L Hb Ha Hne)
    as (s1 & g1 & Hs & Hd).
  exists s1, g1. split; [exact Hs|].
  destruct (pd_trace Hd) as (l' & Hp & _ & ->).
  rewrite trace_set_trace_same, (caused_padded Hp), caused_app, HL.
  reflexivity.
Qed.

Lemma init_fields c g s g' :
  __init__ c g = inr (s, g') ->
  is_leader s = cfg_is_leader c
  /\ scale s = cfg_scale c
  /\ containers s = cfg_containers c
  /\ relations s = cfg_relations c
  /\ storage_mounts s = cfg_storage_mounts c
  /\ objects s = cfg_objects c
  /\ has_pebble s = match cfg_platform c with k8s => true | lxd => false end.
Proof.
  unfold __init__.
  destruct (negb (cfg_scale c >=? 1)%Z); [discriminate|].
  destruct (existsb _ (cfg_potential_relations c)); [discriminate|].
  destruct (relation_changes (cfg_relations c) g) as [chg g1].
  destruct (Action.leadership_change g1) as [lead g2].
  intros H. injection H as <- _. simpl. auto 10.
Qed.

(** X12.  The setup trace of a run, the background events pebble-ready
    and update-status left out, is: the attached event of every storage
    mount of the configuration, [install], the created event of every
    peer relation, the leadership event of the unit, [config-changed],
    [start], in this order.  It is settled when setup is closed: it is
    the same whether [run()] then returns or raises. *)
Theorem setup_trace_events tuple_of c g r :
  simulate tuple_of c g = inr r ->
  caused (trace (scenario (outcome r)) setup)
  = map (fun m => E (StorageMount.attached m)) (cfg_storage_mounts c)
    ++ E install
    :: map (fun x => E (Relation.created (deref (cfg_objects c) x)))
         (filter (fun x => is_peer (deref (cfg_objects c) x)) (cfg_relations c))
    ++ [E (if cfg_is_leader c then leader_elected else leader_settings_changed);
        E config_changed; E start].
Proof.
  unfold simulate. destruct (__init__ c g) as [e|[s0 g0]] eqn:Hi; [discriminate|].
  intros H. injection H as <-.
  destruct (init_fields _ _ Hi) as (Hl & _ & _ & Hr & Hs & Ho & _).
  pose proof (fresh_scenario (init_fresh _ _ Hi)) as Hsc.
  unfold run.
  destruct (setup_phase_caused s0 g0) as (s1 & g1 & H1 & Hc).
  rewrite (bind_ok _ _ _ _ H1).
  rewrite Hsc in Hc. simpl in Hc.
  unfold setup_events, attached_events, created_events, leadership_event,
    _peer_relations in Hc.
  rewrite Hl, Hr, Hs, Ho in Hc.
  pose proof (operation_phase_outcome tuple_of s1 g1) as H2.
  unfold bind.
  destruct (_set_phase operation (_run_operation tuple_of) s1 g1)
    as [[] s2 g2|e s2 g2]; simpl in H2; cbn [outcome].
  - destruct H2 as (L2 & _ & _ & D2).
    destruct (teardown_phase_outcome s2 g2) as (pre & mid & s3 & g3 & H3 & D3 & _).
    rewrite H3. cbn [outcome].
    rewrite (phase_done_other D3), (phase_done_other D2) by discriminate.
    exact Hc.
  - destruct H2 as [(L2 & Ha) _].
    rewrite (appended_other Ha) by discriminate. exact Hc.
Qed.

(** The [__main__] scenario: one storage mount, one peer relation. *)
Lemma setup_trace_events_witness :
  exists r,
    simulate in_order main_config (repeat quiet 100) = inr r
    /\ map entry_label (caused (trace (scenario (outcome r)) setup))
       = ["storage1-storage-attached"; "install"; "replicas-relation-created";
          "leader-elected"; "config-changed"; "start"].
Proof.
  destruct (simulate in_order main_config (repeat quiet 100)) as [e|r] eqn:H.
  - vm_compute in H. discriminate H.
  - exists r. split; [reflexivity|].
    rewrite (@setup_trace_events in_order main_config (repeat quiet 100) r H).
    reflexivity.
Defined.

(* ================================================================= *)
(** ** The generic actions *)

Lemma scale_up_loop_exact ph : forall rs s g,
  phase s = Some ph ->
  exists s',
    scale_up_loop rs s g = Ok tt s' g
    /\ scale s' = (scale s + Z.of_nat (List.length (joined_relations (objects s) rs)))%Z
    /\ possible_actions s'
       = match joined_relations (objects s) rs with
         | [] => possible_actions s
         | _ :: _ => set_add (objects s) Action.scale_down (possible_actions s)
         end
    /\ scenario s'
       = set_trace ph (trace (scenario s) ph ++ joined_pairs (objects s) rs)
           (scenario s)
    /\ same_configuration s s'
    /\ is_leader s' = is_leader s /\ relations s' = relations s
    /\ storage_mounts s' = storage_mounts s /\ objects s' = objects s
    /\ phase s' = phase s /\ closed s' = closed s.
Proof.
  induction rs as [|r rs IH]; intros s g Hph.
  - exists s. simpl. unfold joined_pairs. simpl.
    rewrite app_nil_r, set_trace_trace, Z.add_0_r.
    unfold same_configuration. auto 20.
  - cbn [scale_up_loop]. rewrite bind_get.
    unfold joined_pairs, joined_relations. cbn [filter].
    destruct (is_joined (deref (objects s) r)) eqn:Hj; cbn [negb].
    + unfold bind at 1. unfold bind at 1, modify at 1.
      unfold bind at 1, modify at 1. unfold bind at 1.
      rewrite (@queue_no_injection _ None _ g ph) by exact Hph.
      rewrite (@queue_no_injection _ None _ g ph) by exact Hph.
      match goal with
      | |- exists _, scale_up_loop rs ?x g = _ /\ _ => set (s1 := x)
      end.
      destruct (IH s1 g Hph)
        as (s' & He & Hs & Hp & Hsc & Hcf & Hl & Hr & Hst & Ho & Hp' & Hcl).
      exists s'. split; [exact He|].
      change (objects s1) with (objects s) in *.
      fold (joined_relations (objects s) rs) in *.
      split; [|split; [|split; [|split]]].
      * rewrite Hs. change (scale s1) with (scale s + 1)%Z.
        cbn [List.length]. lia.
      * rewrite Hp.
        change (possible_actions s1)
          with (set_add (objects s) Action.scale_down (possible_actions s)).
        destruct (joined_relations (objects s) rs); [reflexivity|].
        apply set_add_idem.
      * rewrite Hsc. unfold s1, extend_scenario. cbn [scenario set_scenario
          set_possible_actions set_scale].
        rewrite !trace_set_trace_same, !set_trace_set_trace.
        cbn [flat_map]. rewrite <- !app_assoc. reflexivity.
      * destruct Hcf as (a1 & a2 & a3 & a4 & a5 & a6).
        unfold same_configuration. rewrite a1, a2, a3, a4, a5, a6.
        repeat split.
      * rewrite Hl, Hr, Hst, Ho, Hp', Hcl. repeat split.
    + unfold bind at 1, ret at 1. apply IH. exact Hph.
Qed.

(** X13.  What [scale+] does inside a phase.  It never raises and draws
    nothing from the random source; [scale] rises by one for every joined
    relation of the unit, not by one; the trace of the phase receives the
    action and then, for every joined relation in its order, the joined
    event directly followed by the changed event; [scale-] is put into
    the pool when at least one relation is joined; the action itself is
    not consumed, whatever [consume] is. *)
Theorem scale_up_effect consume s g ph :
  phase s = Some ph ->
  exists s',
    _exec Action.scale_up consume s g = Ok tt s' g
    /\ scale s'
       = (scale s
          + Z.of_nat (List.length (joined_relations (objects s) (relations s))))%Z
    /\ trace (scenario s') ph
       = trace (scenario s) ph
         ++ A Action.scale_up :: joined_pairs (objects s) (relations s)
    /\ possible_actions s'
       = match joined_relations (objects s) (relations s) with
         | [] => possible_actions s
         | _ :: _ => set_add (objects s) Action.scale_down (possible_actions s)
         end
    /\ is_leader s' = is_leader s /\ relations s' = relations s
    /\ storage_mounts s' = storage_mounts s /\ objects s' = objects s.
Proof.
  intros Hph. rewrite (@exec_unfold Action.scale_up consume s g ph Hph).
  cbn [subject act_name Action.scale_up].
  set (s0 := extend_scenario ph [A Action.scale_up] s).
  unfold exec_generic. cbn [String.eqb Ascii.eqb Bool.eqb].
  unfold bind at 1. unfold bind at 1, ret at 1. unfold bind at 1.
  rewrite bind_get.
  destruct (@scale_up_loop_exact ph (relations s0) s0 g Hph)
    as (s' & He & Hs & Hp & Hsc & _ & Hl & Hr & Hst & Ho & _).
  rewrite He. unfold bind at 1, ret at 1. unfold bind at 1, ret at 1.
  unfold ret.
  exists s'. split; [reflexivity|].
  change (objects s0) with (objects s) in *.
  change (relations s0) with (relations s) in *.
  split; [exact Hs|]. split; [|split; [exact Hp|auto]].
  rewrite Hsc, trace_set_trace_same. unfold s0, extend_scenario. simpl.
  rewrite trace_set_trace_same, <- app_assoc. reflexivity.
Qed.

(** One joined relation: [scale] goes from 1 to 2. *)
Lemma scale_up_effect_witness :
  phase departing_state = Some operation
  /\ exists s',
       _exec Action.scale_up true departing_state [] = Ok tt s' []
       /\ scale s' = 2%Z
       /\ trace (scenario s') operation
          = [A Action.scale_up;
             E (mkEvent "http-relation-joined");
             E (mkEvent "http-relation-changed")].
Proof.
  split; [reflexivity|].
  destruct (@scale_up_effect true departing_state [] operation eq_refl)
    as (s' & He & Hs & Ht & _).
  exists s'. split; [exact He|]. split; [exact Hs | exact Ht].
Defined.

Lemma extend_after_leader ph x L b s :
  extend_scenario ph L (set_is_leader b (extend_scenario ph [x] s))
  = extend_scenario ph (x :: L) (set_is_leader b s).
Proof.
  unfold extend_scenario. destruct s; simpl.
  rewrite trace_set_trace_same, set_trace_set_trace, <- app_assoc. reflexivity.
Qed.

Lemma exec_leadership_exact src consume s g ph :
  phase s = Some ph ->
  exists bg g',
    _exec (mkAction SNone "leadership_change" src) consume s g
    = Ok tt
        (extend_scenario ph
           (A (mkAction SNone "leadership_change" src)
            :: bg ++ [E (if is_leader s then leader_settings_changed
                         else leader_elected)])
           (set_is_leader (negb (is_leader s)) s))
        g'
    /\ all_background bg.
Proof.
  intros Hph.
  rewrite (@exec_unfold (mkAction SNone "leadership_change" src) consume s g ph Hph).
  cbn [subject act_name].
  set (s0 := extend_scenario ph [A (mkAction SNone "leadership_change" src)] s).
  unfold exec_generic. cbn [String.eqb Ascii.eqb Bool.eqb].
  unfold bind at 1. unfold bind at 1, ret at 1. unfold bind at 1, ret at 1.
  unfold bind at 1, ret at 1. unfold bind at 1. rewrite bind_get.
  change (is_leader s0) with (is_leader s).
  destruct (is_leader s) eqn:Hl; unfold bind at 1, modify at 1.
  - destruct (@queue_exact leader_settings_changed None None
                (set_is_leader false s0) g ph Hph) as (bg & g' & Hq & Hbg).
    rewrite Hq. unfold ret. exists bg, g'. split; [|exact Hbg].
    unfold s0. now rewrite extend_after_leader.
  - destruct (@queue_exact leader_elected None None
                (set_is_leader true s0) g ph Hph) as (bg & g' & Hq & Hbg).
    rewrite Hq. unfold ret. exists bg, g'. split; [|exact Hbg].
    unfold s0. now rewrite extend_after_leader.
Qed.

Lemma leader_twice ph L1 L2 s :
  extend_scenario ph L2
    (set_is_leader (negb (negb (is_leader s)))
       (extend_scenario ph L1 (set_is_leader (negb (is_leader s)) s)))
  = extend_scenario ph (L1 ++ L2) s.
Proof.
  unfold extend_scenario. destruct s; simpl.
  rewrite negb_involutive, trace_set_trace_same, set_trace_set_trace, <- app_assoc.
  reflexivity.
Qed.

(** X14.  Two changes of leadership in a row, inside a phase, return and
    leave the simulator as it was but for the trace of the phase:
    [is_leader] is back, the pool, the scale, the relations and the
    storage mounts were not touched, and neither action was consumed.
    The trace receives each action followed by its event:
    [leader-settings-changed] then [leader-elected] for a unit that was
    leader, the other way round for one that was not. *)
Theorem leadership_change_twice src1 src2 consume1 consume2 s g ph :
  phase s = Some ph ->
  exists L g',
    (_exec (mkAction SNone "leadership_change" src1) consume1 ;;
     _exec (mkAction SNone "leadership_change" src2) consume2)%sim s g
    = Ok tt (extend_scenario ph L s) g'
    /\ caused L
       = if is_leader s
         then [A (mkAction SNone "leadership_change" src1);
               E leader_settings_changed;
               A (mkAction SNone "leadership_change" src2);
               E leader_elected]
         else [A (mkAction SNone "leadership_change" src1);
               E leader_elected;
               A (mkAction SNone "leadership_change" src2);
               E leader_settings_changed].
Proof.
  intros Hph.
  destruct (@exec_leadership_exact src1 consume1 s g ph Hph)
    as (bg1 & g1 & H1 & B1).
  rewrite (bind_ok _ _ _ _ H1).
  match goal with
  | |- exists _ _, _exec _ _ ?x _ = _ /\ _ => set (s1 := x)
  end.
  destruct (@exec_leadership_exact src2 consume2 s1 g1 ph Hph)
    as (bg2 & g2 & H2 & B2).
  rewrite H2. change (is_leader s1) with (negb (is_leader s)).
  unfold s1. rewrite leader_twice.
  eexists. exists g2. split; [reflexivity|].
  rewrite caused_app. simpl caused at 1. simpl caused at 2.
  unfold caused at 1 2. cbn [filter is_background negb].
  fold (caused (bg1 ++ [E (if is_leader s then leader_settings_changed
                           else leader_elected)])).
  fold (caused (bg2 ++ [E (if negb (is_leader s) then leader_settings_changed
                           else leader_elected)])).
  rewrite !caused_app, (caused_background B1), (caused_background B2).
  destruct (is_leader s); reflexivity.
Qed.

(** A leader in its operation phase. *)
Lemma leadership_change_twice_witness :
  phase departing_state = Some operation
  /\ exists L g',
       (_exec (mkAction SNone "leadership_change" user) true ;;
        _exec (mkAction SNone "leadership_change" user) true)%sim
         departing_state (repeat quiet 10)
       = Ok tt (extend_scenario operation L departing_state) g'
       /\ caused L
          = [A (mkAction SNone "leadership_change" user);
             E leader_settings_changed;
             A (mkAction SNone "leadership_change" user);
             E leader_elected].
Proof.
  split; [reflexivity|].
  destruct (@leadership_change_twice user user true true departing_state
              (repeat quiet 10) operation eq_refl) as (L & g' & H & C).
  exists L, g'. split; [exact H | exact C].
Defined.

(* ================================================================= *)
(** ** Round trips through the engine *)

Lemma filter_detach_attached m l :
  storage_in m l = false ->
  filter (fun r => negb (storage_in r [m])) (l ++ [m]) = l.
Proof.
  intros H. rewrite filter_app, !detach_filter. cbn [filter].
  unfold StorageMount.eqb at 2. rewrite String.eqb_refl. cbn [negb].
  rewrite app_nil_r. unfold storage_in in H.
  induction l as [|x l IH]; simpl in *; auto.
  apply orb_false_iff in H. destruct H as [Hx Hl].
  unfold StorageMount.eqb in *. rewrite String.eqb_sym, Hx. simpl.
  now rewrite IH.
Qed.

Lemma caused_action_event a bg e :
  all_background bg -> is_background (E e) = false ->
  caused (A a :: bg ++ [E e]) = [A a; E e].
Proof.
  intros Hb He. change (A a :: bg ++ [E e]) with ([A a] ++ bg ++ [E e]).
  rewrite !caused_app, (caused_background Hb).
  unfold caused. simpl filter. cbn [is_background] in He. rewrite He.
  reflexivity.
Qed.

(** X15.  Attaching a storage mount that is not attached and then
    detaching it, inside a phase, returns and leaves the simulator as it
    was but for the trace of the phase: the storage mounts are the same
    tuple as before.  The trace receives the attach action, the attached
    event, the detach action and the detached event. *)
Theorem attach_then_detach m s g ph :
  phase s = Some ph ->
  storage_in m (storage_mounts s) = false ->
  exists L g',
    (_exec (StorageMount.attach m) false ;;
     _exec (StorageMount.detach m) false)%sim s g
    = Ok tt (extend_scenario ph L s) g'
    /\ caused L
       = [A (StorageMount.attach m); E (StorageMount.attached m);
          A (StorageMount.detach m); E (StorageMount.detached m)].
Proof.
  intros Hph Hm. unfold bind at 1.
  rewrite (@exec_unfold (StorageMount.attach m) false s g ph Hph).
  cbn [subject act_name StorageMount.attach].
  set (s0 := extend_scenario ph [A (StorageMount.attach m)] s).
  destruct (@branch_attach m false s0 g ph Hph Hm) as (bg1 & g1 & H1 & B1).
  rewrite (bind_ok _ _ _ _ H1). unfold ret at 1.
  match goal with
  | |- exists _ _, _exec _ _ ?x _ = _ /\ _ => set (s1 := x)
  end.
  rewrite (@exec_unfold (StorageMount.detach m) false s1 g1 ph Hph).
  cbn [subject act_name StorageMount.detach].
  set (s2 := extend_scenario ph [A (StorageMount.detach m)] s1).
  assert (Hin : storage_in m (storage_mounts s2) = true).
  { change (storage_mounts s2) with (storage_mounts s ++ [m]).
    rewrite storage_in_app, orb_true_iff. right. apply storage_in_refl. now left. }
  destruct (@branch_detach m false s2 g1 ph Hph Hin) as (bg2 & g2 & H2 & B2).
  rewrite (bind_ok _ _ _ _ H2). unfold ret.
  exists (A (StorageMount.attach m) :: (bg1 ++ [E (StorageMount.attached m)])
          ++ A (StorageMount.detach m) :: bg2 ++ [E (StorageMount.detached m)]),
         g2.
  split.
  - f_equal.
    change (storage_mounts s2) with (storage_mounts s ++ [m]).
    rewrite (@filter_detach_attached m (storage_mounts s) Hm).
    unfold s2, s1, s0, extend_scenario. destruct s; simpl.
    rewrite !trace_set_trace_same, !set_trace_set_trace, <- !app_assoc.
    reflexivity.
  - change (?x :: ?l ++ ?y :: ?r) with ((x :: l) ++ (y :: r)).
    rewrite caused_app, !caused_action_event;
      auto using attached_not_background, detached_not_background.
Qed.

(** A mount that is not attached, in the operation phase. *)
Lemma attach_then_detach_witness :
  phase departing_state = Some operation
  /\ storage_in (mkStorageMount "data") (storage_mounts departing_state) = false
  /\ exists L g',
       (_exec (StorageMount.attach (mkStorageMount "data")) false ;;
        _exec (StorageMount.detach (mkStorageMount "data")) false)%sim
         departing_state (repeat quiet 10)
       = Ok tt (extend_scenario operation L departing_state) g'
       /\ caused L
          = [A (StorageMount.attach (mkStorageMount "data"));
             E (StorageMount.attached (mkStorageMount "data"));
             A (StorageMount.detach (mkStorageMount "data"));
             E (StorageMount.detached (mkStorageMount "data"))].
Proof.
  split; [reflexivity|]. split; [reflexivity|].
  exact (@attach_then_detach (mkStorageMount "data") departing_state
           (repeat quiet 10) operation eq_refl eq_refl).
Defined.

Lemma filter_break_created h r l :
  rel_in h r l = false ->
  filter (fun x => negb (rel_in h x [r])) (l ++ [r]) = l.
Proof.
  intros H. rewrite filter_app. cbn [filter]. unfold rel_in at 2.
  cbn [existsb]. rewrite rel_same_refl. cbn [orb negb]. rewrite app_nil_r.
  unfold rel_in in *.
  induction l as [|x l IH]; simpl in *; auto.
  apply orb_false_iff in H. destruct H as [Hx Hl].
  rewrite rel_same_sym, Hx. simpl. now rewrite IH.
Qed.

(** X16.  Creating a relation that the unit does not have and then
    breaking it, inside a phase, returns and leaves the simulator as it
    was but for the trace of the phase: the relations are the same tuple
    as before.  The trace receives the create action, the created event,
    the break action and the broken event; no joined or departed event is
    queued for the relation. *)
Theorem create_then_break r s g ph :
  phase s = Some ph ->
  rel_in (objects s) r (relations s) = false ->
  exists L g',
    (_exec (Relation.create r) false ;; _exec (Relation.destroy r) false)%sim s g
    = Ok tt (extend_scenario ph L s) g'
    /\ caused L
       = [A (Relation.create r); E (Relation.created (deref (objects s) r));
          A (Relation.destroy r); E (Relation.broken (deref (objects s) r))].
Proof.
  intros Hph Hr. unfold bind at 1.
  rewrite (@exec_unfold (Relation.create r) false s g ph Hph).
  cbn [subject act_name Relation.create].
  set (s0 := extend_scenario ph [A (Relation.create r)] s).
  destruct (@branch_create r false s0 g ph Hph) as (bg1 & g1 & H1 & B1).
  rewrite (bind_ok _ _ _ _ H1). unfold ret at 1.
  match goal with
  | |- exists _ _, _exec _ _ ?x _ = _ /\ _ => set (s1 := x)
  end.
  rewrite (@exec_unfold (Relation.destroy r) false s1 g1 ph Hph).
  cbn [subject act_name Relation.destroy].
  set (s2 := extend_scenario ph [A (Relation.destroy r)] s1).
  destruct (@branch_destroy r false s2 g1 ph Hph) as (bg2 & g2 & H2 & B2).
  rewrite (bind_ok _ _ _ _ H2). unfold ret.
  change (objects s0) with (objects s) in *.
  change (objects s2) with (objects s) in *.
  exists (A (Relation.create r)
          :: (bg1 ++ [E (Relation.created (deref (objects s) r))])
          ++ A (Relation.destroy r)
          :: bg2 ++ [E (Relation.broken (deref (objects s) r))]), g2.
  split.
  - f_equal.
    change (relations s2) with (relations s ++ [r]).
    rewrite (@filter_break_created (objects s) r (relations s) Hr).
    unfold s2, s1, s0, extend_scenario. destruct s; simpl.
    rewrite !trace_set_trace_same, !set_trace_set_trace, <- !app_assoc.
    reflexivity.
  - change (?x :: ?l ++ ?y :: ?r) with ((x :: l) ++ (y :: r)).
    rewrite caused_app, !caused_action_event;
      auto using created_not_background, broken_not_background.
Qed.

(** A relation object that the unit does not have. *)
Lemma create_then_break_witness :
  phase potential_state = Some operation
  /\ rel_in (objects potential_state) 0 (relations potential_state) = false
  /\ exists L g',
       (_exec (Relation.create 0) false ;; _exec (Relation.destroy 0) false)%sim
         potential_state (repeat quiet 10)
       = Ok tt (extend_scenario operation L potential_state) g'
       /\ caused L
          = [A (Relation.create 0);
             E (mkEvent "db-relation-created");
             A (Relation.destroy 0);
             E (mkEvent "db-relation-broken")].
Proof.
  split; [reflexivity|]. split; [reflexivity|].
  exact (@create_then_break 0 potential_state (repeat quiet 10) operation eq_refl eq_refl).
Defined.

(* ================================================================= *)
(** ** The caused event comes last *)

Lemma queue_loop_bound ph allow disallow : forall bg x s g,
  all_background bg ->
  exists bg' g',
    queue_loop ph allow disallow (bg ++ [x]) s g = Ok (bg' ++ [x]) s g'
    /\ all_background bg'
    /\ List.length bg' <= List.length bg + List.length allow.
Proof.
  induction allow as [|k allow IH]; intros bg x s g Hbg; simpl.
  - exists bg, g. repeat split; auto. lia.
  - assert (Hskip : forall g0, exists bg' g',
              queue_loop ph allow disallow (bg ++ [x]) s g0 = Ok (bg' ++ [x]) s g'
              /\ all_background bg'
              /\ List.length bg' <= List.length bg + S (List.length allow)).
    { intros g0. destruct (IH bg x s g0 Hbg) as (bg' & g' & H & B & Hl).
      exists bg', g'. repeat split; auto. lia. }
    destruct (existsb (kind_eqb k) disallow); [apply Hskip|].
    unfold bind at 1. unfold roll.
    destruct (Qeq_bool (_event_chances ph k) 0).
    + unfold ret at 1. unfold bind at 1. unfold ret at 1. apply Hskip.
    + unfold bind at 1. unfold random_random.
      destruct (next_outcome g) as [u g1]. unfold ret at 1.
      destruct (Qltb (unit_of_outcome u) (_event_chances ph k)).
      * unfold bind at 1.
        destruct (inject_last k x s g1 Hbg) as (e & i & g2 & Hi & He & _).
        rewrite Hi.
        destruct (IH (list_insert i e bg) x s g2) as (bg' & g' & H & B & Hl).
        { apply Forall_list_insert; auto. }
        exists bg', g'. repeat split; auto.
        rewrite list_insert_length in Hl. lia.
      * unfold bind at 1. unfold ret at 1. apply Hskip.
Qed.

(** X17.  A call of [_queue] inside a phase never fails and changes the
    trace of the phase only.  It appends the caused event as the last
    entry, behind the background events injected in this call, which are
    pebble-ready and update-status events and at most one for every kind
    allowed: two by default, none for [allow=()].  An injected event
    never follows the event that caused it within the call. *)
Theorem queue_caused_event_is_last ev allow disallow s g ph :
  phase s = Some ph ->
  exists bg g',
    _queue ev allow disallow s g = Ok tt (extend_scenario ph (bg ++ [E ev]) s) g'
    /\ all_background bg
    /\ List.length bg
       <= List.length (match allow with None => default_allow | Some a => a end).
Proof.
  intros Hph. unfold _queue, bind, get. rewrite Hph.
  destruct (queue_loop_bound ph
              (match allow with None => default_allow | Some a => a end)
              (match disallow with None => [] | Some d => d end)
              (E ev) s g (Forall_nil _)) as (bg & g' & Hq & Hbg & Hl).
  simpl app in Hq. rewrite Hq. exists bg, g'. repeat split; auto.
Qed.

(** A source that injects both kinds in front of [install]. *)
Lemma queue_caused_event_is_last_witness :
  phase setup_state = Some setup
  /\ exists bg g',
       _queue install None None setup_state [0; 0; 0; 0; 0]%N
       = Ok tt (extend_scenario setup (bg ++ [E install]) setup_state) g'
       /\ all_background bg
       /\ List.length bg <= 2.
Proof.
  split; [reflexivity|].
  exact (@queue_caused_event_is_last install None None setup_state
           [0; 0; 0; 0; 0]%N setup eq_refl).
Defined.

(* ================================================================= *)
(** ** Errors of the engine *)

Lemma exec_relation_raises_early r name consume s g ph :
  phase s = Some ph -> raises_early (exec_relation r name consume) s g.
Proof.
  intros Hph. unfold raises_early, exec_relation. rewrite bind_get.
  destruct (name =? "change")%string.
  { destruct (@queue_exact (Relation.changed (deref (objects s) r)) None None
                s g ph Hph) as (bg & g' & Hq & _).
    now rewrite (bind_ok _ _ _ _ Hq). }
  destruct (name =? "create")%string.
  { destruct (@queue_exact (Relation.created (deref (objects s) r)) None None
                s g ph Hph) as (bg & g' & Hq & _).
    now rewrite (bind_ok _ _ _ _ Hq). }
  destruct (name =? "joined")%string.
  { destruct (negb (rel_in (objects s) r (relations s))); [now split|].
    destruct (is_joined (deref (objects s) r)); [now split|].
    rewrite (bind_ok _ _ _ _ (@queue_no_injection _ None s g ph Hph)).
    rewrite (bind_ok _ _ _ _
               (@queue_no_injection _ None
                  (extend_scenario ph [E (Relation.joined (deref (objects s) r))] s)
                  g ph Hph)).
    exact I. }
  destruct (name =? "break")%string.
  { unfold remove_relation. unfold bind at 1, modify at 1.
    match goal with
    | |- match bind _ _ ?x _ with _ => _ end =>
        destruct (@queue_exact (Relation.broken (deref (objects s) r)) None None
                    x g ph Hph) as (bg & g' & Hq & _)
    end.
    now rewrite (bind_ok _ _ _ _ Hq). }
  destruct (name =? "depart")%string.
  { destruct (negb (rel_in (objects s) r (relations s))); [now split|].
    destruct (negb (is_joined (deref (objects s) r))); [now split|].
    exact I. }
  now split.
Qed.

Lemma exec_storage_raises_early m name consume s g ph :
  phase s = Some ph -> raises_early (exec_storage m name consume) s g.
Proof.
  intros Hph. unfold raises_early, exec_storage. rewrite bind_get.
  destruct (name =? "attach")%string.
  { destruct (storage_in m (storage_mounts s)); [now split|].
    unfold attach_storage. unfold bind at 1, modify at 1.
    match goal with
    | |- match bind _ _ ?x _ with _ => _ end =>
        destruct (@queue_exact (StorageMount.attached m) None None x g ph Hph)
          as (bg & g' & Hq & _)
    end.
    now rewrite (bind_ok _ _ _ _ Hq). }
  destruct (name =? "detach")%string.
  { destruct (negb (storage_in m (storage_mounts s))); [now split|].
    unfold detach_storage. unfold bind at 1, modify at 1.
    match goal with
    | |- match bind _ _ ?x _ with _ => _ end =>
        destruct (@queue_exact (StorageMount.detached m) None None x g ph Hph)
          as (bg & g' & Hq & _)
    end.
    now rewrite (bind_ok _ _ _ _ Hq). }
  now split.
Qed.

(** X18.  The engine records the action before it looks at it, and does
    not take it back.  When [_exec] raises inside a phase, either the
    error is the [KeyError] of removing from the pool an action that is
    not in it, raised after the action took effect; or the simulator and
    the random source are as they were, except that the action is the
    last entry of the trace of the phase. *)
Theorem exec_error_keeps_action_recorded action consume s g ph e s' g' :
  phase s = Some ph ->
  _exec action consume s g = Err e s' g' ->
  (exists msg, e = KeyError msg)
  \/ (s' = extend_scenario ph [A action] s /\ g' = g).
Proof.
  intros Hph. rewrite (@exec_unfold action consume s g ph Hph).
  set (s0 := extend_scenario ph [A action] s).
  assert (Hph0 : phase s0 = Some ph) by exact Hph.
  assert (Hbranch : raises_early
            (match subject action with
             | SRel subject => exec_relation subject (act_name action) consume
             | SSto subject => exec_storage subject (act_name action) consume
             | SNone => exec_generic (act_name action)
             | SOther _ => raise (ValueError "no action known for type")
             end) s0 g).
  { destruct (subject action).
    - destruct (@branch_generic (act_name action) s0 g ph Hph0)
        as (c & s1 & g1 & Hb & _).
      unfold raises_early. now rewrite Hb.
    - now apply exec_relation_raises_early with (ph := ph).
    - now apply exec_storage_raises_early with (ph := ph).
    - now split. }
  unfold raises_early in Hbranch. unfold bind.
  destruct (match subject action with
            | SRel subject => exec_relation subject (act_name action) consume
            | SSto subject => exec_storage subject (act_name action) consume
            | SNone => exec_generic (act_name action)
            | SOther _ => raise (ValueError "no action known for type")
            end s0 g) as [c s1 g1|e1 s1 g1].
  - destruct c; [|discriminate].
    unfold consume_action, bind, get.
    destruct (set_remove (objects s1) action (possible_actions s1));
      [discriminate|].
    intros H. injection H as <- _ _. left. eauto.
  - intros H. injection H as _ <- <-. right. exact Hbranch.
Qed.

(** Detaching a storage mount that is not attached. *)
Lemma exec_error_keeps_action_recorded_witness :
  exists e s' g',
    phase departing_state = Some operation
    /\ _exec (StorageMount.detach (mkStorageMount "data")) true
         departing_state [] = Err e s' g'
    /\ ((exists msg, e = KeyError msg)
        \/ (s' = extend_scenario operation
                   [A (StorageMount.detach (mkStorageMount "data"))]
                   departing_state
            /\ g' = [])).
Proof.
  destruct (_exec (StorageMount.detach (mkStorageMount "data")) true
              departing_state []) as [[] s' g'|e s' g'] eqn:H.
  - vm_compute in H. discriminate H.
  - exists e, s', g'. split; [reflexivity|]. split; [reflexivity|].
    exact (@exec_error_keeps_action_recorded
             (StorageMount.detach (mkStorageMount "data")) true
             departing_state [] operation e s' g' eq_refl H).
Defined.
